(** * The post selector of the blog: [getPublishedAndSortedPosts]

    The utility keeps the posts that pass the draft filter and orders them
    with [Array.prototype.sort] and a two-valued comparator built on
    [isDateBefore].  The development has four layers:

    - [V8]: the sort the JavaScript engine runs.  The site is built by
      Astro on Node.js, whose engine is V8, and V8 sorts with TimSort
      ([third_party/v8/builtins/array-sort.tq]).  The ECMAScript standard
      fixes the result of [sort] only for a consistent comparator, one
      that answers 0 on equal arguments; the comparator of this program
      never does, so the order is the engine's, and the engine's algorithm
      is part of the program;
    - the data model ([Date], [CollectionEntry], [Env]) and the two
      exported functions as functions on lists;
    - the same functions over a store of arrays, where [filter] creates an
      array and [sort] rearranges one in place;
    - [Abrupt] and [Runtime]: the sort with a comparator that may throw,
      and the two functions on the records they receive at run time,
      where a [pubDate] may be missing and the method call on it throws.
      [AbruptFacts] proves that this sort is the sort of [V8] whenever the
      comparator completes normally on the elements of the array.

    [V8Facts] proves that the sort returns a permutation of its input for
    every comparator, and a run (each element before all that follow) when
    the comparator's answers are those of a total preorder; that every
    comparison it makes is of an element with one that entered the array
    before it, so that two comparators that agree on such pairs sort
    alike; and what it does to an array that is a single run.  The last
    two parts state the properties of the specification and further
    properties of the two functions. *)

From stdpp Require Import base tactics option list sets sorting strings.
From Stdlib Require Import ZArith Lia.

Local Open Scope Z_scope.

(** ** The engine's sort

    The work array and its ranges are lists, a pending run is the list of
    its elements, and the copies the source makes between the work array
    and the temporary array are list operations.  The control flow is the
    source's: the same comparisons in the same order, the same tests on
    their results, the same exits. *)

Module V8.

(** Array ranges are lists; indices and lengths are integers, as the
    engine's small integers are (a backing store holds fewer than 2^27
    elements, so none of the index arithmetic wraps). *)
Definition len {X : Type} (a : list X) : Z := Z.of_nat (length a).
Definition upto {X : Type} (n : Z) (a : list X) : list X := take (Z.to_nat n) a.
Definition from {X : Type} (n : Z) (a : list X) : list X := drop (Z.to_nat n) a.
Definition at_index {X : Type} (a : list X) (i : Z) : option X :=
  if i <? 0 then None else a !! Z.to_nat i.

(** The range without its last element, and that element. *)
Definition last_split {X : Type} (a : list X) : option (list X * X) :=
  match reverse a with
  | [] => None
  | x :: front => Some (reverse front, x)
  end.

Section ArraySort.
Context {T : Type}.

(** [sortState.Compare(x, y)]: the number the user comparator returns.
    Every branch of the algorithm tests it with [order < 0] or
    [order >= 0] only. *)
Variable Compare : T -> T -> Z.

Definition kMinGallopWins : Z := 7.

(** [ComputeMinRunLength]:
    while (n >= 64) { r = r | (n & 1); n = n >> 1; } return n + r. *)
Fixpoint ComputeMinRunLength_loop (fuel : nat) (n r : Z) : Z :=
  match fuel with
  | O => n + r
  | S fuel' =>
      if 64 <=? n
      then ComputeMinRunLength_loop fuel' (Z.shiftr n 1) (Z.lor r (Z.land n 1))
      else n + r
  end.

Definition ComputeMinRunLength (nArg : Z) : Z :=
  ComputeMinRunLength_loop (Z.to_nat nArg) nArg 0.

(** [ReverseRange(array, from, to)] reverses the elements of
    [from, to) in place. *)
Definition ReverseRange (a : list T) (lo hi : Z) : list T :=
  upto lo a ++ reverse (upto (hi - lo) (from lo a)) ++ from hi a.

(** The scan of [CountAndMakeRun]:
    for (idx = low + 1; idx < high; ++idx) {
      order = Compare(current, previous);
      if (isDescending) { if (order >= 0) break; }
      else { if (order < 0) break; }
      previous = current; ++runLength; } *)
Fixpoint CountAndMakeRun_scan (isDescending : bool) (previousElement : T)
    (rest : list T) (runLength : Z) : Z :=
  match rest with
  | [] => runLength
  | currentElement :: rest' =>
      let order := Compare currentElement previousElement in
      if (if isDescending then 0 <=? order else order <? 0)
      then runLength
      else CountAndMakeRun_scan isDescending currentElement rest' (runLength + 1)
  end.

(** [CountAndMakeRun(low, high)] on the range [a]: the length of the run
    that starts the range, and the range with that run reversed when it
    was a descending one. *)
Definition CountAndMakeRun (a : list T) : Z * list T :=
  match a with
  | [] | [_] => (len a, a)
  | elementHigh :: elementLow :: rest =>
      let order := Compare elementLow elementHigh in
      let isDescending := order <? 0 in
      let runLength := CountAndMakeRun_scan isDescending elementLow rest 2 in
      (runLength, if isDescending then ReverseRange a 0 runLength else a)
  end.

(** The search of [BinaryInsertionSort]:
    while (left < right) {
      mid = left + ((right - left) >> 1);
      order = Compare(pivot, a[mid]);
      if (order < 0) right = mid; else left = mid + 1; } *)
Fixpoint BinaryInsertionSort_search (fuel : nat) (a : list T) (pivot : T)
    (left right : Z) : Z :=
  match fuel with
  | O => left
  | S fuel' =>
      if left <? right then
        let mid := left + Z.shiftr (right - left) 1 in
        match at_index a mid with
        | Some midElement =>
            let order := Compare pivot midElement in
            if order <? 0
            then BinaryInsertionSort_search fuel' a pivot left mid
            else BinaryInsertionSort_search fuel' a pivot (mid + 1) right
        | None => left
        end
      else left
  end.

(** for (p = start; p > left; --p) a[p] = a[p - 1];  a[left] = pivot. *)
Definition slide_in (a : list T) (left start : Z) (pivot : T) : list T :=
  upto left a ++ pivot :: upto (start - left) (from left a) ++ from (start + 1) a.

(** The outer loop of [BinaryInsertionSort]:
    for (; start < high; ++start) { pivot = a[start]; ... } *)
Fixpoint BinaryInsertionSort_loop (todo : nat) (a : list T) (start : Z) : list T :=
  match todo with
  | O => a
  | S todo' =>
      match at_index a start with
      | Some pivot =>
          let left := BinaryInsertionSort_search (Z.to_nat start) a pivot 0 start in
          BinaryInsertionSort_loop todo' (slide_in a left start pivot) (start + 1)
      | None => a
      end
  end.

(** [BinaryInsertionSort(low, startArg, high)] on the range [a]; the
    first [startArg] elements are already a run. *)
Definition BinaryInsertionSort (a : list T) (startArg : Z) : list T :=
  let start := if startArg =? 0 then startArg + 1 else startArg in
  BinaryInsertionSort_loop (Z.to_nat (len a - start)) a start.

(** *** Galloping searches

    Both searches share their two loops.  The first doubles the distance
    from the hint:
    while (offset < maxOfs) {
      order = Compare(...); if (<stop>) break;
      lastOfs = offset; offset = (offset << 1) + 1; }
    and the second bisects what is left:
    while (lastOfs < offset) {
      m = lastOfs + ((offset - lastOfs) >> 1);
      order = Compare(...);
      if (<right>) lastOfs = m + 1; else offset = m; } *)
Fixpoint Gallop_extend (fuel : nat) (stop : Z -> bool)
    (maxOfs lastOfs offset : Z) : Z * Z :=
  match fuel with
  | O => (lastOfs, offset)
  | S fuel' =>
      if offset <? maxOfs then
        if stop offset then (lastOfs, offset)
        else Gallop_extend fuel' stop maxOfs offset (Z.shiftl offset 1 + 1)
      else (lastOfs, offset)
  end.

Fixpoint Gallop_bisect (fuel : nat) (right : Z -> bool)
    (lastOfs offset : Z) : Z :=
  match fuel with
  | O => offset
  | S fuel' =>
      if lastOfs <? offset then
        let m := lastOfs + Z.shiftr (offset - lastOfs) 1 in
        if right m
        then Gallop_bisect fuel' right (m + 1) offset
        else Gallop_bisect fuel' right lastOfs m
      else offset
  end.

(** [order = Compare(array[i], key)] of [GallopLeft] and
    [order = Compare(key, array[i])] of [GallopRight]. *)
Definition GallopLeft_order (a : list T) (key : T) (i : Z) : Z :=
  match at_index a i with Some element => Compare element key | None => 0 end.

Definition GallopRight_order (a : list T) (key : T) (i : Z) : Z :=
  match at_index a i with Some element => Compare key element | None => 0 end.

(** [GallopLeft(array, key, base, length, hint)] on the range [a]: the
    offset at which [key] belongs, left of the elements equal to it. *)
Definition GallopLeft (a : list T) (key : T) (hint : Z) : Z :=
  let length := len a in
  let fuel := Z.to_nat length in
  let order := GallopLeft_order a key hint in
  let '(lastOfs, offset) :=
    if order <? 0 then
      (* a[hint] < key: gallop right *)
      let maxOfs := length - hint in
      let '(lastOfs, offset) :=
        Gallop_extend fuel (fun ofs => 0 <=? GallopLeft_order a key (hint + ofs))
          maxOfs 0 1 in
      let offset := if maxOfs <? offset then maxOfs else offset in
      (lastOfs + hint, offset + hint)
    else
      (* key <= a[hint]: gallop left *)
      let maxOfs := hint + 1 in
      let '(lastOfs, offset) :=
        Gallop_extend fuel (fun ofs => GallopLeft_order a key (hint - ofs) <? 0)
          maxOfs 0 1 in
      let offset := if maxOfs <? offset then maxOfs else offset in
      (hint - offset, hint - lastOfs) in
  Gallop_bisect fuel (fun m => GallopLeft_order a key m <? 0) (lastOfs + 1) offset.

(** [GallopRight(array, key, base, length, hint)]: the same, right of
    the elements equal to [key]. *)
Definition GallopRight (a : list T) (key : T) (hint : Z) : Z :=
  let length := len a in
  let fuel := Z.to_nat length in
  let order := GallopRight_order a key hint in
  let '(lastOfs, offset) :=
    if order <? 0 then
      (* key < a[hint]: gallop left *)
      let maxOfs := hint + 1 in
      let '(lastOfs, offset) :=
        Gallop_extend fuel (fun ofs => 0 <=? GallopRight_order a key (hint - ofs))
          maxOfs 0 1 in
      let offset := if maxOfs <? offset then maxOfs else offset in
      (hint - offset, hint - lastOfs)
    else
      (* a[hint] <= key: gallop right *)
      let maxOfs := length - hint in
      let '(lastOfs, offset) :=
        Gallop_extend fuel (fun ofs => GallopRight_order a key (hint + ofs) <? 0)
          maxOfs 0 1 in
      let offset := if maxOfs <? offset then maxOfs else offset in
      (lastOfs + hint, offset + hint) in
  Gallop_bisect fuel (fun m => 0 <=? GallopRight_order a key m) (lastOfs + 1) offset.

(** *** Merging two adjacent runs

    [MergeLow] merges left to right: run A has been copied to the
    temporary array, [dest] is the part of the work array already
    written, and B is consumed from its front.  The two loops of the
    source alternate: one element at a time until one run wins
    [minGallop] times in a row, then galloping until neither wins
    [kMinGallopWins] times.  The exits are the labels of the source:
    [Succeed] leaves [dest ++ A ++ B] (one of the two is empty) and
    [CopyB] leaves [dest ++ B ++ A] (A holds one element).  The second
    component is [sortState.minGallop] on return. *)
Fixpoint MergeLow_linear (fuel : nat) (minGallop nofWinsA nofWinsB : Z)
    (dest A B : list T) {struct fuel} : list T * Z :=
  match fuel, A, B with
  | S fuel', a :: A', b :: B' =>
      let order := Compare b a in
      if order <? 0 then
        let dest := dest ++ [b] in
        let nofWinsB := nofWinsB + 1 in
        if len B' =? 0 then (dest ++ A ++ B', minGallop)
        else if minGallop <=? nofWinsB
        then MergeLow_gallop fuel' (minGallop + 1) dest A B'
        else MergeLow_linear fuel' minGallop 0 nofWinsB dest A B'
      else
        let dest := dest ++ [a] in
        let nofWinsA := nofWinsA + 1 in
        if len A' =? 1 then (dest ++ B ++ A', minGallop)
        else if minGallop <=? nofWinsA
        then MergeLow_gallop fuel' (minGallop + 1) dest A' B
        else MergeLow_linear fuel' minGallop nofWinsA 0 dest A' B
  | _, _, _ => (dest ++ A ++ B, minGallop)
  end
with MergeLow_gallop (fuel : nat) (minGallop : Z)
    (dest A B : list T) {struct fuel} : list T * Z :=
  match fuel, B with
  | S fuel', b :: B' =>
      let minGallop := Z.max 1 (minGallop - 1) in
      let nofWinsA := GallopRight A b 0 in
      let dest := dest ++ upto nofWinsA A in
      let A := from nofWinsA A in
      if (0 <? nofWinsA) && (len A =? 1) then (dest ++ B ++ A, minGallop)
      else if (0 <? nofWinsA) && (len A =? 0) then (dest ++ A ++ B, minGallop)
      else
        let dest := dest ++ [b] in
        if len B' =? 0 then (dest ++ A ++ B', minGallop)
        else
          match A with
          | [] => (dest ++ A ++ B', minGallop)
          | a :: A' =>
              let nofWinsB := GallopLeft B' a 0 in
              let dest := dest ++ upto nofWinsB B' in
              let B := from nofWinsB B' in
              if (0 <? nofWinsB) && (len B =? 0) then (dest ++ A ++ B, minGallop)
              else
                let dest := dest ++ [a] in
                if len A' =? 1 then (dest ++ B ++ A', minGallop)
                else if (kMinGallopWins <=? nofWinsA) || (kMinGallopWins <=? nofWinsB)
                then MergeLow_gallop fuel' minGallop dest A' B
                else MergeLow_linear fuel' (minGallop + 1) 0 0 dest A' B
          end
  | _, _ => (dest ++ A ++ B, minGallop)
  end.

Definition MergeLow (minGallop : Z) (A B : list T) : list T * Z :=
  match B with
  | [] => (A ++ B, minGallop)
  | b :: B' =>
      let dest := [b] in
      if len B' =? 0 then (dest ++ A ++ B', minGallop)
      else if len A =? 1 then (dest ++ B' ++ A, minGallop)
      else MergeLow_linear (length A + length B') minGallop 0 0 dest A B'
  end.

(** [MergeHigh] merges right to left: run B is in the temporary array,
    [dest] is the part already written at the high end, and both runs
    are consumed from their last element.  [Succeed] leaves
    [A ++ B ++ dest] and [CopyA] leaves [B ++ A ++ dest] (B holds one
    element). *)
Fixpoint MergeHigh_linear (fuel : nat) (minGallop nofWinsA nofWinsB : Z)
    (A B dest : list T) {struct fuel} : list T * Z :=
  match fuel, last_split A, last_split B with
  | S fuel', Some (A', a), Some (B', b) =>
      let order := Compare b a in
      if order <? 0 then
        let dest := a :: dest in
        let nofWinsA := nofWinsA + 1 in
        if len A' =? 0 then (A' ++ B ++ dest, minGallop)
        else if minGallop <=? nofWinsA
        then MergeHigh_gallop fuel' (minGallop + 1) A' B dest
        else MergeHigh_linear fuel' minGallop nofWinsA 0 A' B dest
      else
        let dest := b :: dest in
        let nofWinsB := nofWinsB + 1 in
        if len B' =? 1 then (B' ++ A ++ dest, minGallop)
        else if minGallop <=? nofWinsB
        then MergeHigh_gallop fuel' (minGallop + 1) A B' dest
        else MergeHigh_linear fuel' minGallop 0 nofWinsB A B' dest
  | _, _, _ => (A ++ B ++ dest, minGallop)
  end
with MergeHigh_gallop (fuel : nat) (minGallop : Z)
    (A B dest : list T) {struct fuel} : list T * Z :=
  match fuel, last_split B with
  | S fuel', Some (B', b) =>
      let minGallop := Z.max 1 (minGallop - 1) in
      let k := GallopRight A b (len A - 1) in
      let nofWinsA := len A - k in
      let dest := from k A ++ dest in
      let A := upto k A in
      if (0 <? nofWinsA) && (len A =? 0) then (A ++ B ++ dest, minGallop)
      else
        let dest := b :: dest in
        if len B' =? 1 then (B' ++ A ++ dest, minGallop)
        else
          match last_split A with
          | None => (A ++ B' ++ dest, minGallop)
          | Some (A', a) =>
              let k := GallopLeft B' a (len B' - 1) in
              let nofWinsB := len B' - k in
              let dest := from k B' ++ dest in
              let B := upto k B' in
              if (0 <? nofWinsB) && (len B =? 1) then (B ++ A ++ dest, minGallop)
              else if (0 <? nofWinsB) && (len B =? 0) then (A ++ B ++ dest, minGallop)
              else
                let dest := a :: dest in
                if len A' =? 0 then (A' ++ B ++ dest, minGallop)
                else if (kMinGallopWins <=? nofWinsA) || (kMinGallopWins <=? nofWinsB)
                then MergeHigh_gallop fuel' minGallop A' B dest
                else MergeHigh_linear fuel' (minGallop + 1) 0 0 A' B dest
          end
  | _, _ => (A ++ B ++ dest, minGallop)
  end.

Definition MergeHigh (minGallop : Z) (A B : list T) : list T * Z :=
  match last_split A with
  | None => (A ++ B, minGallop)
  | Some (A', a) =>
      let dest := [a] in
      if len A' =? 0 then (A' ++ B ++ dest, minGallop)
      else if len B =? 1 then (B ++ A' ++ dest, minGallop)
      else MergeHigh_linear (length A' + length B) minGallop 0 0 A' B dest
  end.

(** The body of [MergeAt] on the two runs it merges: the elements of A
    that precede B's first and the elements of B that follow A's last
    stay where they are; the rest is merged with the shorter run in the
    temporary array. *)
Definition MergeAt_runs (minGallop : Z) (A B : list T) : list T * Z :=
  match B with
  | [] => (A ++ B, minGallop)
  | keyRight :: _ =>
      let k := GallopRight A keyRight 0 in
      let A' := from k A in
      if len A' =? 0 then (A ++ B, minGallop)
      else
        match last_split A' with
        | None => (A ++ B, minGallop)
        | Some (_, keyLeft) =>
            let lengthB := GallopLeft B keyLeft (len B - 1) in
            if lengthB =? 0 then (A ++ B, minGallop)
            else
              let B' := upto lengthB B in
              let '(merged, minGallop) :=
                if len A' <=? lengthB
                then MergeLow minGallop A' B'
                else MergeHigh minGallop A' B' in
              (upto k A ++ merged ++ from lengthB B, minGallop)
        end
  end.

(** *** The stack of pending runs

    [pendingRuns] holds base and length of each run; here it holds the
    runs themselves, first run first, so that the work array is their
    concatenation followed by the part not yet cut into runs. *)
Record SortState := {
  pendingRuns : list (list T);
  minGallop : Z
}.

Definition GetPendingRunsSize (sortState : SortState) : Z :=
  len (pendingRuns sortState).

Definition GetPendingRunLength (runs : list (list T)) (run : Z) : Z :=
  match at_index runs run with Some r => len r | None => 0 end.

Definition PushRun (sortState : SortState) (run : list T) : SortState :=
  {| pendingRuns := pendingRuns sortState ++ [run];
     minGallop := minGallop sortState |}.

(** [MergeAt(i)] merges the runs at stack indices [i] and [i + 1]. *)
Definition MergeAt (i : Z) (sortState : SortState) : SortState :=
  let runs := pendingRuns sortState in
  match at_index runs i, at_index runs (i + 1) with
  | Some A, Some B =>
      let '(merged, minGallop) := MergeAt_runs (minGallop sortState) A B in
      {| pendingRuns := upto i runs ++ merged :: from (i + 2) runs;
         minGallop := minGallop |}
  | _, _ => sortState
  end.

Definition RunInvariantEstablished (runs : list (list T)) (n : Z) : bool :=
  if n <? 2 then true
  else
    let lengthN := GetPendingRunLength runs n in
    let lengthNM := GetPendingRunLength runs (n - 1) in
    let lengthNMM := GetPendingRunLength runs (n - 2) in
    lengthNM + lengthN <? lengthNMM.

(** [MergeCollapse]: merge until the run lengths on the stack decrease
    fast enough.
    while (size > 1) {
      n = size - 2;
      if (!RunInvariantEstablished(n + 1) || !RunInvariantEstablished(n)) {
        if (length(n - 1) < length(n + 1)) --n;
        MergeAt(n);
      } else if (length(n) <= length(n + 1)) { MergeAt(n); }
      else break; } *)
Fixpoint MergeCollapse_loop (fuel : nat) (sortState : SortState) : SortState :=
  match fuel with
  | O => sortState
  | S fuel' =>
      let runs := pendingRuns sortState in
      if 1 <? GetPendingRunsSize sortState then
        let n := GetPendingRunsSize sortState - 2 in
        if negb (RunInvariantEstablished runs (n + 1))
           || negb (RunInvariantEstablished runs n)
        then
          let n :=
            if GetPendingRunLength runs (n - 1) <? GetPendingRunLength runs (n + 1)
            then n - 1 else n in
          MergeCollapse_loop fuel' (MergeAt n sortState)
        else if GetPendingRunLength runs n <=? GetPendingRunLength runs (n + 1)
        then MergeCollapse_loop fuel' (MergeAt n sortState)
        else sortState
      else sortState
  end.

Definition MergeCollapse (sortState : SortState) : SortState :=
  MergeCollapse_loop (length (pendingRuns sortState)) sortState.

(** [MergeForceCollapse]: merge everything that is left.
    while (size > 1) {
      n = size - 2;
      if (n > 0 && length(n - 1) < length(n + 1)) --n;
      MergeAt(n); } *)
Fixpoint MergeForceCollapse_loop (fuel : nat) (sortState : SortState) : SortState :=
  match fuel with
  | O => sortState
  | S fuel' =>
      let runs := pendingRuns sortState in
      if 1 <? GetPendingRunsSize sortState then
        let n := GetPendingRunsSize sortState - 2 in
        let n :=
          if (0 <? n)
             && (GetPendingRunLength runs (n - 1) <? GetPendingRunLength runs (n + 1))
          then n - 1 else n in
        MergeForceCollapse_loop fuel' (MergeAt n sortState)
      else sortState
  end.

Definition MergeForceCollapse (sortState : SortState) : SortState :=
  MergeForceCollapse_loop (length (pendingRuns sortState)) sortState.

(** *** The driver

    while (remaining != 0) {
      currentRunLength = CountAndMakeRun(low, low + remaining);
      if (currentRunLength < minRunLength) {
        forcedRunLength = min(minRunLength, remaining);
        BinaryInsertionSort(low, low + currentRunLength, low + forcedRunLength);
        currentRunLength = forcedRunLength; }
      PushRun(low, currentRunLength);  MergeCollapse();
      low = low + currentRunLength;  remaining = remaining - currentRunLength; }

    The loop returns the stack and the part of the work array from [low]
    on. *)
Fixpoint ArrayTimSortImpl_loop (fuel : nat) (minRunLength : Z)
    (sortState : SortState) (remaining : list T) : SortState * list T :=
  match fuel with
  | O => (sortState, remaining)
  | S fuel' =>
      if len remaining =? 0 then (sortState, remaining)
      else
        let '(currentRunLength, a) := CountAndMakeRun remaining in
        let '(currentRunLength, a) :=
          if currentRunLength <? minRunLength then
            let forcedRunLength := Z.min minRunLength (len remaining) in
            (forcedRunLength,
             BinaryInsertionSort (upto forcedRunLength a) currentRunLength
               ++ from forcedRunLength a)
          else (currentRunLength, a) in
        let sortState := PushRun sortState (upto currentRunLength a) in
        let sortState := MergeCollapse sortState in
        ArrayTimSortImpl_loop fuel' minRunLength sortState (from currentRunLength a)
  end.

(** The first half of the loop body of the driver on its own: the
    length of the run that is pushed, and the rest of the work array
    once that run is in order. *)
Definition next_run (minRunLength : Z) (remaining : list T) : Z * list T :=
  let '(currentRunLength, a) := CountAndMakeRun remaining in
  if currentRunLength <? minRunLength then
    let forcedRunLength := Z.min minRunLength (len remaining) in
    (forcedRunLength,
     BinaryInsertionSort (upto forcedRunLength a) currentRunLength
       ++ from forcedRunLength a)
  else (currentRunLength, a).

(** [ArrayTimSortImpl(sortState, length)]: the work array when the sort
    returns. *)
Definition ArrayTimSortImpl (workArray : list T) : list T :=
  if len workArray <? 2 then workArray
  else
    let minRunLength := ComputeMinRunLength (len workArray) in
    let initial := {| pendingRuns := []; minGallop := kMinGallopWins |} in
    let '(sortState, remaining) :=
      ArrayTimSortImpl_loop (length workArray) minRunLength initial workArray in
    let sortState := MergeForceCollapse sortState in
    concat (pendingRuns sortState) ++ remaining.

End ArraySort.

(** *** Being in order

    The algorithm asks the comparator one question, [Compare x y < 0],
    and treats a yes as "x goes before y".  [P] marks the elements on
    which the answers are those of an order. *)
Section Order.
Context {T : Type} (Compare : T -> T -> Z) (P : T -> Prop).

Definition before (x y : T) : Prop := P x /\ P y /\ Compare x y < 0.

(** A range whose every element stands before all that follow it. *)
Definition run (a : list T) : Prop := Forall P a /\ StronglySorted before a.

(** The elements of [a] below offset [lo] may stand before [key], and
    [key] before those from offset [hi] on. *)
Definition bracket (key : T) (a : list T) (lo hi : Z) : Prop :=
  0 <= lo <= hi /\ hi <= len a
  /\ Forall (fun e => before e key) (upto lo a)
  /\ Forall (before key) (from hi a).

(** The state of a left-to-right merge: what has been written stands
    before what is left of both runs, and A's last element goes after
    all of B. *)
Definition merge_low_inv (dest A B : list T) : Prop :=
  run (dest ++ A) /\ run (dest ++ B)
  /\ (forall a, last A = Some a -> Forall (fun b => before b a) B).

(** The state of a right-to-left merge. *)
Definition merge_high_inv (A B dest : list T) : Prop :=
  run (A ++ dest) /\ run (B ++ dest)
  /\ (forall b, head B = Some b -> Forall (before b) A).
End Order.

(** *** The order of entry

    [later x y] says that [x] entered the array after [y]. *)
Section Entry.
Context {T : Type} (later : T -> T -> Prop).

(** Every element of [X] entered the array after every element of [Y]. *)
Definition later_than (X Y : list T) : Prop :=
  forall x y, x ∈ X -> y ∈ Y -> later x y.

(** A range that holds its elements in the order in which they entered. *)
Definition in_entry_order (a : list T) : Prop := StronglySorted (flip later) a.

(** Runs that hold, each in some order of its own, successive stretches
    of the array as it entered. *)
Definition runs_in_entry_order (runs : list (list T)) : Prop :=
  StronglySorted (flip later_than) runs.
End Entry.

(** [Array.prototype.sort(comparefn)] on an array of objects (no holes, no
    [undefined]): the elements are copied to the work array, sorted there
    and copied back, so the receiver ends up holding the result. *)
Definition ArrayPrototypeSort {T : Type} (comparefn : T -> T -> Z)
    (elements : list T) : list T :=
  ArrayTimSortImpl comparefn elements.

End V8.

(** ** The data model *)

(** The time value of a JavaScript [Date]: a whole number of milliseconds
    since the epoch, or [NaN] for an Invalid Date (what [new Date(text)]
    gives for text that does not parse). *)
Inductive TimeValue : Type :=
  | NaN
  | ms (t : Z).

Record Date := { getTime : TimeValue }.

(** [x < y] on the numbers that [getTime] returns: false as soon as one
    side is [NaN]. *)
Definition number_lt (x y : TimeValue) : bool :=
  match x, y with
  | ms t1, ms t2 => t1 <? t2
  | _, _ => false
  end.

(** [ToBoolean] of an optional boolean field: [undefined] is falsy. *)
Definition ToBoolean (v : option bool) : bool := default false v.

(** The front matter of a post, [post.data]. *)
Record BlogData := {
  title : string;
  description : string;
  pubDate : Date;
  heroImage : option string;
  draft : option bool
}.

(** [CollectionEntry<'blog'>]. *)
Record CollectionEntry := {
  id : string;
  slug : string;
  body : string;
  data : BlogData
}.

(** What the module reads from its surroundings: [import.meta.env.PROD]
    and [siteMetadata.devMode.showDraftPages]. *)
Record Env := {
  PROD : bool;
  showDraftPages : bool
}.

Definition valid_date (d : Date) : Prop := getTime d <> NaN.
Definition valid_post (post : CollectionEntry) : Prop :=
  valid_date (pubDate (data post)).

(** ** The two exported functions *)

(** helper function to check if date1 is before date2 *)
Definition isDateBefore (date1 date2 : Date) : bool :=
  number_lt (getTime date1) (getTime date2).

(** The callback given to [filter]. *)
Definition filter_callback (env : Env) (post : CollectionEntry) : bool :=
  if PROD env then negb (ToBoolean (draft (data post)))
  else if showDraftPages env then true
  else negb (ToBoolean (draft (data post))).

(** The callback given to [sort]. *)
Definition sort_callback (post1 post2 : CollectionEntry) : Z :=
  if isDateBefore (pubDate (data post1)) (pubDate (data post2)) then 1 else -1.

(** [Array.prototype.filter(callback)]: the elements for which the callback
    answers true, in their order. *)
Definition ArrayPrototypeFilter {T : Type} (callback : T -> bool)
    (elements : list T) : list T :=
  filter (fun x => callback x = true) elements.

(** The value [getPublishedAndSortedPosts(allPosts)] returns. *)
Definition getPublishedAndSortedPosts (env : Env)
    (allPosts : list CollectionEntry) : list CollectionEntry :=
  V8.ArrayPrototypeSort sort_callback
    (ArrayPrototypeFilter (filter_callback env) allPosts).

(** ** The functions over the store of arrays

    Arrays are objects: a variable holds a reference, and the store maps
    references to the elements.  A reference is the position at which the
    array was created.  [filter] creates a new array; [sort] rearranges
    its receiver and returns it.  A call completes normally with a value
    or abruptly with a thrown error, given here by its name. *)
Inductive Completion (V : Type) : Type :=
  | Normal (value : V)
  | Throw (errorName : string).
Arguments Normal {V} value.
Arguments Throw {V} errorName.

Abbreviation Store := (list (list CollectionEntry)).

Definition allocate (store : Store) (elements : list CollectionEntry) : Store * nat :=
  (store ++ [elements], length store).

(** [this.filter(callback)] *)
Definition filter_method (callback : CollectionEntry -> bool)
    (store : Store) (this : nat) : Completion (Store * nat) :=
  match store !! this with
  | Some elements => Normal (allocate store (ArrayPrototypeFilter callback elements))
  | None => Throw "TypeError"
  end.

(** [this.sort(comparefn)] *)
Definition sort_method (comparefn : CollectionEntry -> CollectionEntry -> Z)
    (store : Store) (this : nat) : Completion (Store * nat) :=
  match store !! this with
  | Some elements =>
      Normal (<[this := V8.ArrayPrototypeSort comparefn elements]> store, this)
  | None => Throw "TypeError"
  end.

(** [getPublishedAndSortedPosts(allPosts)] as a call: the store it leaves
    and the reference it returns. *)
Definition call_getPublishedAndSortedPosts (env : Env)
    (store : Store) (allPosts : nat) : Completion (Store * nat) :=
  match filter_method (filter_callback env) store allPosts with
  | Normal (store', filtered) => sort_method sort_callback store' filtered
  | Throw errorName => Throw errorName
  end.

(** ** The engine's sort with a comparator that may throw

    The comparator is user code: it may complete abruptly, and then the
    sort stops where it is and the call of [sort] completes with the same
    error.  This is the algorithm of [V8] once more, with the completion
    of every comparison looked at before its result is used. *)

#[global] Instance Completion_ret : MRet Completion := fun _ value => Normal value.
#[global] Instance Completion_bind : MBind Completion := fun _ _ f completion =>
  match completion with
  | Normal value => f value
  | Throw errorName => Throw errorName
  end.

Module Abrupt.
Import V8.

Section ArraySort.
Context {T : Type}.

(** [sortState.Compare(x, y)]: the comparator returns a number or throws. *)
Variable Compare : T -> T -> Completion Z.

Fixpoint CountAndMakeRun_scan (isDescending : bool) (previousElement : T)
    (rest : list T) (runLength : Z) : Completion Z :=
  match rest with
  | [] => mret runLength
  | currentElement :: rest' =>
      order ← Compare currentElement previousElement;
      if (if isDescending then 0 <=? order else order <? 0)
      then mret runLength
      else CountAndMakeRun_scan isDescending currentElement rest' (runLength + 1)
  end.

Definition CountAndMakeRun (a : list T) : Completion (Z * list T) :=
  match a with
  | [] | [_] => mret (len a, a)
  | elementHigh :: elementLow :: rest =>
      order ← Compare elementLow elementHigh;
      let isDescending := order <? 0 in
      runLength ← CountAndMakeRun_scan isDescending elementLow rest 2;
      mret (runLength, if isDescending then ReverseRange a 0 runLength else a)
  end.

Fixpoint BinaryInsertionSort_search (fuel : nat) (a : list T) (pivot : T)
    (left right : Z) : Completion Z :=
  match fuel with
  | O => mret left
  | S fuel' =>
      if left <? right then
        let mid := left + Z.shiftr (right - left) 1 in
        match at_index a mid with
        | Some midElement =>
            order ← Compare pivot midElement;
            if order <? 0
            then BinaryInsertionSort_search fuel' a pivot left mid
            else BinaryInsertionSort_search fuel' a pivot (mid + 1) right
        | None => mret left
        end
      else mret left
  end.

Fixpoint BinaryInsertionSort_loop (todo : nat) (a : list T) (start : Z)
    : Completion (list T) :=
  match todo with
  | O => mret a
  | S todo' =>
      match at_index a start with
      | Some pivot =>
          left ← BinaryInsertionSort_search (Z.to_nat start) a pivot 0 start;
          BinaryInsertionSort_loop todo' (slide_in a left start pivot) (start + 1)
      | None => mret a
      end
  end.

Definition BinaryInsertionSort (a : list T) (startArg : Z) : Completion (list T) :=
  let start := if startArg =? 0 then startArg + 1 else startArg in
  BinaryInsertionSort_loop (Z.to_nat (len a - start)) a start.

Fixpoint Gallop_extend (fuel : nat) (stop : Z -> Completion bool)
    (maxOfs lastOfs offset : Z) : Completion (Z * Z) :=
  match fuel with
  | O => mret (lastOfs, offset)
  | S fuel' =>
      if offset <? maxOfs then
        stopped ← stop offset;
        if (stopped : bool) then mret (lastOfs, offset)
        else Gallop_extend fuel' stop maxOfs offset (Z.shiftl offset 1 + 1)
      else mret (lastOfs, offset)
  end.

Fixpoint Gallop_bisect (fuel : nat) (right : Z -> Completion bool)
    (lastOfs offset : Z) : Completion Z :=
  match fuel with
  | O => mret offset
  | S fuel' =>
      if lastOfs <? offset then
        let m := lastOfs + Z.shiftr (offset - lastOfs) 1 in
        goRight ← right m;
        if (goRight : bool)
        then Gallop_bisect fuel' right (m + 1) offset
        else Gallop_bisect fuel' right lastOfs m
      else mret offset
  end.

Definition GallopLeft_order (a : list T) (key : T) (i : Z) : Completion Z :=
  match at_index a i with Some element => Compare element key | None => mret 0 end.

Definition GallopRight_order (a : list T) (key : T) (i : Z) : Completion Z :=
  match at_index a i with Some element => Compare key element | None => mret 0 end.

Definition GallopLeft (a : list T) (key : T) (hint : Z) : Completion Z :=
  let length := len a in
  let fuel := Z.to_nat length in
  order ← GallopLeft_order a key hint;
  '(lastOfs, offset) ←
    (if order <? 0 then
       let maxOfs := length - hint in
       '(lastOfs, offset) ←
         Gallop_extend fuel
           (fun ofs => order ← GallopLeft_order a key (hint + ofs); mret (0 <=? order))
           maxOfs 0 1;
       let offset := if maxOfs <? offset then maxOfs else offset in
       mret (lastOfs + hint, offset + hint)
     else
       let maxOfs := hint + 1 in
       '(lastOfs, offset) ←
         Gallop_extend fuel
           (fun ofs => order ← GallopLeft_order a key (hint - ofs); mret (order <? 0))
           maxOfs 0 1;
       let offset := if maxOfs <? offset then maxOfs else offset in
       mret (hint - offset, hint - lastOfs));
  Gallop_bisect fuel
    (fun m => order ← GallopLeft_order a key m; mret (order <? 0))
    (lastOfs + 1) offset.

Definition GallopRight (a : list T) (key : T) (hint : Z) : Completion Z :=
  let length := len a in
  let fuel := Z.to_nat length in
  order ← GallopRight_order a key hint;
  '(lastOfs, offset) ←
    (if order <? 0 then
       let maxOfs := hint + 1 in
       '(lastOfs, offset) ←
         Gallop_extend fuel
           (fun ofs => order ← GallopRight_order a key (hint - ofs); mret (0 <=? order))
           maxOfs 0 1;
       let offset := if maxOfs <? offset then maxOfs else offset in
       mret (hint - offset, hint - lastOfs)
     else
       let maxOfs := length - hint in
       '(lastOfs, offset) ←
         Gallop_extend fuel
           (fun ofs => order ← GallopRight_order a key (hint + ofs); mret (order <? 0))
           maxOfs 0 1;
       let offset := if maxOfs <? offset then maxOfs else offset in
       mret (lastOfs + hint, offset + hint));
  Gallop_bisect fuel
    (fun m => order ← GallopRight_order a key m; mret (0 <=? order))
    (lastOfs + 1) offset.

Fixpoint MergeLow_linear (fuel : nat) (minGallop nofWinsA nofWinsB : Z)
    (dest A B : list T) {struct fuel} : Completion (list T * Z) :=
  match fuel, A, B with
  | S fuel', a :: A', b :: B' =>
      order ← Compare b a;
      if order <? 0 then
        let dest := dest ++ [b] in
        let nofWinsB := nofWinsB + 1 in
        if len B' =? 0 then mret (dest ++ A ++ B', minGallop)
        else if minGallop <=? nofWinsB
        then MergeLow_gallop fuel' (minGallop + 1) dest A B'
        else MergeLow_linear fuel' minGallop 0 nofWinsB dest A B'
      else
        let dest := dest ++ [a] in
        let nofWinsA := nofWinsA + 1 in
        if len A' =? 1 then mret (dest ++ B ++ A', minGallop)
        else if minGallop <=? nofWinsA
        then MergeLow_gallop fuel' (minGallop + 1) dest A' B
        else MergeLow_linear fuel' minGallop nofWinsA 0 dest A' B
  | _, _, _ => mret (dest ++ A ++ B, minGallop)
  end
with MergeLow_gallop (fuel : nat) (minGallop : Z)
    (dest A B : list T) {struct fuel} : Completion (list T * Z) :=
  match fuel, B with
  | S fuel', b :: B' =>
      let minGallop := Z.max 1 (minGallop - 1) in
      nofWinsA ← GallopRight A b 0;
      let dest := dest ++ upto nofWinsA A in
      let A := from nofWinsA A in
      if (0 <? nofWinsA) && (len A =? 1) then mret (dest ++ B ++ A, minGallop)
      else if (0 <? nofWinsA) && (len A =? 0) then mret (dest ++ A ++ B, minGallop)
      else
        let dest := dest ++ [b] in
        if len B' =? 0 then mret (dest ++ A ++ B', minGallop)
        else
          match A with
          | [] => mret (dest ++ A ++ B', minGallop)
          | a :: A' =>
              nofWinsB ← GallopLeft B' a 0;
              let dest := dest ++ upto nofWinsB B' in
              let B := from nofWinsB B' in
              if (0 <? nofWinsB) && (len B =? 0) then mret (dest ++ A ++ B, minGallop)
              else
                let dest := dest ++ [a] in
                if len A' =? 1 then mret (dest ++ B ++ A', minGallop)
                else if (kMinGallopWins <=? nofWinsA) || (kMinGallopWins <=? nofWinsB)
                then MergeLow_gallop fuel' minGallop dest A' B
                else MergeLow_linear fuel' (minGallop + 1) 0 0 dest A' B
          end
  | _, _ => mret (dest ++ A ++ B, minGallop)
  end.

Definition MergeLow (minGallop : Z) (A B : list T) : Completion (list T * Z) :=
  match B with
  | [] => mret (A ++ B, minGallop)
  | b :: B' =>
      let dest := [b] in
      if len B' =? 0 then mret (dest ++ A ++ B', minGallop)
      else if len A =? 1 then mret (dest ++ B' ++ A, minGallop)
      else MergeLow_linear (length A + length B') minGallop 0 0 dest A B'
  end.

Fixpoint MergeHigh_linear (fuel : nat) (minGallop nofWinsA nofWinsB : Z)
    (A B dest : list T) {struct fuel} : Completion (list T * Z) :=
  match fuel, last_split A, last_split B with
  | S fuel', Some (A', a), Some (B', b) =>
      order ← Compare b a;
      if order <? 0 then
        let dest := a :: dest in
        let nofWinsA := nofWinsA + 1 in
        if len A' =? 0 then mret (A' ++ B ++ dest, minGallop)
        else if minGallop <=? nofWinsA
        then MergeHigh_gallop fuel' (minGallop + 1) A' B dest
        else MergeHigh_linear fuel' minGallop nofWinsA 0 A' B dest
      else
        let dest := b :: dest in
        let nofWinsB := nofWinsB + 1 in
        if len B' =? 1 then mret (B' ++ A ++ dest, minGallop)
        else if minGallop <=? nofWinsB
        then MergeHigh_gallop fuel' (minGallop + 1) A B' dest
        else MergeHigh_linear fuel' minGallop 0 nofWinsB A B' dest
  | _, _, _ => mret (A ++ B ++ dest, minGallop)
  end
with MergeHigh_gallop (fuel : nat) (minGallop : Z)
    (A B dest : list T) {struct fuel} : Completion (list T * Z) :=
  match fuel, last_split B with
  | S fuel', Some (B', b) =>
      let minGallop := Z.max 1 (minGallop - 1) in
      k ← GallopRight A b (len A - 1);
      let nofWinsA := len A - k in
      let dest := from k A ++ dest in
      let A := upto k A in
      if (0 <? nofWinsA) && (len A =? 0) then mret (A ++ B ++ dest, minGallop)
      else
        let dest := b :: dest in
        if len B' =? 1 then mret (B' ++ A ++ dest, minGallop)
        else
          match last_split A with
          | None => mret (A ++ B' ++ dest, minGallop)
          | Some (A', a) =>
              k ← GallopLeft B' a (len B' - 1);
              let nofWinsB := len B' - k in
              let dest := from k B' ++ dest in
              let B := upto k B' in
              if (0 <? nofWinsB) && (len B =? 1) then mret (B ++ A ++ dest, minGallop)
              else if (0 <? nofWinsB) && (len B =? 0) then mret (A ++ B ++ dest, minGallop)
              else
                let dest := a :: dest in
                if len A' =? 0 then mret (A' ++ B ++ dest, minGallop)
                else if (kMinGallopWins <=? nofWinsA) || (kMinGallopWins <=? nofWinsB)
                then MergeHigh_gallop fuel' minGallop A' B dest
                else MergeHigh_linear fuel' (minGallop + 1) 0 0 A' B dest
          end
  | _, _ => mret (A ++ B ++ dest, minGallop)
  end.

Definition MergeHigh (minGallop : Z) (A B : list T) : Completion (list T * Z) :=
  match last_split A with
  | None => mret (A ++ B, minGallop)
  | Some (A', a) =>
      let dest := [a] in
      if len A' =? 0 then mret (A' ++ B ++ dest, minGallop)
      else if len B =? 1 then mret (B ++ A' ++ dest, minGallop)
      else MergeHigh_linear (length A' + length B) minGallop 0 0 A' B dest
  end.

Definition MergeAt_runs (minGallop : Z) (A B : list T) : Completion (list T * Z) :=
  match B with
  | [] => mret (A ++ B, minGallop)
  | keyRight :: _ =>
      k ← GallopRight A keyRight 0;
      let A' := from k A in
      if len A' =? 0 then mret (A ++ B, minGallop)
      else
        match last_split A' with
        | None => mret (A ++ B, minGallop)
        | Some (_, keyLeft) =>
            lengthB ← GallopLeft B keyLeft (len B - 1);
            if lengthB =? 0 then mret (A ++ B, minGallop)
            else
              let B' := upto lengthB B in
              '(merged, minGallop) ←
                (if len A' <=? lengthB
                 then MergeLow minGallop A' B'
                 else MergeHigh minGallop A' B');
              mret (upto k A ++ merged ++ from lengthB B, minGallop)
        end
  end.

Definition MergeAt (i : Z) (sortState : SortState) : Completion SortState :=
  let runs := pendingRuns sortState in
  match at_index runs i, at_index runs (i + 1) with
  | Some A, Some B =>
      '(merged, minGallop) ← MergeAt_runs (minGallop sortState) A B;
      mret {| pendingRuns := upto i runs ++ merged :: from (i + 2) runs;
              minGallop := minGallop |}
  | _, _ => mret sortState
  end.

Fixpoint MergeCollapse_loop (fuel : nat) (sortState : SortState)
    : Completion SortState :=
  match fuel with
  | O => mret sortState
  | S fuel' =>
      let runs := pendingRuns sortState in
      if 1 <? GetPendingRunsSize sortState then
        let n := GetPendingRunsSize sortState - 2 in
        if negb (RunInvariantEstablished runs (n + 1))
           || negb (RunInvariantEstablished runs n)
        then
          let n :=
            if GetPendingRunLength runs (n - 1) <? GetPendingRunLength runs (n + 1)
            then n - 1 else n in
          sortState ← MergeAt n sortState;
          MergeCollapse_loop fuel' sortState
        else if GetPendingRunLength runs n <=? GetPendingRunLength runs (n + 1)
        then sortState ← MergeAt n sortState; MergeCollapse_loop fuel' sortState
        else mret sortState
      else mret sortState
  end.

Definition MergeCollapse (sortState : SortState) : Completion SortState :=
  MergeCollapse_loop (length (pendingRuns sortState)) sortState.

Fixpoint MergeForceCollapse_loop (fuel : nat) (sortState : SortState)
    : Completion SortState :=
  match fuel with
  | O => mret sortState
  | S fuel' =>
      let runs := pendingRuns sortState in
      if 1 <? GetPendingRunsSize sortState then
        let n := GetPendingRunsSize sortState - 2 in
        let n :=
          if (0 <? n)
             && (GetPendingRunLength runs (n - 1) <? GetPendingRunLength runs (n + 1))
          then n - 1 else n in
        sortState ← MergeAt n sortState;
        MergeForceCollapse_loop fuel' sortState
      else mret sortState
  end.

Definition MergeForceCollapse (sortState : SortState) : Completion SortState :=
  MergeForceCollapse_loop (length (pendingRuns sortState)) sortState.

Definition next_run (minRunLength : Z) (remaining : list T)
    : Completion (Z * list T) :=
  '(currentRunLength, a) ← CountAndMakeRun remaining;
  if currentRunLength <? minRunLength then
    let forcedRunLength := Z.min minRunLength (len remaining) in
    sorted ← BinaryInsertionSort (upto forcedRunLength a) currentRunLength;
    mret (forcedRunLength, sorted ++ from forcedRunLength a)
  else mret (currentRunLength, a).

Fixpoint ArrayTimSortImpl_loop (fuel : nat) (minRunLength : Z)
    (sortState : SortState) (remaining : list T)
    : Completion (SortState * list T) :=
  match fuel with
  | O => mret (sortState, remaining)
  | S fuel' =>
      if len remaining =? 0 then mret (sortState, remaining)
      else
        '(currentRunLength, a) ← next_run minRunLength remaining;
        let sortState := PushRun sortState (upto currentRunLength a) in
        sortState ← MergeCollapse sortState;
        ArrayTimSortImpl_loop fuel' minRunLength sortState (from currentRunLength a)
  end.

Definition ArrayTimSortImpl (workArray : list T) : Completion (list T) :=
  if len workArray <? 2 then mret workArray
  else
    let minRunLength := ComputeMinRunLength (len workArray) in
    let initial := {| pendingRuns := []; minGallop := kMinGallopWins |} in
    '(sortState, remaining) ←
      ArrayTimSortImpl_loop (length workArray) minRunLength initial workArray;
    sortState ← MergeForceCollapse sortState;
    mret (concat (pendingRuns sortState) ++ remaining).

End ArraySort.

(** [Array.prototype.sort(comparefn)]: the sorted elements, or the error
    the comparator threw. *)
Definition ArrayPrototypeSort {T : Type} (comparefn : T -> T -> Completion Z)
    (elements : list T) : Completion (list T) :=
  ArrayTimSortImpl comparefn elements.

End Abrupt.

(** ** The program on the posts it receives at run time

    The declared type of a post is checked when the site is built, not
    when the function runs.  At run time [post.data.pubDate] is what the
    record holds: a [Date] (valid or not) or nothing at all
    ([undefined]), and a method call on [undefined] throws a
    [TypeError]. *)
Module Runtime.

Record BlogData := {
  title : string;
  description : string;
  pubDate : option Date;
  heroImage : option string;
  draft : option bool
}.

Record CollectionEntry := {
  id : string;
  slug : string;
  body : string;
  data : BlogData
}.

(** [date.getTime()] *)
Definition getTime_call (date : option Date) : Completion TimeValue :=
  match date with
  | Some d => Normal (getTime d)
  | None => Throw "TypeError"
  end.

(** [date1.getTime() < date2.getTime()]: the left operand is evaluated
    first. *)
Definition isDateBefore (date1 date2 : option Date) : Completion bool :=
  time1 ← getTime_call date1;
  time2 ← getTime_call date2;
  mret (number_lt time1 time2).

(** The callback given to [filter]; it reads [post.data.draft] only. *)
Definition filter_callback (env : Env) (post : CollectionEntry) : bool :=
  if PROD env then negb (ToBoolean (draft (data post)))
  else if showDraftPages env then true
  else negb (ToBoolean (draft (data post))).

(** The callback given to [sort]. *)
Definition sort_callback (post1 post2 : CollectionEntry) : Completion Z :=
  before ← isDateBefore (pubDate (data post1)) (pubDate (data post2));
  if (before : bool) then mret 1 else mret (-1).

(** [getPublishedAndSortedPosts(allPosts)]: the array it returns, or the
    error it throws. *)
Definition getPublishedAndSortedPosts (env : Env)
    (allPosts : list CollectionEntry) : Completion (list CollectionEntry) :=
  Abrupt.ArrayPrototypeSort sort_callback
    (ArrayPrototypeFilter (filter_callback env) allPosts).

(** The post has a [pubDate]. *)
Definition dated (post : CollectionEntry) : Prop := is_Some (pubDate (data post)).

(** The number the comparator returns on two posts that have a
    [pubDate]. *)
Definition order_of (post1 post2 : CollectionEntry) : Z :=
  match pubDate (data post1), pubDate (data post2) with
  | Some date1, Some date2 => if number_lt (getTime date1) (getTime date2) then 1 else -1
  | _, _ => 0
  end.

End Runtime.

(** A post of the declared type as the object it is at run time. *)
Definition at_run_time (post : CollectionEntry) : Runtime.CollectionEntry :=
  {| Runtime.id := id post; Runtime.slug := slug post; Runtime.body := body post;
     Runtime.data :=
       {| Runtime.title := title (data post);
          Runtime.description := description (data post);
          Runtime.pubDate := Some (pubDate (data post));
          Runtime.heroImage := heroImage (data post);
          Runtime.draft := draft (data post) |} |}.

(** A record without [pubDate]. *)
Definition without_pubDate (name : string) : Runtime.CollectionEntry :=
  {| Runtime.id := name; Runtime.slug := name; Runtime.body := "";
     Runtime.data :=
       {| Runtime.title := name; Runtime.description := "";
          Runtime.pubDate := None; Runtime.heroImage := None;
          Runtime.draft := None |} |}.

(** ** Vocabulary of the statements *)

#[global] Instance TimeValue_eq_dec : EqDecision TimeValue.
Proof. solve_decision. Defined.
#[global] Instance Date_eq_dec : EqDecision Date.
Proof. solve_decision. Defined.
#[global] Instance BlogData_eq_dec : EqDecision BlogData.
Proof. solve_decision. Defined.
#[global] Instance CollectionEntry_eq_dec : EqDecision CollectionEntry.
Proof. solve_decision. Defined.

(** How many times [post] occurs in [posts]. *)
Definition occurrences (post : CollectionEntry) (posts : list CollectionEntry) : nat :=
  length (filter (fun p => p = post) posts).

(** The posts that pass the draft filter. *)
Definition passing (env : Env) (posts : list CollectionEntry) : list CollectionEntry :=
  filter (fun post => filter_callback env post = true) posts.

(** The draft filter in the words of the specification. *)

(** [draft] defaults to false when absent. *)
Definition is_draft (post : CollectionEntry) : Prop := draft (data post) = Some true.

(** In production mode a post is kept only if [draft] is false;
    otherwise a post is kept if [draft] is false or if [showDraftPages]
    is true. *)
Definition kept_by_policy (env : Env) (post : CollectionEntry) : Prop :=
  if PROD env then ~ is_draft post
  else ~ is_draft post \/ showDraftPages env = true.

#[global] Instance is_draft_dec (post : CollectionEntry) : Decision (is_draft post).
Proof. unfold is_draft. apply _. Defined.

#[global] Instance kept_by_policy_dec (env : Env) (post : CollectionEntry) :
  Decision (kept_by_policy env post).
Proof. unfold kept_by_policy. destruct (PROD env); apply _. Defined.

(** [post1] is not earlier than [post2]: both have a time value and the
    first is at least the second. *)
Definition not_earlier (post1 post2 : CollectionEntry) : Prop :=
  exists t1 t2, getTime (pubDate (data post1)) = ms t1
    /\ getTime (pubDate (data post2)) = ms t2 /\ t2 <= t1.

(** The time values of the posts, in their order. *)
Definition timestamps (posts : list CollectionEntry) : list TimeValue :=
  map (fun post => getTime (pubDate (data post))) posts.

(** The position at which [post] first occurs in [posts]. *)
Fixpoint position (post : CollectionEntry) (posts : list CollectionEntry) : nat :=
  match posts with
  | [] => 0
  | p :: posts' => if decide (p = post) then 0 else S (position post posts')
  end.

(** [post1] stands in [posts] before [post2]. *)
Definition listed_before (posts : list CollectionEntry)
    (post1 post2 : CollectionEntry) : Prop :=
  exists i j, (i < j)%nat /\ posts !! i = Some post1 /\ posts !! j = Some post2.

(** The order in which the posts of [posts] leave the sort: the more
    recent first, and of two posts with the same time value the one that
    stands later in [posts] first. *)
Definition newest_first (posts : list CollectionEntry)
    (post1 post2 : CollectionEntry) : Prop :=
  not_earlier post1 post2
  /\ (getTime (pubDate (data post1)) = getTime (pubDate (data post2)) ->
      listed_before posts post2 post1).

(** The comparator of [sort] with a tie between two posts decided by
    their positions in [posts].  It is not part of the program: the sort
    with [sort_callback] is compared with the sort with this one. *)
Definition sort_callback_by_position (posts : list CollectionEntry)
    (post1 post2 : CollectionEntry) : Z :=
  if isDateBefore (pubDate (data post1)) (pubDate (data post2)) then 1
  else if decide (getTime (pubDate (data post1)) = getTime (pubDate (data post2))
                  /\ (position post1 posts < position post2 posts)%nat)
  then 1 else -1.

(** Sample posts. *)
Definition sample_post (name : string) (time : TimeValue) (isDraft : option bool)
    : CollectionEntry :=
  {| id := name; slug := name; body := "";
     data := {| title := name; description := ""; pubDate := {| getTime := time |};
                heroImage := None; draft := isDraft |} |}.

Definition production : Env := {| PROD := true; showDraftPages := false |}.
Definition preview : Env := {| PROD := false; showDraftPages := true |}.

(** 2021-01-01, 2021-06-01 (a draft) and 2021-12-01. *)
Definition january : CollectionEntry :=
  sample_post "january" (ms 1609459200000) (Some false).
Definition june : CollectionEntry :=
  sample_post "june" (ms 1622505600000) (Some true).
Definition december : CollectionEntry :=
  sample_post "december" (ms 1638316800000) None.
Definition three_posts : list CollectionEntry := [january; june; december].

(** Two posts published at the same instant, and a post whose date did
    not parse. *)
Definition twin1 : CollectionEntry := sample_post "twin1" (ms 1609459200000) None.
Definition twin2 : CollectionEntry := sample_post "twin2" (ms 1609459200000) None.
Definition undated : CollectionEntry := sample_post "undated" NaN None.

(** * Facts about the engine's sort *)

Module V8Facts.
Import V8.

Section Ranges.
Context {X : Type}.
Implicit Types (a : list X) (n i : Z).

Lemma upto_from n a : upto n a ++ from n a = a.
Proof. apply take_drop. Qed.

Lemma len_nil : len (@nil X) = 0.
Proof. reflexivity. Qed.

Lemma len_cons x a : len (x :: a) = len a + 1.
Proof. unfold len. simpl. lia. Qed.

Lemma len_app a1 a2 : len (a1 ++ a2) = len a1 + len a2.
Proof. unfold len. rewrite length_app. lia. Qed.

Lemma len_snoc a x : len (a ++ [x]) = len a + 1.
Proof. unfold len. rewrite length_app. simpl. lia. Qed.

Lemma len_nonneg a : 0 <= len a.
Proof. unfold len. lia. Qed.

Lemma len_zero a : len a = 0 -> a = [].
Proof. unfold len. destruct a; simpl; intros; [done | lia]. Qed.

Lemma len_upto n a : 0 <= n <= len a -> len (upto n a) = n.
Proof. unfold len, upto. intros. rewrite length_take. lia. Qed.

Lemma len_from n a : 0 <= n <= len a -> len (from n a) = len a - n.
Proof. unfold len, from. intros. rewrite length_drop. lia. Qed.

Lemma at_index_Some a i x :
  at_index a i = Some x <-> 0 <= i /\ a !! Z.to_nat i = Some x.
Proof.
  unfold at_index. destruct (Z.ltb_spec i 0).
  - split; [done | intros [? _]; lia].
  - split; [intros; split; [lia | done] | intros [_ ?]; done].
Qed.

Lemma at_index_range a i x : at_index a i = Some x -> 0 <= i < len a.
Proof.
  rewrite at_index_Some. intros [? H]. apply lookup_lt_Some in H.
  unfold len. lia.
Qed.

Lemma at_index_is_Some a i : 0 <= i < len a -> is_Some (at_index a i).
Proof.
  unfold at_index, len. intros. destruct (Z.ltb_spec i 0); [lia|].
  apply lookup_lt_is_Some. lia.
Qed.

Lemma at_index_split a i x :
  at_index a i = Some x -> a = upto i a ++ x :: from (i + 1) a.
Proof.
  rewrite at_index_Some. intros [? H]. unfold upto, from.
  replace (Z.to_nat (i + 1)) with (S (Z.to_nat i)) by lia.
  symmetry. by apply take_drop_middle.
Qed.

Lemma at_index_elem_of a i x : at_index a i = Some x -> x ∈ a.
Proof. rewrite at_index_Some. intros [_ H]. by eapply list_elem_of_lookup_2. Qed.

Lemma last_split_Some a a' x : last_split a = Some (a', x) -> a = a' ++ [x].
Proof.
  unfold last_split. destruct (reverse a) as [|y front] eqn:E; [done|].
  intros [= <- <-]. rewrite <- (reverse_involutive a), E.
  by rewrite reverse_cons.
Qed.

Lemma last_split_None a : last_split a = None -> a = [].
Proof.
  unfold last_split. destruct (reverse a) as [|y front] eqn:E; [|done].
  intros _. rewrite <- (reverse_involutive a), E. done.
Qed.

Lemma last_split_snoc a x : last_split (a ++ [x]) = Some (a, x).
Proof. unfold last_split. by rewrite reverse_snoc, reverse_involutive. Qed.

Lemma from_from n m a : 0 <= n -> 0 <= m -> from m (from n a) = from (n + m) a.
Proof.
  intros. unfold from. rewrite drop_drop. f_equal. lia.
Qed.
Lemma from_at_index a i x : at_index a i = Some x -> from i a = x :: from (i + 1) a.
Proof.
  rewrite at_index_Some. intros [? H]. unfold from.
  replace (Z.to_nat (i + 1)) with (S (Z.to_nat i)) by lia.
  by apply drop_S.
Qed.

Lemma at_index_split2 a i x y :
  at_index a i = Some x -> at_index a (i + 1) = Some y ->
  a = upto i a ++ x :: y :: from (i + 2) a.
Proof.
  intros Hx Hy. rewrite (at_index_split a i x Hx) at 1.
  rewrite (from_at_index a (i + 1) y Hy).
  by replace (i + 1 + 1) with (i + 2) by lia.
Qed.

Lemma at_index_None a i : 0 <= i -> at_index a i = None -> len a <= i.
Proof.
  unfold at_index, len. intros Hi. destruct (Z.ltb_spec i 0); [lia|].
  intros Hnone%lookup_ge_None. lia.
Qed.

Lemma at_index_upto a n i : 0 <= i < n -> at_index (upto n a) i = at_index a i.
Proof.
  unfold at_index, upto. intros. destruct (i <? 0); [done|].
  apply lookup_take_lt. lia.
Qed.

Lemma upto_all a n : len a <= n -> upto n a = a.
Proof. unfold len, upto. intros. apply take_ge. lia. Qed.

Lemma from_all a n : len a <= n -> from n a = [].
Proof. unfold len, from. intros. apply drop_ge. lia. Qed.

Lemma upto_upto a n m : n <= m -> upto n (upto m a) = upto n a.
Proof. unfold upto. intros. rewrite take_take. f_equal. lia. Qed.

Lemma upto_app_len a1 a2 n : n = len a1 -> upto n (a1 ++ a2) = a1.
Proof. unfold upto, len. intros ->. apply take_app_length'. lia. Qed.

Lemma from_app_len a1 a2 n : n = len a1 -> from n (a1 ++ a2) = a2.
Proof. unfold from, len. intros ->. apply drop_app_length'. lia. Qed.

Lemma len_Permutation a1 a2 : a1 ≡ₚ a2 -> len a1 = len a2.
Proof. unfold len. by intros ->. Qed.

End Ranges.

(** ** The sort rearranges: its result is a permutation of its input

    This holds for every comparator, also one that answers without any
    order behind it. *)
Section Permutation.
Context {T : Type} (Compare : T -> T -> Z).
Implicit Types (a A B dest : list T).

Lemma shiftr_1 (x : Z) : Z.shiftr x 1 = x / 2.
Proof. by rewrite Z.shiftr_div_pow2. Qed.

Lemma shiftl_1 (x : Z) : Z.shiftl x 1 = 2 * x.
Proof. rewrite Z.shiftl_mul_pow2 by lia. lia. Qed.

Lemma midpoint (lo hi : Z) :
  lo < hi -> lo <= lo + Z.shiftr (hi - lo) 1 < hi.
Proof.
  intros. rewrite shiftr_1.
  pose proof (Z.div_pos (hi - lo) 2). pose proof (Z.div_lt (hi - lo) 2). lia.
Qed.

Lemma ReverseRange_0 a n : ReverseRange a 0 n = reverse (upto n a) ++ from n a.
Proof.
  unfold ReverseRange. rewrite Z.sub_0_r. unfold upto at 1, from at 1.
  simpl. by rewrite drop_0.
Qed.

Lemma ReverseRange_Permutation a n : ReverseRange a 0 n ≡ₚ a.
Proof.
  rewrite ReverseRange_0, reverse_Permutation. by rewrite upto_from.
Qed.

Lemma CountAndMakeRun_scan_bounds isDescending previous rest runLength :
  runLength <= CountAndMakeRun_scan Compare isDescending previous rest runLength
    <= runLength + len rest.
Proof.
  revert previous runLength.
  induction rest as [|x rest IH]; intros previous runLength; simpl.
  - rewrite len_nil. lia.
  - rewrite len_cons.
    destruct (if isDescending then _ else _); [pose proof (len_nonneg rest); lia|].
    specialize (IH x (runLength + 1)). lia.
Qed.

Lemma CountAndMakeRun_length a :
  a <> [] -> 1 <= (CountAndMakeRun Compare a).1 <= len a.
Proof.
  destruct a as [|x [|y rest]]; [done| |]; intros _; simpl.
  - rewrite len_cons, len_nil. lia.
  - pose proof (CountAndMakeRun_scan_bounds (Compare y x <? 0) y rest 2).
    rewrite !len_cons. lia.
Qed.

Lemma CountAndMakeRun_Permutation a : (CountAndMakeRun Compare a).2 ≡ₚ a.
Proof.
  destruct a as [|x [|y rest]]; [done..|]. simpl.
  destruct (Compare y x <? 0); [|done]. apply ReverseRange_Permutation.
Qed.

Lemma BinaryInsertionSort_search_bounds fuel a pivot left right :
  left <= right ->
  left <= BinaryInsertionSort_search Compare fuel a pivot left right <= right.
Proof.
  revert left right. induction fuel as [|fuel IH]; intros left right Hle; simpl.
  { lia. }
  destruct (Z.ltb_spec left right); [|lia].
  pose proof (midpoint left right). set (mid := left + _) in *.
  destruct (at_index a mid); [|lia].
  destruct (_ <? 0).
  - specialize (IH left mid). lia.
  - specialize (IH (mid + 1) right). lia.
Qed.

(** The slide written with the run [upto start a] that receives the
    pivot. *)
Lemma slide_in_split a left start pivot :
  0 <= left <= start ->
  slide_in a left start pivot
  = upto left (upto start a) ++ pivot :: from left (upto start a)
      ++ from (start + 1) a.
Proof.
  intros H. unfold slide_in, upto, from.
  rewrite take_take, Nat.min_l by lia.
  rewrite take_drop_commute.
  by replace (Z.to_nat left + Z.to_nat (start - left))%nat
    with (Z.to_nat start) by lia.
Qed.

Lemma slide_in_Permutation a left start pivot :
  at_index a start = Some pivot -> 0 <= left <= start ->
  slide_in a left start pivot ≡ₚ a.
Proof.
  intros Hp H. rewrite slide_in_split by done.
  trans ((upto left (upto start a) ++ from left (upto start a))
           ++ pivot :: from (start + 1) a); [solve_Permutation|].
  by rewrite upto_from, <- at_index_split.
Qed.

Lemma BinaryInsertionSort_loop_Permutation todo a start :
  0 <= start -> BinaryInsertionSort_loop Compare todo a start ≡ₚ a.
Proof.
  revert a start. induction todo as [|todo IH]; intros a start Hs; simpl; [done|].
  destruct (at_index a start) as [pivot|] eqn:Hp; [|done].
  rewrite IH by lia. apply slide_in_Permutation; [done|].
  apply BinaryInsertionSort_search_bounds. lia.
Qed.

Lemma BinaryInsertionSort_Permutation a startArg :
  0 <= startArg -> BinaryInsertionSort Compare a startArg ≡ₚ a.
Proof.
  intros. unfold BinaryInsertionSort.
  apply BinaryInsertionSort_loop_Permutation. destruct (_ =? 0); lia.
Qed.
(** Replaces the two parts [upto k a] and [from k a] of a range by
    variables, and the range by their concatenation. *)
Ltac cut_range k a X Y :=
  let E := fresh "E" in
  generalize (upto_from k a); generalize (upto k a) (from k a);
  intros X Y E; rewrite <- ?E; clear E.

Ltac use_last_split :=
  repeat match goal with
  | H : last_split _ = Some _ |- _ => apply last_split_Some in H; subst
  | H : last_split _ = None |- _ => apply last_split_None in H; subst
  end.

Lemma MergeLow_loops_Permutation fuel :
  (forall minGallop nofWinsA nofWinsB dest A B,
     (MergeLow_linear Compare fuel minGallop nofWinsA nofWinsB dest A B).1
     ≡ₚ dest ++ A ++ B)
  /\ (forall minGallop dest A B,
     (MergeLow_gallop Compare fuel minGallop dest A B).1 ≡ₚ dest ++ A ++ B).
Proof.
  induction fuel as [|fuel [IHl IHg]]; split; intros; simpl.
  - done.
  - done.
  - destruct A as [|a A'], B as [|b B']; try done.
    repeat case_match; simpl; rewrite ?IHl, ?IHg; solve_Permutation.
  - destruct B as [|b B']; [done|].
    cut_range (GallopRight Compare A b 0) A X Y.
    destruct (_ && _); [simpl; solve_Permutation|].
    destruct (_ && _); [simpl; solve_Permutation|].
    destruct (len B' =? 0); [simpl; solve_Permutation|].
    destruct Y as [|a A']; [simpl; solve_Permutation|].
    cut_range (GallopLeft Compare B' a 0) B' X' Y'.
    repeat case_match; simpl; rewrite ?IHl, ?IHg; solve_Permutation.
Qed.

Lemma MergeLow_Permutation minGallop A B :
  (MergeLow Compare minGallop A B).1 ≡ₚ A ++ B.
Proof.
  unfold MergeLow. destruct B as [|b B']; [done|].
  repeat case_match; simpl;
    rewrite ?(proj1 (MergeLow_loops_Permutation _)); solve_Permutation.
Qed.

Lemma MergeHigh_loops_Permutation fuel :
  (forall minGallop nofWinsA nofWinsB A B dest,
     (MergeHigh_linear Compare fuel minGallop nofWinsA nofWinsB A B dest).1
     ≡ₚ A ++ B ++ dest)
  /\ (forall minGallop A B dest,
     (MergeHigh_gallop Compare fuel minGallop A B dest).1 ≡ₚ A ++ B ++ dest).
Proof.
  induction fuel as [|fuel [IHl IHg]]; split; intros; simpl.
  - done.
  - done.
  - destruct (last_split A) as [[A' a]|] eqn:EA; [|done].
    destruct (last_split B) as [[B' b]|] eqn:EB; [|done].
    use_last_split.
    repeat case_match; simpl; rewrite ?IHl, ?IHg; solve_Permutation.
  - destruct (last_split B) as [[B' b]|] eqn:EB; [|done]. use_last_split.
    cut_range (GallopRight Compare A b (len A - 1)) A X Y.
    destruct (_ && _); [simpl; solve_Permutation|].
    destruct (len B' =? 1); [simpl; solve_Permutation|].
    destruct (last_split X) as [[A' a]|] eqn:EA; [|simpl; solve_Permutation].
    use_last_split.
    cut_range (GallopLeft Compare B' a (len B' - 1)) B' X' Y'.
    repeat case_match; simpl; rewrite ?IHl, ?IHg; solve_Permutation.
Qed.

Lemma MergeHigh_Permutation minGallop A B :
  (MergeHigh Compare minGallop A B).1 ≡ₚ A ++ B.
Proof.
  unfold MergeHigh. destruct (last_split A) as [[A' a]|] eqn:EA; [|done].
  use_last_split.
  repeat case_match; simpl;
    rewrite ?(proj1 (MergeHigh_loops_Permutation _)); solve_Permutation.
Qed.

Lemma MergeAt_runs_Permutation minGallop A B :
  (MergeAt_runs Compare minGallop A B).1 ≡ₚ A ++ B.
Proof.
  unfold MergeAt_runs. destruct B as [|keyRight B']; [done|].
  set (B := keyRight :: B'). clearbody B.
  cut_range (GallopRight Compare A keyRight 0) A X Y.
  destruct (len _ =? 0); [done|].
  destruct (last_split _) as [[? keyLeft]|]; [|done].
  destruct (_ =? 0); [done|].
  cut_range (GallopLeft Compare B keyLeft (len B - 1)) B X' Y'.
  destruct (_ <=? _).
  - pose proof (MergeLow_Permutation minGallop Y X') as HP.
    destruct (MergeLow _ _ _ _) as [merged mg]. simpl in *. rewrite HP.
    solve_Permutation.
  - pose proof (MergeHigh_Permutation minGallop Y X') as HP.
    destruct (MergeHigh _ _ _ _) as [merged mg]. simpl in *. rewrite HP.
    solve_Permutation.
Qed.

Lemma MergeAt_Permutation i sortState :
  concat (pendingRuns (MergeAt Compare i sortState))
  ≡ₚ concat (pendingRuns sortState).
Proof.
  unfold MergeAt.
  destruct (at_index _ i) as [A|] eqn:HA; [|done].
  destruct (at_index _ (i + 1)) as [B|] eqn:HB; [|done].
  pose proof (MergeAt_runs_Permutation (minGallop sortState) A B) as HP.
  destruct (MergeAt_runs _ _ _ _) as [merged mg]. simpl in *.
  rewrite (at_index_split2 _ i A B HA HB) at 3.
  rewrite !concat_app. simpl. rewrite HP. solve_Permutation.
Qed.

Lemma MergeCollapse_loop_Permutation fuel sortState :
  concat (pendingRuns (MergeCollapse_loop Compare fuel sortState))
  ≡ₚ concat (pendingRuns sortState).
Proof.
  revert sortState. induction fuel as [|fuel IH]; intros; simpl; [done|].
  repeat case_match; rewrite ?IH, ?MergeAt_Permutation; done.
Qed.

Lemma MergeForceCollapse_loop_Permutation fuel sortState :
  concat (pendingRuns (MergeForceCollapse_loop Compare fuel sortState))
  ≡ₚ concat (pendingRuns sortState).
Proof.
  revert sortState. induction fuel as [|fuel IH]; intros; simpl; [done|].
  repeat case_match; rewrite ?IH, ?MergeAt_Permutation; done.
Qed.

Lemma next_run_Permutation minRunLength remaining :
  remaining <> [] -> (next_run Compare minRunLength remaining).2 ≡ₚ remaining.
Proof.
  intros Hne. unfold next_run.
  pose proof (CountAndMakeRun_Permutation remaining) as HP.
  pose proof (CountAndMakeRun_length remaining Hne) as HL.
  destruct (CountAndMakeRun _ _) as [currentRunLength a]. simpl in *.
  destruct (_ <? _); simpl; [|done].
  rewrite BinaryInsertionSort_Permutation by lia. by rewrite upto_from.
Qed.

Lemma next_run_length minRunLength remaining :
  remaining <> [] -> 1 <= (next_run Compare minRunLength remaining).1 <= len remaining.
Proof.
  intros Hne. unfold next_run.
  pose proof (CountAndMakeRun_length remaining Hne) as HL.
  destruct (CountAndMakeRun _ _) as [currentRunLength a]. simpl in *.
  destruct (Z.ltb_spec currentRunLength minRunLength); simpl; lia.
Qed.

Lemma ArrayTimSortImpl_loop_unfold fuel minRunLength sortState remaining :
  ArrayTimSortImpl_loop Compare (S fuel) minRunLength sortState remaining
  = if len remaining =? 0 then (sortState, remaining)
    else
      let '(currentRunLength, a) := next_run Compare minRunLength remaining in
      ArrayTimSortImpl_loop Compare fuel minRunLength
        (MergeCollapse Compare (PushRun sortState (upto currentRunLength a)))
        (from currentRunLength a).
Proof.
  simpl. unfold next_run. destruct (len remaining =? 0); [done|].
  destruct (CountAndMakeRun _ _) as [currentRunLength a].
  by destruct (_ <? _).
Qed.

Lemma ArrayTimSortImpl_loop_Permutation fuel minRunLength sortState remaining :
  let result :=
    ArrayTimSortImpl_loop Compare fuel minRunLength sortState remaining in
  concat (pendingRuns result.1) ++ result.2
  ≡ₚ concat (pendingRuns sortState) ++ remaining.
Proof.
  revert sortState remaining.
  induction fuel as [|fuel IH]; intros; [done|]. subst result.
  rewrite ArrayTimSortImpl_loop_unfold.
  destruct (Z.eqb_spec (len remaining) 0) as [|Hne]; [done|].
  assert (remaining <> []) as Hne' by (by intros ->).
  pose proof (next_run_Permutation minRunLength remaining Hne') as HP.
  destruct (next_run _ _ _) as [currentRunLength a]. simpl in HP.
  rewrite IH. unfold MergeCollapse. rewrite MergeCollapse_loop_Permutation.
  simpl. rewrite concat_app. simpl. rewrite app_nil_r, <- app_assoc, upto_from.
  by rewrite HP.
Qed.

Theorem ArrayTimSortImpl_Permutation workArray :
  ArrayTimSortImpl Compare workArray ≡ₚ workArray.
Proof.
  unfold ArrayTimSortImpl. destruct (_ <? 2); [done|].
  pose proof (ArrayTimSortImpl_loop_Permutation (length workArray)
    (ComputeMinRunLength (len workArray))
    {| pendingRuns := []; minGallop := kMinGallopWins |} workArray) as HP.
  destruct (ArrayTimSortImpl_loop _ _ _ _ _) as [sortState remaining].
  unfold MergeForceCollapse. rewrite MergeForceCollapse_loop_Permutation.
  by rewrite HP.
Qed.
End Permutation.

(** ** The loops stop by themselves

    The loops of the source are written here with a count of steps they
    may take.  Each lemma says that the count does not matter once it
    covers what the loop has left to do, which is the case for the counts
    the algorithm hands over: the loop ends because its own test fails. *)
Section Fuel.
Context {T : Type} (Compare : T -> T -> Z).
Implicit Types (a A B dest : list T).

Ltac tests_to_Z :=
  repeat match goal with
  | H : (_ =? _) = true |- _ => apply Z.eqb_eq in H
  | H : (_ =? _) = false |- _ => apply Z.eqb_neq in H
  | H : (_ <? _) = true |- _ => apply Z.ltb_lt in H
  | H : (_ <? _) = false |- _ => apply Z.ltb_ge in H
  | H : (_ <=? _) = true |- _ => apply Z.leb_le in H
  | H : (_ <=? _) = false |- _ => apply Z.leb_gt in H
  | H : (_ && _) = true |- _ => apply andb_true_iff in H as [? ?]
  | H : (_ && _) = false |- _ => apply andb_false_iff in H as [?|?]
  end.

Lemma ComputeMinRunLength_loop_fuel fuel1 fuel2 n r :
  0 <= n <= Z.of_nat fuel1 -> n <= Z.of_nat fuel2 ->
  ComputeMinRunLength_loop fuel1 n r = ComputeMinRunLength_loop fuel2 n r.
Proof.
  revert fuel2 n r. induction fuel1 as [|fuel1 IH]; intros [|fuel2] n r H1 H2;
    simpl; try done.
  - destruct (Z.leb_spec 64 n); [lia | done].
  - destruct (Z.leb_spec 64 n); [lia | done].
  - destruct (Z.leb_spec 64 n); [|done].
    rewrite shiftr_1. pose proof (Z.div_lt n 2). pose proof (Z.div_pos n 2).
    apply IH; lia.
Qed.

Lemma BinaryInsertionSort_search_fuel fuel1 fuel2 a pivot left right :
  right - left <= Z.of_nat fuel1 -> right - left <= Z.of_nat fuel2 ->
  BinaryInsertionSort_search Compare fuel1 a pivot left right
  = BinaryInsertionSort_search Compare fuel2 a pivot left right.
Proof.
  revert fuel2 left right.
  induction fuel1 as [|fuel1 IH]; intros [|fuel2] left right H1 H2;
    simpl; try done.
  - destruct (Z.ltb_spec left right); [lia | done].
  - destruct (Z.ltb_spec left right); [lia | done].
  - destruct (Z.ltb_spec left right) as [Hlt|]; [|done].
    pose proof (midpoint left right Hlt). set (mid := left + _) in *.
    repeat case_match; try done; apply IH; lia.
Qed.

Lemma Gallop_extend_fuel fuel1 fuel2 stop maxOfs lastOfs offset :
  0 < offset ->
  maxOfs - offset <= Z.of_nat fuel1 -> maxOfs - offset <= Z.of_nat fuel2 ->
  Gallop_extend fuel1 stop maxOfs lastOfs offset
  = Gallop_extend fuel2 stop maxOfs lastOfs offset.
Proof.
  revert fuel2 lastOfs offset.
  induction fuel1 as [|fuel1 IH]; intros [|fuel2] lastOfs offset H0 H1 H2;
    simpl; try done.
  - destruct (Z.ltb_spec offset maxOfs); [lia | done].
  - destruct (Z.ltb_spec offset maxOfs); [lia | done].
  - destruct (Z.ltb_spec offset maxOfs); [|done].
    destruct (stop offset); [done|]. rewrite shiftl_1. apply IH; lia.
Qed.

Lemma Gallop_bisect_fuel fuel1 fuel2 side lastOfs offset :
  offset - lastOfs <= Z.of_nat fuel1 -> offset - lastOfs <= Z.of_nat fuel2 ->
  Gallop_bisect fuel1 side lastOfs offset = Gallop_bisect fuel2 side lastOfs offset.
Proof.
  revert fuel2 lastOfs offset.
  induction fuel1 as [|fuel1 IH]; intros [|fuel2] lastOfs offset H1 H2;
    simpl; try done.
  - destruct (Z.ltb_spec lastOfs offset); [lia | done].
  - destruct (Z.ltb_spec lastOfs offset); [lia | done].
  - destruct (Z.ltb_spec lastOfs offset) as [Hlt|]; [|done].
    pose proof (midpoint lastOfs offset Hlt). set (m := lastOfs + _) in *.
    destruct (side m); apply IH; lia.
Qed.

Lemma len_from_le n a : len (from n a) <= len a.
Proof. unfold len, from. rewrite length_drop. lia. Qed.

Lemma len_upto_le n a : len (upto n a) <= len a.
Proof. unfold len, upto. rewrite length_take. lia. Qed.

Lemma len_from_all n a : n <= 0 -> len (from n a) = len a.
Proof. unfold len, from. intros. rewrite length_drop. lia. Qed.

Lemma len_upto_all n a : len a <= n -> len (upto n a) = len a.
Proof. intros. by rewrite upto_all. Qed.

Lemma MergeLow_loops_fuel fuel1 :
  forall fuel2,
  (forall minGallop nofWinsA nofWinsB dest A B,
     1 < len A -> 0 < len B ->
     len A + len B <= Z.of_nat fuel1 -> len A + len B <= Z.of_nat fuel2 ->
     MergeLow_linear Compare fuel1 minGallop nofWinsA nofWinsB dest A B
     = MergeLow_linear Compare fuel2 minGallop nofWinsA nofWinsB dest A B)
  /\ (forall minGallop dest A B,
     1 < len A -> 0 < len B ->
     len A + len B <= Z.of_nat fuel1 -> len A + len B <= Z.of_nat fuel2 ->
     MergeLow_gallop Compare fuel1 minGallop dest A B
     = MergeLow_gallop Compare fuel2 minGallop dest A B).
Proof.
  induction fuel1 as [|fuel1 IH]; intros fuel2; split;
    intros until B; intros HlenA HlenB H1 H2; try lia.
  - destruct fuel2 as [|fuel2]; [lia|]. destruct (IH fuel2) as [IHl IHg].
    destruct A as [|x A']; [rewrite len_nil in *; lia|].
    destruct B as [|y B']; [rewrite len_nil in *; lia|].
    rewrite !len_cons in *.
    pose proof (len_nonneg A'). pose proof (len_nonneg B').
    simpl. repeat case_match; try done; tests_to_Z;
      (apply IHl || apply IHg); rewrite ?len_cons; lia.
  - destruct fuel2 as [|fuel2]; [lia|]. destruct (IH fuel2) as [IHl IHg].
    destruct B as [|y B']; [rewrite len_nil in *; lia|].
    rewrite !len_cons in *. pose proof (len_nonneg B').
    simpl. set (k := GallopRight Compare A y 0).
    pose proof (len_from_le k A) as HY1. pose proof (len_from_all k A) as HY2.
    generalize dependent (from k A). intros Y HY1 HY2.
    generalize (upto k A). intros X.
    destruct Y as [|x A']; [repeat case_match; done|].
    rewrite !len_cons in *. pose proof (len_nonneg A').
    set (k2 := GallopLeft Compare B' x 0).
    pose proof (len_from_le k2 B') as HZ1. pose proof (len_from_all k2 B') as HZ2.
    generalize dependent (from k2 B'). intros Y2 HZ1 HZ2.
    generalize (upto k2 B'). intros X2.
    pose proof (len_nonneg Y2).
    repeat case_match; try done; tests_to_Z;
      (apply IHl || apply IHg); lia.
Qed.

Lemma MergeHigh_loops_fuel fuel1 :
  forall fuel2,
  (forall minGallop nofWinsA nofWinsB A B dest,
     0 < len A -> 1 < len B ->
     len A + len B <= Z.of_nat fuel1 -> len A + len B <= Z.of_nat fuel2 ->
     MergeHigh_linear Compare fuel1 minGallop nofWinsA nofWinsB A B dest
     = MergeHigh_linear Compare fuel2 minGallop nofWinsA nofWinsB A B dest)
  /\ (forall minGallop A B dest,
     0 < len A -> 1 < len B ->
     len A + len B <= Z.of_nat fuel1 -> len A + len B <= Z.of_nat fuel2 ->
     MergeHigh_gallop Compare fuel1 minGallop A B dest
     = MergeHigh_gallop Compare fuel2 minGallop A B dest).
Proof.
  induction fuel1 as [|fuel1 IH]; intros fuel2; split;
    intros until dest; intros HlenA HlenB H1 H2; try lia.
  - destruct fuel2 as [|fuel2]; [lia|]. destruct (IH fuel2) as [IHl IHg].
    simpl.
    destruct (last_split A) as [[A' x]|] eqn:EA; [|done].
    destruct (last_split B) as [[B' y]|] eqn:EB; [|done].
    apply last_split_Some in EA as ->. apply last_split_Some in EB as ->.
    rewrite !len_snoc in *.
    pose proof (len_nonneg A'). pose proof (len_nonneg B').
    repeat case_match; try done; tests_to_Z;
      (apply IHl || apply IHg); rewrite ?len_snoc; lia.
  - destruct fuel2 as [|fuel2]; [lia|]. destruct (IH fuel2) as [IHl IHg].
    simpl.
    destruct (last_split B) as [[B' y]|] eqn:EB; [|done].
    apply last_split_Some in EB as ->.
    rewrite !len_snoc in *. pose proof (len_nonneg B').
    set (k := GallopRight Compare A y (len A - 1)).
    pose proof (len_upto_le k A) as HX1. pose proof (len_upto_all k A) as HX2.
    generalize dependent (upto k A). intros X HX1 HX2.
    generalize (from k A). intros Y.
    destruct (last_split X) as [[A' x]|] eqn:EX;
      [|repeat case_match; done].
    apply last_split_Some in EX as ->.
    rewrite !len_snoc in *. pose proof (len_nonneg A').
    set (k2 := GallopLeft Compare B' x (len B' - 1)).
    pose proof (len_upto_le k2 B') as HZ1. pose proof (len_upto_all k2 B') as HZ2.
    generalize dependent (upto k2 B'). intros X2 HZ1 HZ2.
    generalize (from k2 B'). intros Y2.
    pose proof (len_nonneg X2).
    repeat case_match; try done; tests_to_Z;
      (apply IHl || apply IHg); lia.
Qed.

Lemma MergeAt_size i sortState :
  0 <= i -> i + 1 < GetPendingRunsSize sortState ->
  GetPendingRunsSize (MergeAt Compare i sortState)
  = GetPendingRunsSize sortState - 1.
Proof.
  intros Hi Hsize. unfold MergeAt, GetPendingRunsSize in *.
  destruct (at_index_is_Some (pendingRuns sortState) i) as [A ->]; [lia|].
  destruct (at_index_is_Some (pendingRuns sortState) (i + 1)) as [B ->]; [lia|].
  destruct (MergeAt_runs _ _ _ _) as [merged mg]. simpl.
  rewrite len_app, len_cons, len_upto, len_from; lia.
Qed.

Lemma MergeForceCollapse_loop_size fuel sortState :
  GetPendingRunsSize sortState <= Z.of_nat fuel + 1 ->
  GetPendingRunsSize (MergeForceCollapse_loop Compare fuel sortState) <= 1.
Proof.
  revert sortState. induction fuel as [|fuel IH]; intros sortState Hsize; simpl.
  { lia. }
  destruct (Z.ltb_spec 1 (GetPendingRunsSize sortState)); [|lia].
  apply IH. rewrite MergeAt_size; [lia|..].
  all: destruct (_ && _) eqn:E; try lia.
  all: apply andb_true_iff in E as [?%Z.ltb_lt _]; lia.
Qed.

Lemma RunInvariantEstablished_small (runs : list (list T)) n :
  n < 2 -> RunInvariantEstablished runs n = true.
Proof. unfold RunInvariantEstablished. intros. by destruct (Z.ltb_spec n 2); [|lia]. Qed.

Lemma MergeCollapse_loop_fuel fuel1 fuel2 sortState :
  GetPendingRunsSize sortState <= Z.of_nat fuel1 + 1 ->
  GetPendingRunsSize sortState <= Z.of_nat fuel2 + 1 ->
  MergeCollapse_loop Compare fuel1 sortState
  = MergeCollapse_loop Compare fuel2 sortState.
Proof.
  revert fuel2 sortState.
  induction fuel1 as [|fuel1 IH]; intros [|fuel2] sortState H1 H2; simpl; try done.
  - destruct (Z.ltb_spec 1 (GetPendingRunsSize sortState)); [lia | done].
  - destruct (Z.ltb_spec 1 (GetPendingRunsSize sortState)); [lia | done].
  - destruct (Z.ltb_spec 1 (GetPendingRunsSize sortState)) as [Hsize|]; [|done].
    set (n := GetPendingRunsSize sortState - 2) in *.
    destruct (negb _ || negb _) eqn:Hinv.
    + assert (1 <= n) as Hn.
      { destruct (Z.ltb_spec n 1); [|done].
        rewrite !RunInvariantEstablished_small in Hinv by lia. done. }
      destruct (_ <? _); apply IH; rewrite MergeAt_size; lia.
    + destruct (_ <=? _); [|done]. apply IH; rewrite MergeAt_size; lia.
Qed.

Lemma MergeForceCollapse_loop_fuel fuel1 fuel2 sortState :
  GetPendingRunsSize sortState <= Z.of_nat fuel1 + 1 ->
  GetPendingRunsSize sortState <= Z.of_nat fuel2 + 1 ->
  MergeForceCollapse_loop Compare fuel1 sortState
  = MergeForceCollapse_loop Compare fuel2 sortState.
Proof.
  revert fuel2 sortState.
  induction fuel1 as [|fuel1 IH]; intros [|fuel2] sortState H1 H2; simpl; try done.
  - destruct (Z.ltb_spec 1 (GetPendingRunsSize sortState)); [lia | done].
  - destruct (Z.ltb_spec 1 (GetPendingRunsSize sortState)); [lia | done].
  - destruct (Z.ltb_spec 1 (GetPendingRunsSize sortState)) as [Hsize|]; [|done].
    destruct (_ && _) eqn:E.
    + apply andb_true_iff in E as [?%Z.ltb_lt _].
      apply IH; rewrite MergeAt_size; lia.
    + apply IH; rewrite MergeAt_size; lia.
Qed.

Lemma ArrayTimSortImpl_loop_fuel fuel1 fuel2 minRunLength sortState remaining :
  len remaining <= Z.of_nat fuel1 -> len remaining <= Z.of_nat fuel2 ->
  ArrayTimSortImpl_loop Compare fuel1 minRunLength sortState remaining
  = ArrayTimSortImpl_loop Compare fuel2 minRunLength sortState remaining.
Proof.
  revert fuel2 sortState remaining.
  induction fuel1 as [|fuel1 IH]; intros [|fuel2] sortState remaining H1 H2;
    try done.
  - rewrite ArrayTimSortImpl_loop_unfold. simpl.
    pose proof (len_nonneg remaining).
    destruct (Z.eqb_spec (len remaining) 0); [done | lia].
  - rewrite ArrayTimSortImpl_loop_unfold. simpl.
    pose proof (len_nonneg remaining).
    destruct (Z.eqb_spec (len remaining) 0); [done | lia].
  - rewrite !ArrayTimSortImpl_loop_unfold.
    destruct (Z.eqb_spec (len remaining) 0) as [|Hne]; [done|].
    assert (remaining <> []) as Hne' by (by intros ->).
    pose proof (next_run_Permutation Compare minRunLength remaining Hne') as Hperm.
    pose proof (next_run_length Compare minRunLength remaining Hne') as Hlen.
    destruct (next_run _ _ _) as [currentRunLength a]. simpl in *.
    apply len_Permutation in Hperm.
    apply IH; rewrite len_from; lia.
Qed.

(** When the driver's loop ends, nothing of the work array is left to cut
    into runs. *)
Lemma ArrayTimSortImpl_loop_consumes fuel minRunLength sortState remaining :
  len remaining <= Z.of_nat fuel ->
  (ArrayTimSortImpl_loop Compare fuel minRunLength sortState remaining).2 = [].
Proof.
  revert sortState remaining.
  induction fuel as [|fuel IH]; intros sortState remaining Hfuel.
  { simpl. apply len_zero. pose proof (len_nonneg remaining). lia. }
  rewrite ArrayTimSortImpl_loop_unfold.
  destruct (Z.eqb_spec (len remaining) 0) as [|Hne]; [by apply len_zero|].
  assert (remaining <> []) as Hne' by (by intros ->).
  pose proof (next_run_Permutation Compare minRunLength remaining Hne') as Hperm.
  pose proof (next_run_length Compare minRunLength remaining Hne') as Hlen.
  destruct (next_run _ _ _) as [currentRunLength a]. simpl in *.
  apply len_Permutation in Hperm.
  apply IH. rewrite len_from; lia.
Qed.
End Fuel.

(** ** The sort puts in order

    When the comparator's answers on the elements of the array are those
    of a total preorder, the result is a run. *)
Section Sorted.
Context {T : Type} (Compare : T -> T -> Z) (P : T -> Prop).
Implicit Types (a A B dest : list T) (x y z key : T).

Hypothesis total : forall x y, P x -> P y -> Compare x y < 0 \/ Compare y x < 0.
Hypothesis transitive : forall x y z, P x -> P y -> P z ->
  Compare x y < 0 -> Compare y z < 0 -> Compare x z < 0.

Local Abbreviation before := (before Compare P).
Local Abbreviation run := (run Compare P).
Local Abbreviation bracket := (bracket Compare P).

#[local] Instance before_Transitive : Transitive before.
Proof. intros x y z (? & ? & ?) (? & ? & ?). unfold V8.before. eauto 10. Qed.

Lemma before_refl x : P x -> before x x.
Proof. intros H. unfold V8.before. destruct (total x x H H); auto. Qed.

Lemma before_yes x y : P x -> P y -> (Compare x y <? 0) = true -> before x y.
Proof. intros ?? H%Z.ltb_lt. by unfold V8.before. Qed.

Lemma before_no x y : P x -> P y -> (Compare x y <? 0) = false -> before y x.
Proof.
  intros Hx Hy H%Z.ltb_ge. unfold V8.before.
  destruct (total x y Hx Hy); [lia | auto].
Qed.

Lemma before_no' x y : P x -> P y -> (0 <=? Compare x y) = true -> before y x.
Proof. intros ?? H%Z.leb_le. apply before_no; [done..|]. by apply Z.ltb_ge. Qed.

Lemma before_yes' x y : P x -> P y -> (0 <=? Compare x y) = false -> before x y.
Proof. intros ?? H%Z.leb_gt. apply before_yes; [done..|]. by apply Z.ltb_lt. Qed.

Lemma run_nil : run [].
Proof. split; constructor. Qed.

Lemma run_singleton x : P x -> run [x].
Proof. split; repeat constructor; done. Qed.

Lemma run_app a1 a2 :
  run (a1 ++ a2) <->
  run a1 /\ run a2 /\ (forall x y, x ∈ a1 -> y ∈ a2 -> before x y).
Proof.
  unfold V8.run. rewrite Forall_app, StronglySorted_app. naive_solver.
Qed.

Lemma run_cons x a : run (x :: a) <-> P x /\ Forall (before x) a /\ run a.
Proof.
  unfold V8.run. rewrite Forall_cons, StronglySorted_cons. naive_solver.
Qed.

Lemma run_P a : run a -> Forall P a.
Proof. by intros [? _]. Qed.

Lemma run_upto n a : run a -> run (upto n a).
Proof. rewrite <- (upto_from n a) at 1. rewrite run_app. naive_solver. Qed.

Lemma run_from n a : run a -> run (from n a).
Proof. rewrite <- (upto_from n a) at 1. rewrite run_app. naive_solver. Qed.

Lemma run_upto_from n a x y : run a -> x ∈ upto n a -> y ∈ from n a -> before x y.
Proof. rewrite <- (upto_from n a) at 1. rewrite run_app. naive_solver. Qed.

Lemma run_Permutation_P a a' : a ≡ₚ a' -> Forall P a -> Forall P a'.
Proof. by intros ->. Qed.

(** In a run, the element at an offset stands after all before it and
    before all from it on. *)
Lemma run_at_index a i x :
  run a -> at_index a i = Some x ->
  Forall (fun e => before e x) (upto (i + 1) a) /\ Forall (before x) (from i a).
Proof.
  intros Hrun Hx.
  assert (P x) as HPx.
  { apply run_P in Hrun. rewrite Forall_forall in Hrun.
    eapply Hrun, at_index_elem_of, Hx. }
  rewrite (from_at_index a i x Hx).
  assert (upto (i + 1) a = upto i a ++ [x]) as ->.
  { apply at_index_Some in Hx as [? Hx]. unfold upto.
    replace (Z.to_nat (i + 1)) with (S (Z.to_nat i)) by lia.
    by apply take_S_r. }
  rewrite (at_index_split a i x Hx) in Hrun.
  apply run_app in Hrun as (_ & [_ [Hx2 _]%StronglySorted_cons] & H3).
  split.
  - apply Forall_app. split; [|by repeat constructor; apply before_refl].
    apply Forall_forall. intros e He. apply H3; [done | left].
  - constructor; [by apply before_refl | done].
Qed.

Lemma upto_cons n x a : 1 <= n -> upto n (x :: a) = x :: upto (n - 1) a.
Proof.
  intros. unfold upto.
  by replace (Z.to_nat n) with (S (Z.to_nat (n - 1))) by lia.
Qed.

Lemma upto_0 a : upto 0 a = [].
Proof. by destruct a. Qed.

Lemma Sorted_run a : Forall P a -> Sorted before a -> run a.
Proof.
  intros. split; [done|].
  apply Sorted.Sorted_StronglySorted; [apply before_Transitive | done].
Qed.

(** *** Run detection *)

Lemma CountAndMakeRun_scan_ascending rest previous runLength :
  P previous -> Forall P rest ->
  Sorted before
    (previous :: upto (CountAndMakeRun_scan Compare false previous rest runLength
                       - runLength) rest).
Proof.
  revert previous runLength.
  induction rest as [|current rest IH]; intros previous runLength Hp Hrest; simpl.
  { rewrite Z.sub_diag. by repeat constructor. }
  apply Forall_cons in Hrest as [Hc Hrest].
  destruct (Compare current previous <? 0) eqn:Horder.
  { rewrite Z.sub_diag, upto_0. by repeat constructor. }
  pose proof (CountAndMakeRun_scan_bounds Compare false current rest (runLength + 1)).
  rewrite upto_cons by lia.
  replace (_ - runLength - 1) with
    (CountAndMakeRun_scan Compare false current rest (runLength + 1)
     - (runLength + 1)) by lia.
  constructor; [by apply IH|]. constructor. by apply before_no.
Qed.

Lemma CountAndMakeRun_scan_descending rest previous runLength :
  P previous -> Forall P rest ->
  Sorted (flip before)
    (previous :: upto (CountAndMakeRun_scan Compare true previous rest runLength
                       - runLength) rest).
Proof.
  revert previous runLength.
  induction rest as [|current rest IH]; intros previous runLength Hp Hrest; simpl.
  { rewrite Z.sub_diag. by repeat constructor. }
  apply Forall_cons in Hrest as [Hc Hrest].
  destruct (0 <=? Compare current previous) eqn:Horder.
  { rewrite Z.sub_diag, upto_0. by repeat constructor. }
  pose proof (CountAndMakeRun_scan_bounds Compare true current rest (runLength + 1)).
  rewrite upto_cons by lia.
  replace (_ - runLength - 1) with
    (CountAndMakeRun_scan Compare true current rest (runLength + 1)
     - (runLength + 1)) by lia.
  constructor; [by apply IH|]. constructor. by apply before_yes'.
Qed.

Lemma CountAndMakeRun_run a :
  Forall P a ->
  run (upto (CountAndMakeRun Compare a).1 (CountAndMakeRun Compare a).2).
Proof.
  intros HP.
  assert (Forall P (upto (CountAndMakeRun Compare a).1 (CountAndMakeRun Compare a).2)) as HP'.
  { apply Forall_take. by rewrite CountAndMakeRun_Permutation. }
  apply Sorted_run; [done|]. clear HP'.
  destruct a as [|x [|y rest]]; [by constructor | by repeat constructor |].
  apply Forall_cons in HP as [Hx [Hy Hrest]%Forall_cons]. simpl.
  pose proof (CountAndMakeRun_scan_bounds Compare (Compare y x <? 0) y rest 2) as Hb.
  pose proof (len_nonneg rest).
  set (r := CountAndMakeRun_scan _ _ _ _ _) in *.
  assert (upto r (x :: y :: rest) = x :: y :: upto (r - 2) rest) as Hcut.
  { rewrite !upto_cons by lia. do 3 f_equal. lia. }
  destruct (Compare y x <? 0) eqn:Horder; simpl.
  - rewrite ReverseRange_0, Hcut.
    unfold upto at 1. rewrite take_app_length'.
    2:{ rewrite length_reverse. simpl. unfold upto. rewrite length_take.
        unfold len in *. lia. }
    change before with (flip (flip before)). apply Sorted_reverse.
    constructor; [by apply CountAndMakeRun_scan_descending|].
    constructor. by apply before_yes.
  - rewrite Hcut.
    constructor; [by apply CountAndMakeRun_scan_ascending|].
    constructor. by apply before_no.
Qed.

(** *** Searching a run *)

Lemma bracket_raise key a lo hi i x :
  run a -> bracket key a lo hi -> at_index a i = Some x -> before x key ->
  i < hi -> bracket key a (i + 1) hi.
Proof.
  intros Hrun (? & ? & _ & Hhi) Hx Hbefore ?.
  pose proof (at_index_range _ _ _ Hx).
  repeat split; [lia..| |done].
  destruct (run_at_index a i x Hrun Hx) as [Hlow _].
  eapply Forall_impl; [exact Hlow|]. intros e He. by trans x.
Qed.

Lemma bracket_lower key a lo hi i x :
  run a -> bracket key a lo hi -> at_index a i = Some x -> before key x ->
  lo <= i -> bracket key a lo i.
Proof.
  intros Hrun (? & ? & Hlo & _) Hx Hbefore ?.
  pose proof (at_index_range _ _ _ Hx).
  repeat split; [lia..|done|].
  destruct (run_at_index a i x Hrun Hx) as [_ Hhigh].
  eapply Forall_impl; [exact Hhigh|]. intros e He. by trans x.
Qed.

Lemma bracket_whole key a : bracket key a 0 (len a).
Proof.
  pose proof (len_nonneg a).
  repeat split; [lia..| |]; [rewrite upto_0 | rewrite from_all by lia];
    constructor.
Qed.

Lemma bracket_insert key a k :
  run a -> P key -> bracket key a k k -> run (upto k a ++ key :: from k a).
Proof.
  intros Hrun HP (_ & _ & Hlo & Hhi).
  apply run_app. split; [by apply run_upto|]. split.
  - apply run_cons. split; [done|]. split; [done | by apply run_from].
  - intros x y Hx [->|Hy]%elem_of_cons.
    + rewrite Forall_forall in Hlo. by apply Hlo.
    + by eapply run_upto_from.
Qed.

(** *** Binary insertion *)

Lemma BinaryInsertionSort_search_bracket fuel a start pivot left right :
  run (upto start a) -> P pivot -> 0 <= start <= len a ->
  bracket pivot (upto start a) left right ->
  right - left <= Z.of_nat fuel ->
  let found := BinaryInsertionSort_search Compare fuel a pivot left right in
  bracket pivot (upto start a) found found.
Proof.
  intros Hrun HP Hstart. revert left right.
  induction fuel as [|fuel IH]; intros left right Hb Hfuel; simpl.
  { destruct Hb as (? & ? & ? & ?).
    replace right with left in * by lia. repeat split; (done || lia). }
  assert (len (upto start a) = start) as Hlen by (apply len_upto; lia).
  destruct (Z.ltb_spec left right) as [Hlt|Hge].
  2:{ destruct Hb as (? & ? & ? & ?).
      replace right with left in * by lia. repeat split; (done || lia). }
  pose proof (midpoint left right Hlt). set (mid := left + _) in *.
  assert (0 <= mid < start) as Hmid by (destruct Hb as (? & ? & _); lia).
  rewrite <- (at_index_upto a start mid Hmid).
  destruct (at_index_is_Some (upto start a) mid) as [m Hm]; [lia|].
  rewrite Hm.
  assert (P m).
  { apply run_P in Hrun. rewrite Forall_forall in Hrun.
    eapply Hrun, at_index_elem_of, Hm. }
  destruct (Compare pivot m <? 0) eqn:Horder.
  - apply IH; [|lia]. eapply bracket_lower; eauto using before_yes.
    destruct Hb as (? & _). lia.
  - apply IH; [|lia]. eapply bracket_raise; eauto using before_no. lia.
Qed.

Lemma BinaryInsertionSort_loop_run todo a start :
  0 <= start -> len a - start <= Z.of_nat todo ->
  Forall P a -> run (upto start a) ->
  run (BinaryInsertionSort_loop Compare todo a start).
Proof.
  revert a start.
  induction todo as [|todo IH]; intros a start Hstart Htodo HP Hrun; simpl.
  { by rewrite upto_all in Hrun by lia. }
  destruct (at_index a start) as [pivot|] eqn:Hpivot.
  2:{ apply at_index_None in Hpivot; [|done]. by rewrite upto_all in Hrun. }
  pose proof (at_index_range _ _ _ Hpivot).
  assert (P pivot) as HPp.
  { rewrite Forall_forall in HP. eapply HP, at_index_elem_of, Hpivot. }
  set (left := BinaryInsertionSort_search _ _ _ _ _ _).
  assert (bracket pivot (upto start a) left left) as Hb.
  { apply BinaryInsertionSort_search_bracket; [done|done|lia| |lia].
    replace start with (len (upto start a)) at 2 by (apply len_upto; lia).
    apply bracket_whole. }
  assert (0 <= left <= start) as Hleft.
  { destruct Hb as (? & ? & _). rewrite len_upto in * by lia. lia. }
  pose proof (slide_in_Permutation a left start pivot Hpivot Hleft) as Hperm.
  apply IH.
  - lia.
  - rewrite (len_Permutation _ _ Hperm). lia.
  - by rewrite Hperm.
  - rewrite slide_in_split by done.
    set (pre := upto start a) in *. set (post := from (start + 1) a).
    replace (upto left pre ++ pivot :: from left pre ++ post)
      with ((upto left pre ++ pivot :: from left pre) ++ post)
      by (by rewrite <- app_assoc).
    rewrite upto_app_len; [by apply bracket_insert|].
    assert (len pre = start) by (apply len_upto; lia).
    rewrite len_app, len_cons, len_upto, len_from; lia.
Qed.

Lemma BinaryInsertionSort_run a startArg :
  0 <= startArg -> Forall P a -> run (upto startArg a) ->
  run (BinaryInsertionSort Compare a startArg).
Proof.
  intros Hs HP Hrun. unfold BinaryInsertionSort.
  apply BinaryInsertionSort_loop_run; [destruct (_ =? 0); lia | lia | done |].
  destruct (Z.eqb_spec startArg 0) as [->|]; [|done]. simpl.
  destruct a as [|x a]; [apply run_nil|].
  rewrite upto_cons, upto_0 by lia. apply run_singleton.
  by apply Forall_cons in HP as [? _].
Qed.

(** *** Galloping *)

Lemma Gallop_extend_spec fuel stop maxOfs lastOfs offset :
  0 <= lastOfs < offset -> lastOfs < maxOfs ->
  maxOfs - offset <= Z.of_nat fuel ->
  let result := Gallop_extend fuel stop maxOfs lastOfs offset in
  lastOfs <= result.1 < result.2 /\ result.1 < maxOfs
  /\ (result.1 = lastOfs \/ stop result.1 = false)
  /\ (result.2 < maxOfs -> stop result.2 = true).
Proof.
  revert lastOfs offset.
  induction fuel as [|fuel IH]; intros lastOfs offset H1 H2 H3; simpl.
  { repeat split; (lia || auto). }
  destruct (Z.ltb_spec offset maxOfs); [|simpl; repeat split; (lia || auto)].
  destruct (stop offset) eqn:Hstop; [simpl; repeat split; (lia || auto)|].
  rewrite shiftl_1.
  destruct (IH offset (2 * offset + 1)) as (? & ? & Hl & ?); [lia..|].
  repeat split; [lia..| |done].
  right. by destruct Hl as [->|].
Qed.

Section Gallop.
Variables (a : list T) (key : T).
Hypothesis run_a : run a.
Hypothesis P_key : P key.

Lemma element_P i e : at_index a i = Some e -> P e.
Proof.
  intros He. pose proof (run_P a run_a) as HP. rewrite Forall_forall in HP.
  eapply HP, at_index_elem_of, He.
Qed.

Lemma Gallop_bisect_bracket fuel (side : Z -> bool) lo hi :
  (forall i e, at_index a i = Some e ->
     if side i then before e key else before key e) ->
  bracket key a lo hi -> hi - lo <= Z.of_nat fuel ->
  let k := Gallop_bisect fuel side lo hi in bracket key a k k.
Proof.
  intros Hside. revert lo hi.
  induction fuel as [|fuel IH]; intros lo hi Hb Hfuel; simpl.
  { destruct Hb as (? & ? & ? & ?).
    replace lo with hi in * by lia. repeat split; (done || lia). }
  destruct (Z.ltb_spec lo hi) as [Hlt|Hge].
  2:{ destruct Hb as (? & ? & ? & ?).
      replace lo with hi in * by lia. repeat split; (done || lia). }
  pose proof (midpoint lo hi Hlt). set (m := lo + _) in *.
  destruct (at_index_is_Some a m) as [e He].
  { destruct Hb as (? & ? & _). lia. }
  specialize (Hside m e He).
  destruct (side m).
  - apply IH; [|lia]. eapply bracket_raise; eauto. lia.
  - apply IH; [|lia]. eapply bracket_lower; eauto. lia.
Qed.

Lemma Gallop_extend_right fuel (stop : Z -> bool) hint h :
  at_index a hint = Some h -> before h key ->
  (forall ofs e, at_index a (hint + ofs) = Some e ->
     if stop ofs then before key e else before e key) ->
  len a - hint - 1 <= Z.of_nat fuel ->
  let maxOfs := len a - hint in
  let result := Gallop_extend fuel stop maxOfs 0 1 in
  let offset := if maxOfs <? result.2 then maxOfs else result.2 in
  bracket key a (result.1 + hint + 1) (offset + hint).
Proof.
  intros Hh Hbefore Hstop Hfuel maxOfs result offset.
  pose proof (at_index_range _ _ _ Hh) as Hhint.
  destruct (Gallop_extend_spec fuel stop maxOfs 0 1) as (Hl & Hlm & Hlast & Hnext);
    [unfold maxOfs; lia..|].
  fold result in Hl, Hlm, Hlast, Hnext. destruct result as [l o]. simpl in *.
  assert (exists e, at_index a (hint + l) = Some e /\ before e key) as (e & He & Hbe).
  { destruct Hlast as [->|Hns].
    - exists h. by rewrite Z.add_0_r.
    - destruct (at_index_is_Some a (hint + l)) as [e He]; [unfold maxOfs in *; lia|].
      exists e. split; [done|]. specialize (Hstop l e He). by rewrite Hns in Hstop. }
  assert (bracket key a (l + hint + 1) (len a)) as Hb.
  { replace (l + hint + 1) with (hint + l + 1) by lia.
    eapply bracket_raise; eauto using bracket_whole. unfold maxOfs in *. lia. }
  subst offset. destruct (Z.ltb_spec maxOfs o).
  { by replace (maxOfs + hint) with (len a) by (unfold maxOfs; lia). }
  destruct (Z.eq_dec o maxOfs) as [->|].
  { by replace (maxOfs + hint) with (len a) by (unfold maxOfs; lia). }
  destruct (at_index_is_Some a (hint + o)) as [e' He']; [unfold maxOfs in *; lia|].
  specialize (Hstop o e' He'). rewrite Hnext in Hstop by lia.
  replace (o + hint) with (hint + o) by lia.
  eapply bracket_lower; eauto. lia.
Qed.

Lemma Gallop_extend_left fuel (stop : Z -> bool) hint h :
  at_index a hint = Some h -> before key h ->
  (forall ofs e, at_index a (hint - ofs) = Some e ->
     if stop ofs then before e key else before key e) ->
  hint <= Z.of_nat fuel ->
  let maxOfs := hint + 1 in
  let result := Gallop_extend fuel stop maxOfs 0 1 in
  let offset := if maxOfs <? result.2 then maxOfs else result.2 in
  bracket key a (hint - offset + 1) (hint - result.1).
Proof.
  intros Hh Hbefore Hstop Hfuel maxOfs result offset.
  pose proof (at_index_range _ _ _ Hh) as Hhint.
  destruct (Gallop_extend_spec fuel stop maxOfs 0 1) as (Hl & Hlm & Hlast & Hnext);
    [unfold maxOfs; lia..|].
  fold result in Hl, Hlm, Hlast, Hnext. destruct result as [l o]. simpl in *.
  assert (exists e, at_index a (hint - l) = Some e /\ before key e) as (e & He & Hbe).
  { destruct Hlast as [->|Hns].
    - exists h. by rewrite Z.sub_0_r.
    - destruct (at_index_is_Some a (hint - l)) as [e He]; [unfold maxOfs in *; lia|].
      exists e. split; [done|]. specialize (Hstop l e He). by rewrite Hns in Hstop. }
  assert (bracket key a 0 (hint - l)) as Hb.
  { eapply bracket_lower; eauto using bracket_whole. unfold maxOfs in *. lia. }
  subst offset. destruct (Z.ltb_spec maxOfs o).
  { by replace (hint - maxOfs + 1) with 0 by (unfold maxOfs; lia). }
  destruct (Z.eq_dec o maxOfs) as [->|].
  { by replace (hint - maxOfs + 1) with 0 by (unfold maxOfs; lia). }
  destruct (at_index_is_Some a (hint - o)) as [e' He']; [unfold maxOfs in *; lia|].
  specialize (Hstop o e' He'). rewrite Hnext in Hstop by lia.
  eapply bracket_raise; eauto. lia.
Qed.

Lemma bracket_width lo hi : bracket key a lo hi -> hi - lo <= Z.of_nat (Z.to_nat (len a)).
Proof. intros (? & ? & _). lia. Qed.

Lemma GallopLeft_bracket hint :
  0 <= hint < len a ->
  let k := GallopLeft Compare a key hint in bracket key a k k.
Proof.
  intros Hhint. unfold GallopLeft. cbv zeta.
  destruct (at_index_is_Some a hint Hhint) as [h Hh].
  assert (forall i e, at_index a i = Some e ->
            if GallopLeft_order Compare a key i <? 0
            then before e key else before key e) as Hside.
  { intros i e He. unfold GallopLeft_order. rewrite He.
    destruct (_ <? 0) eqn:E; [apply before_yes | apply before_no];
      eauto using element_P. }
  pose proof (Hside hint h Hh) as Hhint_side.
  destruct (GallopLeft_order Compare a key hint <? 0).
  - pose proof (Gallop_extend_right (Z.to_nat (len a))
      (fun ofs => 0 <=? GallopLeft_order Compare a key (hint + ofs))
      hint h Hh Hhint_side) as Hb.
    cbv beta zeta in Hb. revert Hb.
    destruct (Gallop_extend _ _ _ _ _) as [l o]. simpl. intros Hb.
    apply Gallop_bisect_bracket; [done| |apply bracket_width].
    all: apply Hb; [|lia].
    all: intros ofs e He; unfold GallopLeft_order; rewrite He.
    all: destruct (0 <=? _) eqn:E; [apply before_no' | apply before_yes'];
      eauto using element_P.
  - pose proof (Gallop_extend_left (Z.to_nat (len a))
      (fun ofs => GallopLeft_order Compare a key (hint - ofs) <? 0)
      hint h Hh Hhint_side) as Hb.
    cbv beta zeta in Hb. revert Hb.
    destruct (Gallop_extend _ _ _ _ _) as [l o]. simpl. intros Hb.
    apply Gallop_bisect_bracket; [done| |apply bracket_width].
    all: apply Hb; [|lia].
    all: intros ofs e He; by apply Hside.
Qed.

Lemma GallopRight_bracket hint :
  0 <= hint < len a ->
  let k := GallopRight Compare a key hint in bracket key a k k.
Proof.
  intros Hhint. unfold GallopRight. cbv zeta.
  destruct (at_index_is_Some a hint Hhint) as [h Hh].
  assert (forall i e, at_index a i = Some e ->
            if 0 <=? GallopRight_order Compare a key i
            then before e key else before key e) as Hside.
  { intros i e He. unfold GallopRight_order. rewrite He.
    destruct (0 <=? _) eqn:E; [apply before_no' | apply before_yes'];
      eauto using element_P. }
  assert (forall i e, at_index a i = Some e ->
            if GallopRight_order Compare a key i <? 0
            then before key e else before e key) as Hside'.
  { intros i e He. unfold GallopRight_order. rewrite He.
    destruct (_ <? 0) eqn:E; [apply before_yes | apply before_no];
      eauto using element_P. }
  pose proof (Hside' hint h Hh) as Hhint_side.
  destruct (GallopRight_order Compare a key hint <? 0).
  - pose proof (Gallop_extend_left (Z.to_nat (len a))
      (fun ofs => 0 <=? GallopRight_order Compare a key (hint - ofs))
      hint h Hh Hhint_side) as Hb.
    cbv beta zeta in Hb. revert Hb.
    destruct (Gallop_extend _ _ _ _ _) as [l o]. simpl. intros Hb.
    apply Gallop_bisect_bracket; [done| |apply bracket_width].
    all: apply Hb; [|lia].
    all: intros ofs e He; by apply Hside.
  - pose proof (Gallop_extend_right (Z.to_nat (len a))
      (fun ofs => GallopRight_order Compare a key (hint + ofs) <? 0)
      hint h Hh Hhint_side) as Hb.
    cbv beta zeta in Hb. revert Hb.
    destruct (Gallop_extend _ _ _ _ _) as [l o]. simpl. intros Hb.
    apply Gallop_bisect_bracket; [done| |apply bracket_width].
    all: apply Hb; [|lia].
    all: intros ofs e He; by apply Hside'.
Qed.
End Gallop.

(** *** Merging from the left *)

Local Abbreviation merge_low_inv := (merge_low_inv Compare P).
Local Abbreviation merge_high_inv := (merge_high_inv Compare P).

Lemma run_head_before x y a : run (x :: a) -> before y x -> Forall (before y) (x :: a).
Proof.
  intros (? & Hx & _)%run_cons Hy. constructor; [done|].
  eapply Forall_impl; [exact Hx|]. intros z ?. by trans x.
Qed.

Lemma run_head_all x a : run (x :: a) -> Forall (before x) (x :: a).
Proof.
  intros Hrun. apply run_head_before; [done|].
  apply before_refl. by apply run_cons in Hrun as (? & _).
Qed.

Lemma run_last_before x y a : run (a ++ [x]) -> before x y -> Forall (fun e => before e y) (a ++ [x]).
Proof.
  intros (_ & _ & Hx)%run_app Hy. apply Forall_app. split.
  - apply Forall_forall. intros e He. trans x; [|done]. apply Hx; [done | left].
  - by apply Forall_singleton.
Qed.

Lemma run_last_all x a : run (a ++ [x]) -> Forall (fun e => before e x) (a ++ [x]).
Proof.
  intros Hrun. apply run_last_before; [done|].
  apply before_refl. apply run_P in Hrun.
  rewrite Forall_app, Forall_singleton in Hrun. tauto.
Qed.

Lemma merge_low_move_A dest X Y B :
  merge_low_inv dest (X ++ Y) B ->
  (forall x y, x ∈ X -> y ∈ B -> before x y) ->
  merge_low_inv (dest ++ X) Y B.
Proof.
  intros (HA & HB & Hlast) HX. split; [by rewrite <- app_assoc|]. split.
  - rewrite app_assoc in HA. apply run_app in HA as (HdX & _ & _).
    apply run_app in HB as (_ & HB & Hcross).
    apply run_app. split; [done|]. split; [done|].
    intros x b [?|?]%elem_of_app ?; eauto.
  - intros a Ha. apply Hlast. rewrite last_app, Ha. done.
Qed.

Lemma merge_low_move_B dest A X Y :
  merge_low_inv dest A (X ++ Y) ->
  (forall x y, x ∈ X -> y ∈ A -> before x y) ->
  merge_low_inv (dest ++ X) A Y.
Proof.
  intros (HA & HB & Hlast) HX. split; [|split].
  - rewrite app_assoc in HB. apply run_app in HB as (HdX & _ & _).
    apply run_app in HA as (_ & HA & Hcross).
    apply run_app. split; [done|]. split; [done|].
    intros x b [?|?]%elem_of_app ?; eauto.
  - by rewrite <- app_assoc.
  - intros a Ha. specialize (Hlast a Ha). by apply Forall_app in Hlast as [_ ?].
Qed.

Lemma merge_low_Succeed dest A B :
  merge_low_inv dest A B -> A = [] \/ B = [] -> run (dest ++ A ++ B).
Proof.
  intros (HA & HB & _) [->| ->]; [done | by rewrite app_nil_r].
Qed.

Lemma merge_low_CopyB dest A B :
  merge_low_inv dest A B -> len A = 1 -> run (dest ++ B ++ A).
Proof.
  intros (HA & HB & Hlast) Hlen.
  destruct A as [|a [|? ?]]; [done| |rewrite !len_cons in Hlen; pose proof (len_nonneg l); lia].
  specialize (Hlast a eq_refl). rewrite app_assoc.
  apply run_app in HA as (_ & Ha & Hcross).
  apply run_app. split; [done|]. split; [done|].
  intros x y [?|Hx]%elem_of_app Hy.
  - by apply Hcross.
  - apply list_elem_of_singleton in Hy as ->. rewrite Forall_forall in Hlast. auto.
Qed.

Lemma merge_low_inv_run_A dest A B : merge_low_inv dest A B -> run A.
Proof. intros (HA & _). by apply run_app in HA as (_ & ? & _). Qed.

Lemma merge_low_inv_run_B dest A B : merge_low_inv dest A B -> run B.
Proof. intros (_ & HB & _). by apply run_app in HB as (_ & ? & _). Qed.

Lemma merge_low_inv_P dest A B x :
  merge_low_inv dest A B -> x ∈ A \/ x ∈ B -> P x.
Proof.
  intros (HA & HB & _) Hx.
  apply run_P in HA, HB. rewrite Forall_forall in HA, HB.
  destruct Hx; [apply HA | apply HB]; apply elem_of_app; by right.
Qed.

Ltac low_Succeed :=
  simpl;
  match goal with
  | H : merge_low_inv ?d ?A ?B |- _ =>
      apply (merge_low_Succeed d A B H);
      solve [ left; (done || by apply len_zero)
            | right; (done || by apply len_zero) ]
  end.

Ltac low_CopyB :=
  simpl;
  match goal with
  | H : merge_low_inv ?d ?A ?B |- _ =>
      apply (merge_low_CopyB d A B H); (done || lia)
  end.

Lemma MergeLow_loops_run fuel :
  (forall minGallop nofWinsA nofWinsB dest A B,
     merge_low_inv dest A B -> 1 < len A -> 0 < len B ->
     len A + len B <= Z.of_nat fuel ->
     run (MergeLow_linear Compare fuel minGallop nofWinsA nofWinsB dest A B).1)
  /\ (forall minGallop dest A B,
     merge_low_inv dest A B -> 1 < len A -> 0 < len B ->
     len A + len B <= Z.of_nat fuel ->
     run (MergeLow_gallop Compare fuel minGallop dest A B).1).
Proof.
  induction fuel as [|fuel [IHl IHg]]; split;
    intros until B; intros Hinv HlenA HlenB Hfuel; try lia.
  - (* one element at a time *)
    destruct A as [|x A']; [rewrite len_nil in *; lia|].
    destruct B as [|y B']; [rewrite len_nil in *; lia|].
    rewrite !len_cons in *.
    pose proof (len_nonneg A'). pose proof (len_nonneg B').
    pose proof (merge_low_inv_run_A _ _ _ Hinv) as HrA.
    pose proof (merge_low_inv_run_B _ _ _ Hinv) as HrB.
    assert (P x) by (eapply merge_low_inv_P; [done | left; left]).
    assert (P y) by (eapply merge_low_inv_P; [done | right; left]).
    simpl. destruct (Compare y x <? 0) eqn:Horder.
    + assert (merge_low_inv (dest ++ [y]) (x :: A') B') as Hinv'.
      { apply (merge_low_move_B dest (x :: A') [y] B'); [done|].
        intros ? e ->%list_elem_of_singleton He.
        pose proof (run_head_before x y A' HrA) as HF.
        rewrite Forall_forall in HF. apply HF; [|done]. by apply before_yes. }
      clear Hinv.
      destruct (Z.eqb_spec (len B') 0); [low_Succeed|].
      destruct (_ <=? _); [apply IHg | apply IHl];
        rewrite ?len_cons; (done || lia).
    + assert (merge_low_inv (dest ++ [x]) A' (y :: B')) as Hinv'.
      { apply (merge_low_move_A dest [x] A' (y :: B')); [done|].
        intros ? e ->%list_elem_of_singleton He.
        pose proof (run_head_before y x B' HrB) as HF.
        rewrite Forall_forall in HF. apply HF; [|done]. by apply before_no. }
      clear Hinv.
      destruct (Z.eqb_spec (len A') 1); [low_CopyB|].
      destruct (_ <=? _); [apply IHg | apply IHl];
        rewrite ?len_cons; (done || lia).
  - (* galloping *)
    destruct B as [|y B']; [rewrite len_nil in *; lia|].
    rewrite !len_cons in *. pose proof (len_nonneg B').
    pose proof (merge_low_inv_run_A _ _ _ Hinv) as HrA.
    pose proof (merge_low_inv_run_B _ _ _ Hinv) as HrB.
    assert (P y) by (eapply merge_low_inv_P; [done | right; left]).
    simpl. set (k := GallopRight Compare A y 0).
    destruct (GallopRight_bracket A y HrA ltac:(done) 0 ltac:(lia))
      as (Hk0 & Hk1 & HkL & HkH).
    fold k in Hk0, Hk1, HkL, HkH.
    pose proof (upto_from k A) as EA.
    pose proof (len_upto k A ltac:(lia)) as HlenX.
    pose proof (len_from k A ltac:(lia)) as HlenY.
    set (X := upto k A) in *. set (Y := from k A) in *.
    assert (merge_low_inv (dest ++ X) Y (y :: B')) as Hinv1.
    { apply merge_low_move_A; [by rewrite EA|].
      intros x e Hx He. trans y.
      - rewrite Forall_forall in HkL. by apply HkL.
      - pose proof (run_head_all y B' HrB) as HF.
        rewrite Forall_forall in HF. by apply HF. }
    clear Hinv.
    assert (merge_low_inv ((dest ++ X) ++ [y]) Y B') as Hinv2.
    { apply (merge_low_move_B (dest ++ X) Y [y] B'); [done|].
      intros ? e ->%list_elem_of_singleton He.
      rewrite Forall_forall in HkH. by apply HkH. }
    destruct (Z.ltb_spec 0 k) as [Hkpos|Hkzero];
      destruct (Z.eqb_spec (len Y) 1) as [HY1|HY1]; simpl;
      try low_CopyB.
    all: destruct (Z.eqb_spec (len Y) 0) as [HY0|HY0]; simpl;
      try (clear Hinv2; low_Succeed); try lia.
    all: clear Hinv1.
    all: destruct (Z.eqb_spec (len B') 0); [low_Succeed|].
    all: destruct Y as [|x A'] eqn:EY; [low_Succeed|].
    all: rewrite len_cons in *; pose proof (len_nonneg A').
    all: pose proof (merge_low_inv_run_A _ _ _ Hinv2) as HrY.
    all: pose proof (merge_low_inv_run_B _ _ _ Hinv2) as HrB'.
    all: assert (P x) by (eapply merge_low_inv_P; [exact Hinv2 | left; left]).
    all: set (k2 := GallopLeft Compare B' x 0).
    all: destruct (GallopLeft_bracket B' x HrB' ltac:(done) 0 ltac:(lia))
      as (Hk20 & Hk21 & Hk2L & Hk2H); fold k2 in Hk20, Hk21, Hk2L, Hk2H.
    all: pose proof (upto_from k2 B') as EB.
    all: pose proof (len_upto k2 B' ltac:(lia)) as HlenX2.
    all: pose proof (len_from k2 B' ltac:(lia)) as HlenY2.
    all: set (X2 := upto k2 B') in *; set (Y2 := from k2 B') in *.
    all: assert (merge_low_inv (((dest ++ X) ++ [y]) ++ X2) (x :: A') Y2) as Hinv3
      by (apply merge_low_move_B; [by rewrite EB|];
          intros e1 e2 He1 He2; trans x;
          [ rewrite Forall_forall in Hk2L; by apply Hk2L
          | pose proof (run_head_all x A' HrY) as HF;
            rewrite Forall_forall in HF; by apply HF ]).
    all: assert (merge_low_inv ((((dest ++ X) ++ [y]) ++ X2) ++ [x]) A' Y2) as Hinv4
      by (apply (merge_low_move_A _ [x] A' Y2); [done|];
          intros ? e ->%list_elem_of_singleton He;
          rewrite Forall_forall in Hk2H; by apply Hk2H).
    all: clear Hinv2.
    all: destruct (Z.ltb_spec 0 k2) as [Hk2pos|Hk2zero];
      destruct (Z.eqb_spec (len Y2) 0) as [HY20|HY20]; simpl;
      try (clear Hinv4; low_Succeed); try lia.
    all: clear Hinv3.
    all: destruct (Z.eqb_spec (len A') 1); [low_CopyB|].
    all: destruct (_ || _); [apply IHg | apply IHl]; (done || lia).
Qed.

Lemma MergeLow_run minGallop A B :
  run A -> run B -> 0 < len A ->
  (forall y, head B = Some y -> Forall (before y) A) ->
  (forall x, last A = Some x -> Forall (fun e => before e x) B) ->
  run (MergeLow Compare minGallop A B).1.
Proof.
  intros HrA HrB HlenA Hhead Hlast. unfold MergeLow.
  destruct B as [|y B']; [by rewrite app_nil_r|].
  assert (merge_low_inv [y] A B') as Hinv.
  { split; [|split].
    - apply run_cons. apply run_cons in HrB as (? & _). auto.
    - done.
    - intros x Hx. specialize (Hlast x Hx). by apply Forall_cons in Hlast as [_ ?]. }
  pose proof (len_nonneg B').
  destruct (Z.eqb_spec (len B') 0); [low_Succeed|].
  destruct (Z.eqb_spec (len A) 1); [low_CopyB|].
  apply (proj1 (MergeLow_loops_run _)); [done|lia|lia|].
  rewrite Nat2Z.inj_add. unfold len. lia.
Qed.

(** *** Merging from the right *)

Lemma merge_high_move_A X Y B dest :
  merge_high_inv (X ++ Y) B dest ->
  (forall x y, x ∈ B -> y ∈ Y -> before x y) ->
  merge_high_inv X B (Y ++ dest).
Proof.
  intros (HA & HB & Hhead) HY. split; [by rewrite app_assoc|]. split.
  - rewrite <- app_assoc in HA. apply run_app in HA as (_ & HYd & _).
    apply run_app in HB as (HB & _ & Hcross).
    apply run_app. split; [done|]. split; [done|].
    intros x y ? [?|?]%elem_of_app; eauto.
  - intros y Hy. specialize (Hhead y Hy). by apply Forall_app in Hhead as [? _].
Qed.

Lemma merge_high_move_B A X Y dest :
  merge_high_inv A (X ++ Y) dest ->
  (forall x y, x ∈ A -> y ∈ Y -> before x y) ->
  merge_high_inv A X (Y ++ dest).
Proof.
  intros (HA & HB & Hhead) HY. split; [|split].
  - rewrite <- app_assoc in HB. apply run_app in HB as (_ & HYd & _).
    apply run_app in HA as (HA & _ & Hcross).
    apply run_app. split; [done|]. split; [done|].
    intros x y ? [?|?]%elem_of_app; eauto.
  - by rewrite app_assoc.
  - intros y Hy. apply Hhead. destruct X; [done|]. done.
Qed.

Lemma merge_high_Succeed A B dest :
  merge_high_inv A B dest -> A = [] \/ B = [] -> run (A ++ B ++ dest).
Proof. by intros (HA & HB & _) [->| ->]. Qed.

Lemma merge_high_CopyA A B dest :
  merge_high_inv A B dest -> len B = 1 -> run (B ++ A ++ dest).
Proof.
  intros (HA & HB & Hhead) Hlen.
  destruct B as [|y [|? ?]]; [done| |rewrite !len_cons in Hlen; pose proof (len_nonneg l); lia].
  specialize (Hhead y eq_refl).
  apply run_app in HB as (Hy & _ & Hcross).
  apply run_app. split; [done|]. split; [done|].
  intros x z ->%list_elem_of_singleton [Hz|Hz]%elem_of_app.
  - rewrite Forall_forall in Hhead. auto.
  - apply Hcross; [left | done].
Qed.

Lemma merge_high_inv_run_A A B dest : merge_high_inv A B dest -> run A.
Proof. intros (HA & _). by apply run_app in HA as (? & _). Qed.

Lemma merge_high_inv_run_B A B dest : merge_high_inv A B dest -> run B.
Proof. intros (_ & HB & _). by apply run_app in HB as (? & _). Qed.

Lemma merge_high_inv_P A B dest x :
  merge_high_inv A B dest -> x ∈ A \/ x ∈ B -> P x.
Proof.
  intros (HA & HB & _) Hx.
  apply run_P in HA, HB. rewrite Forall_forall in HA, HB.
  destruct Hx; [apply HA | apply HB]; apply elem_of_app; by left.
Qed.

Ltac high_Succeed :=
  simpl;
  match goal with
  | H : merge_high_inv ?A ?B ?d |- _ =>
      apply (merge_high_Succeed A B d H);
      solve [ left; (done || by apply len_zero)
            | right; (done || by apply len_zero) ]
  end.

Ltac high_CopyA :=
  simpl;
  match goal with
  | H : merge_high_inv ?A ?B ?d |- _ =>
      apply (merge_high_CopyA A B d H); (done || lia)
  end.

Lemma MergeHigh_loops_run fuel :
  (forall minGallop nofWinsA nofWinsB A B dest,
     merge_high_inv A B dest -> 0 < len A -> 1 < len B ->
     len A + len B <= Z.of_nat fuel ->
     run (MergeHigh_linear Compare fuel minGallop nofWinsA nofWinsB A B dest).1)
  /\ (forall minGallop A B dest,
     merge_high_inv A B dest -> 0 < len A -> 1 < len B ->
     len A + len B <= Z.of_nat fuel ->
     run (MergeHigh_gallop Compare fuel minGallop A B dest).1).
Proof.
  induction fuel as [|fuel [IHl IHg]]; split;
    intros until dest; intros Hinv HlenA HlenB Hfuel; try lia.
  - (* one element at a time *)
    simpl.
    destruct (last_split A) as [[A' x]|] eqn:EA;
      [|apply last_split_None in EA as ->; rewrite len_nil in *; lia].
    destruct (last_split B) as [[B' y]|] eqn:EB;
      [|apply last_split_None in EB as ->; rewrite len_nil in *; lia].
    apply last_split_Some in EA as ->. apply last_split_Some in EB as ->.
    rewrite !len_snoc in *.
    pose proof (len_nonneg A'). pose proof (len_nonneg B').
    pose proof (merge_high_inv_run_A _ _ _ Hinv) as HrA.
    pose proof (merge_high_inv_run_B _ _ _ Hinv) as HrB.
    assert (P x) by (eapply merge_high_inv_P; [done | left; set_solver]).
    assert (P y) by (eapply merge_high_inv_P; [done | right; set_solver]).
    destruct (Compare y x <? 0) eqn:Horder.
    + assert (merge_high_inv A' (B' ++ [y]) (x :: dest)) as Hinv'.
      { apply (merge_high_move_A A' [x] (B' ++ [y]) dest); [done|].
        intros e ? He ->%list_elem_of_singleton.
        pose proof (run_last_before y x B' HrB) as HF.
        rewrite Forall_forall in HF. apply HF; [|done]. by apply before_yes. }
      clear Hinv.
      destruct (Z.eqb_spec (len A') 0); [high_Succeed|].
      destruct (_ <=? _); [apply IHg | apply IHl];
        rewrite ?len_snoc; (done || lia).
    + assert (merge_high_inv (A' ++ [x]) B' (y :: dest)) as Hinv'.
      { apply (merge_high_move_B (A' ++ [x]) B' [y] dest); [done|].
        intros e ? He ->%list_elem_of_singleton.
        pose proof (run_last_before x y A' HrA) as HF.
        rewrite Forall_forall in HF. apply HF; [|done]. by apply before_no. }
      clear Hinv.
      destruct (Z.eqb_spec (len B') 1); [high_CopyA|].
      destruct (_ <=? _); [apply IHg | apply IHl];
        rewrite ?len_snoc; (done || lia).
  - (* galloping *)
    simpl.
    destruct (last_split B) as [[B' y]|] eqn:EB;
      [|apply last_split_None in EB as ->; rewrite len_nil in *; lia].
    apply last_split_Some in EB as ->.
    rewrite !len_snoc in *. pose proof (len_nonneg B').
    pose proof (merge_high_inv_run_A _ _ _ Hinv) as HrA.
    pose proof (merge_high_inv_run_B _ _ _ Hinv) as HrB.
    assert (P y) by (eapply merge_high_inv_P; [done | right; set_solver]).
    set (k := GallopRight Compare A y (len A - 1)).
    destruct (GallopRight_bracket A y HrA ltac:(done) (len A - 1) ltac:(lia))
      as (Hk0 & Hk1 & HkL & HkH).
    fold k in Hk0, Hk1, HkL, HkH.
    pose proof (upto_from k A) as EA.
    pose proof (len_upto k A ltac:(lia)) as HlenX.
    pose proof (len_from k A ltac:(lia)) as HlenY.
    set (X := upto k A) in *. set (Y := from k A) in *.
    assert (merge_high_inv X (B' ++ [y]) (Y ++ dest)) as Hinv1.
    { apply merge_high_move_A; [by rewrite EA|].
      intros e1 e2 He1 He2. trans y.
      - pose proof (run_last_all y B' HrB) as HF.
        rewrite Forall_forall in HF. by apply HF.
      - rewrite Forall_forall in HkH. by apply HkH. }
    clear Hinv.
    assert (merge_high_inv X B' (y :: Y ++ dest)) as Hinv2.
    { apply (merge_high_move_B X B' [y] (Y ++ dest)); [done|].
      intros e ? He ->%list_elem_of_singleton.
      rewrite Forall_forall in HkL. by apply HkL. }
    destruct (Z.ltb_spec 0 (len A - k)) as [Hkpos|Hkzero];
      destruct (Z.eqb_spec (len X) 0) as [HX0|HX0]; simpl;
      try (clear Hinv2; high_Succeed); try lia.
    all: clear Hinv1.
    all: destruct (Z.eqb_spec (len B') 1); [high_CopyA|].
    all: destruct (last_split X) as [[A' x]|] eqn:EX;
      [|apply last_split_None in EX; high_Succeed].
    all: apply last_split_Some in EX; rewrite EX in *; clear EX.
    all: rewrite len_snoc in *; pose proof (len_nonneg A').
    all: pose proof (merge_high_inv_run_A _ _ _ Hinv2) as HrX.
    all: pose proof (merge_high_inv_run_B _ _ _ Hinv2) as HrB'.
    all: assert (P x) by (eapply merge_high_inv_P; [exact Hinv2 | left; set_solver]).
    all: set (k2 := GallopLeft Compare B' x (len B' - 1)).
    all: destruct (GallopLeft_bracket B' x HrB' ltac:(done) (len B' - 1) ltac:(lia))
      as (Hk20 & Hk21 & Hk2L & Hk2H); fold k2 in Hk20, Hk21, Hk2L, Hk2H.
    all: pose proof (upto_from k2 B') as EB.
    all: pose proof (len_upto k2 B' ltac:(lia)) as HlenX2.
    all: pose proof (len_from k2 B' ltac:(lia)) as HlenY2.
    all: set (X2 := upto k2 B') in *; set (Y2 := from k2 B') in *.
    all: assert (merge_high_inv (A' ++ [x]) X2 (Y2 ++ y :: Y ++ dest)) as Hinv3
      by (apply merge_high_move_B; [by rewrite EB|];
          intros e1 e2 He1 He2; trans x;
          [ pose proof (run_last_all x A' HrX) as HF;
            rewrite Forall_forall in HF; by apply HF
          | rewrite Forall_forall in Hk2H; by apply Hk2H ]).
    all: assert (merge_high_inv A' X2 (x :: Y2 ++ y :: Y ++ dest)) as Hinv4
      by (apply (merge_high_move_A A' [x] X2 _); [done|];
          intros e ? He ->%list_elem_of_singleton;
          rewrite Forall_forall in Hk2L; by apply Hk2L).
    all: clear Hinv2.
    all: destruct (Z.ltb_spec 0 (len B' - k2)) as [Hk2pos|Hk2zero];
      destruct (Z.eqb_spec (len X2) 1) as [HX21|HX21]; simpl;
      try (clear Hinv4; high_CopyA).
    all: destruct (Z.eqb_spec (len X2) 0) as [HX20|HX20]; simpl;
      try (clear Hinv4; high_Succeed); try lia.
    all: clear Hinv3.
    all: destruct (Z.eqb_spec (len A') 0); [high_Succeed|].
    all: destruct (_ || _); [apply IHg | apply IHl]; (done || lia).
Qed.

Lemma MergeHigh_run minGallop A B :
  run A -> run B -> 0 < len B ->
  (forall y, head B = Some y -> Forall (before y) A) ->
  (forall x, last A = Some x -> Forall (fun e => before e x) B) ->
  run (MergeHigh Compare minGallop A B).1.
Proof.
  intros HrA HrB HlenB Hhead Hlast. unfold MergeHigh.
  destruct (last_split A) as [[A' x]|] eqn:EA;
    [|apply last_split_None in EA as ->; done].
  apply last_split_Some in EA as ->.
  assert (merge_high_inv A' B [x]) as Hinv.
  { split; [|split].
    - done.
    - apply run_app. split; [done|]. split.
      + apply run_singleton. apply run_P in HrA.
        rewrite Forall_app, Forall_singleton in HrA. tauto.
      + intros e ? He ->%list_elem_of_singleton.
        specialize (Hlast x (last_snoc _ _)).
        rewrite Forall_forall in Hlast. auto.
    - intros y Hy. specialize (Hhead y Hy). by apply Forall_app in Hhead as [? _]. }
  pose proof (len_nonneg A').
  destruct (Z.eqb_spec (len A') 0); [high_Succeed|].
  destruct (Z.eqb_spec (len B) 1); [high_CopyA|].
  apply (proj1 (MergeHigh_loops_run _)); [done|lia|lia|].
  rewrite Nat2Z.inj_add. unfold len. lia.
Qed.

(** *** Merging two runs of the stack *)

Lemma run_before_all_l x a y : run (x :: a) -> y ∈ x :: a -> before x y.
Proof.
  intros Hrun Hy. pose proof (run_head_all x a Hrun) as HF.
  rewrite Forall_forall in HF. auto.
Qed.

Lemma run_before_all_r x a y : run (a ++ [x]) -> y ∈ a ++ [x] -> before y x.
Proof.
  intros Hrun Hy. pose proof (run_last_all x a Hrun) as HF.
  rewrite Forall_forall in HF. auto.
Qed.

Lemma MergeAt_runs_run minGallop A B :
  run A -> run B -> 0 < len A -> 0 < len B ->
  run (MergeAt_runs Compare minGallop A B).1.
Proof.
  intros HrA HrB HlenA HlenB. unfold MergeAt_runs.
  destruct B as [|keyRight B']; [unfold len in HlenB; simpl in HlenB; lia|].
  cbv beta iota. remember (keyRight :: B') as B eqn:EB.
  assert (head B = Some keyRight) as HheadB by (by subst B).
  assert (forall y, y ∈ B -> before keyRight y) as HfirstB.
  { subst B. intros y. by apply run_before_all_l. }
  assert (P keyRight) as HPr.
  { subst B. by apply run_cons in HrB as (? & _). }
  clear EB.
  set (k := GallopRight Compare A keyRight 0).
  destruct (GallopRight_bracket A keyRight HrA HPr 0 ltac:(lia))
    as (Hk0 & Hk1 & HkL & HkH).
  fold k in Hk0, Hk1, HkL, HkH.
  rewrite Forall_forall in HkL, HkH.
  pose proof (upto_from k A) as EA.
  pose proof (len_upto k A ltac:(lia)) as HlenX.
  pose proof (len_from k A ltac:(lia)) as HlenY.
  set (X := upto k A) in *. set (Y := from k A) in *.
  destruct (Z.eqb_spec (len Y) 0) as [HY0|HY0].
  { simpl. apply len_zero in HY0. rewrite HY0, app_nil_r in EA. subst X.
    apply run_app. split; [done|]. split; [done|].
    intros x y Hx Hy. trans keyRight; [apply HkL; by rewrite EA | by apply HfirstB]. }
  destruct (last_split Y) as [[Y' keyLeft]|] eqn:EY;
    [|apply last_split_None in EY; rewrite EY, len_nil in *; lia].
  apply last_split_Some in EY.
  assert (run Y) as HrY by (rewrite <- EA in HrA; by apply run_app in HrA as (_ & ? & _)).
  assert (forall x, x ∈ A -> before x keyLeft) as HlastA.
  { intros x. rewrite <- EA, EY, app_assoc. apply run_before_all_r.
    by rewrite <- app_assoc, <- EY, EA. }
  assert (P keyLeft) as HPl.
  { apply run_P in HrY. rewrite EY, Forall_app, Forall_singleton in HrY. tauto. }
  set (lengthB := GallopLeft Compare B keyLeft (len B - 1)).
  destruct (GallopLeft_bracket B keyLeft HrB HPl (len B - 1) ltac:(lia))
    as (Hl0 & Hl1 & HlL & HlH).
  fold lengthB in Hl0, Hl1, HlL, HlH.
  rewrite Forall_forall in HlL, HlH.
  pose proof (upto_from lengthB B) as EB.
  pose proof (len_upto lengthB B ltac:(lia)) as HlenX2.
  set (X2 := upto lengthB B) in *. set (Y2 := from lengthB B) in *.
  destruct (Z.eqb_spec lengthB 0) as [Hl|Hl].
  { simpl. apply run_app. split; [done|]. split; [done|].
    intros x y Hx Hy. trans keyLeft; [by apply HlastA|].
    apply HlH. rewrite <- EB in Hy. rewrite Hl in HlenX2.
    apply len_zero in HlenX2. by rewrite HlenX2 in Hy. }
  assert (run X2) as HrX2 by (by apply run_upto).
  assert (head X2 = Some keyRight) as HheadX2.
  { destruct B as [|? ?]; [done|]. simplify_eq/=. subst X2.
    by rewrite upto_cons by lia. }
  assert (run (if len Y <=? lengthB
               then MergeLow Compare minGallop Y X2
               else MergeHigh Compare minGallop Y X2).1
          /\ (if len Y <=? lengthB
               then MergeLow Compare minGallop Y X2
               else MergeHigh Compare minGallop Y X2).1 ≡ₚ Y ++ X2)
    as [Hrun Hperm].
  { assert (forall y, head X2 = Some y -> Forall (before y) Y) as Hh.
    { intros y Hy. rewrite HheadX2 in Hy. injection Hy as <-.
      by apply Forall_forall. }
    assert (forall x, last Y = Some x -> Forall (fun e => before e x) X2) as Hl'.
    { intros x Hx. rewrite EY, last_snoc in Hx. injection Hx as <-.
      by apply Forall_forall. }
    destruct (_ <=? _); split;
      auto using MergeLow_Permutation, MergeHigh_Permutation.
    - apply MergeLow_run; (done || lia).
    - apply MergeHigh_run; (done || lia). }
  destruct (if len Y <=? lengthB then _ else _) as [merged mg]. simpl in *.
  apply run_app. split; [by apply run_upto|]. split.
  - apply run_app. split; [done|]. split; [by apply run_from|].
    intros x y Hx Hy. rewrite Hperm in Hx. apply elem_of_app in Hx as [Hx|Hx].
    + trans keyLeft; [|by apply HlH]. apply HlastA. rewrite <- EA. set_solver.
    + by apply (run_upto_from lengthB B).
  - intros x y Hx Hy.
    assert (y ∈ Y \/ y ∈ B) as [HyY|HyB].
    { rewrite <- EB. rewrite Hperm in Hy. set_solver. }
    + by apply (run_upto_from k A).
    + trans keyRight; [by apply HkL | by apply HfirstB].
Qed.

(** *** The stack and the driver *)

Local Abbreviation good_runs runs :=
  (Forall (fun r : list T => run r /\ 0 < len r) runs).

Lemma MergeAt_good i sortState :
  good_runs (pendingRuns sortState) ->
  good_runs (pendingRuns (MergeAt Compare i sortState)).
Proof.
  intros Hgood. unfold MergeAt.
  destruct (at_index _ i) as [A|] eqn:HA; [|done].
  destruct (at_index _ (i + 1)) as [B|] eqn:HB; [|done].
  assert (run A /\ 0 < len A) as [HrA HlA].
  { rewrite Forall_forall in Hgood. eapply Hgood, at_index_elem_of, HA. }
  assert (run B /\ 0 < len B) as [HrB HlB].
  { rewrite Forall_forall in Hgood. eapply Hgood, at_index_elem_of, HB. }
  pose proof (MergeAt_runs_run (minGallop sortState) A B HrA HrB HlA HlB) as Hrun.
  pose proof (MergeAt_runs_Permutation Compare (minGallop sortState) A B) as Hperm.
  destruct (MergeAt_runs _ _ _ _) as [merged mg]. simpl in *.
  apply Forall_app. split; [by apply Forall_take|].
  constructor; [|by apply Forall_drop].
  split; [done|]. rewrite (len_Permutation _ _ Hperm), len_app. lia.
Qed.

Lemma MergeCollapse_loop_good fuel sortState :
  good_runs (pendingRuns sortState) ->
  good_runs (pendingRuns (MergeCollapse_loop Compare fuel sortState)).
Proof.
  revert sortState. induction fuel as [|fuel IH]; intros; simpl; [done|].
  repeat case_match; auto using MergeAt_good.
Qed.

Lemma MergeForceCollapse_loop_good fuel sortState :
  good_runs (pendingRuns sortState) ->
  good_runs (pendingRuns (MergeForceCollapse_loop Compare fuel sortState)).
Proof.
  revert sortState. induction fuel as [|fuel IH]; intros; simpl; [done|].
  repeat case_match; auto using MergeAt_good.
Qed.

Lemma next_run_run minRunLength remaining :
  Forall P remaining -> remaining <> [] ->
  run (upto (next_run Compare minRunLength remaining).1
            (next_run Compare minRunLength remaining).2).
Proof.
  intros HP Hne. unfold next_run.
  pose proof (CountAndMakeRun_run remaining HP) as Hrun.
  pose proof (CountAndMakeRun_length Compare remaining Hne) as Hlen.
  pose proof (CountAndMakeRun_Permutation Compare remaining) as Hperm.
  destruct (CountAndMakeRun _ _) as [currentRunLength a]. simpl in *.
  destruct (Z.ltb_spec currentRunLength minRunLength); simpl; [|done].
  set (forcedRunLength := Z.min minRunLength (len remaining)).
  assert (currentRunLength <= forcedRunLength <= len a).
  { rewrite (len_Permutation _ _ Hperm). unfold forcedRunLength. lia. }
  rewrite upto_app_len.
  - apply BinaryInsertionSort_run; [lia| |by rewrite upto_upto by lia].
    apply Forall_take. by rewrite Hperm.
  - rewrite (len_Permutation _ _ (BinaryInsertionSort_Permutation Compare
      (upto forcedRunLength a) currentRunLength ltac:(lia))).
    rewrite len_upto; lia.
Qed.

Lemma ArrayTimSortImpl_loop_good fuel minRunLength sortState remaining :
  Forall P remaining -> good_runs (pendingRuns sortState) ->
  len remaining <= Z.of_nat fuel ->
  let result :=
    ArrayTimSortImpl_loop Compare fuel minRunLength sortState remaining in
  good_runs (pendingRuns result.1) /\ result.2 = [].
Proof.
  revert sortState remaining.
  induction fuel as [|fuel IH]; intros sortState remaining HP Hgood Hfuel result.
  { split; [done|]. apply len_zero. pose proof (len_nonneg remaining). simpl. lia. }
  subst result. rewrite ArrayTimSortImpl_loop_unfold.
  destruct (Z.eqb_spec (len remaining) 0) as [Hz|Hne].
  { split; [done|]. by apply len_zero. }
  assert (remaining <> []) as Hne' by (by intros ->).
  pose proof (next_run_Permutation Compare minRunLength remaining Hne') as Hperm.
  pose proof (next_run_length Compare minRunLength remaining Hne') as Hlen.
  pose proof (next_run_run minRunLength remaining HP Hne') as Hrun.
  destruct (next_run _ _ _) as [currentRunLength a]. simpl in *.
  assert (len a = len remaining) as Hla by (by apply len_Permutation).
  apply IH.
  - apply Forall_drop. by rewrite Hperm.
  - unfold MergeCollapse. apply MergeCollapse_loop_good. simpl.
    apply Forall_app. split; [done|]. apply Forall_singleton.
    split; [done|]. rewrite len_upto; lia.
  - rewrite len_from; lia.
Qed.

Theorem ArrayTimSortImpl_run workArray :
  Forall P workArray -> run (ArrayTimSortImpl Compare workArray).
Proof.
  intros HP. unfold ArrayTimSortImpl.
  destruct (Z.ltb_spec (len workArray) 2) as [Hshort|Hlong].
  { destruct workArray as [|x [|y rest]].
    - apply run_nil.
    - apply run_singleton. by apply Forall_cons in HP as [? _].
    - rewrite !len_cons in Hshort. pose proof (len_nonneg rest). lia. }
  pose proof (ArrayTimSortImpl_loop_good (length workArray)
    (ComputeMinRunLength (len workArray))
    {| pendingRuns := []; minGallop := kMinGallopWins |} workArray HP
    ltac:(constructor) ltac:(unfold len; lia)) as [Hgood Hrest].
  destruct (ArrayTimSortImpl_loop _ _ _ _ _) as [sortState remaining].
  simpl in *. subst remaining. rewrite app_nil_r.
  pose proof (MergeForceCollapse_loop_good (length (pendingRuns sortState))
    sortState Hgood) as Hgood'.
  pose proof (MergeForceCollapse_loop_size Compare (length (pendingRuns sortState))
    sortState ltac:(unfold GetPendingRunsSize, len; lia)) as Hsize.
  unfold MergeForceCollapse.
  destruct (MergeForceCollapse_loop _ _ _) as [runs mg].
  unfold GetPendingRunsSize in Hsize. simpl in *.
  destruct runs as [|r [|r' runs]].
  - apply run_nil.
  - simpl. rewrite app_nil_r. by apply Forall_singleton in Hgood' as [? _].
  - rewrite !len_cons in Hsize. pose proof (len_nonneg runs). lia.
Qed.
End Sorted.

(** ** The sort compares a later element with an earlier one

    Every comparison of the algorithm is [Compare x y] for an [x] that
    entered the array after [y]: the scan compares an element with its
    predecessor, the insertion a pivot with the run before it, and the
    merges an element of the right run with one of the left run.  So two
    comparators that answer alike on such pairs sort an array alike. *)
Section EntryOrder.
Context {T : Type} (later : T -> T -> Prop).
Implicit Types (a A B dest : list T).
Local Abbreviation later_than := (later_than later).
Local Abbreviation in_entry_order := (in_entry_order later).
Local Abbreviation runs_in_entry_order := (runs_in_entry_order later).

Lemma later_than_subseteq X Y X' Y' :
  later_than X Y -> X' ⊆ X -> Y' ⊆ Y -> later_than X' Y'.
Proof. intros H HX HY x y Hx Hy. apply H; auto. Qed.

Lemma upto_subseteq n a : upto n a ⊆ a.
Proof. apply subseteq_take. Qed.

Lemma from_subseteq n a : from n a ⊆ a.
Proof. apply subseteq_drop. Qed.

Lemma elem_of_concat_2 (x : T) (r : list T) (runs : list (list T)) :
  x ∈ r -> r ∈ runs -> x ∈ concat runs.
Proof.
  intros Hx. induction 1 as [r runs|r r' runs _ IH]; simpl; set_solver.
Qed.

Lemma in_entry_order_from n a : in_entry_order a -> in_entry_order (from n a).
Proof.
  intros H. rewrite <- (upto_from n a) in H.
  by apply StronglySorted_app_1_r in H.
Qed.

Lemma in_entry_order_upto n a : in_entry_order a -> in_entry_order (upto n a).
Proof.
  intros H. rewrite <- (upto_from n a) in H.
  by apply StronglySorted_app_1_l in H.
Qed.

Lemma in_entry_order_later_than n a :
  in_entry_order a -> later_than (from n a) (upto n a).
Proof.
  intros H x y Hx Hy. rewrite <- (upto_from n a) in H.
  by apply (StronglySorted_app_1_elem_of _ _ _ y x H).
Qed.

Lemma upto_split a n m :
  0 <= n <= m -> m <= len a -> upto m a = upto n a ++ upto (m - n) (from n a).
Proof.
  intros. unfold upto, from, len in *. rewrite <- (take_drop (Z.to_nat n) a) at 1.
  rewrite take_app_ge by (rewrite length_take; lia).
  rewrite length_take. do 2 f_equal. lia.
Qed.

Lemma from_upto a n m :
  0 <= n <= m -> from n (upto m a) = upto (m - n) (from n a).
Proof.
  intros. unfold upto, from. rewrite take_drop_commute. do 2 f_equal. lia.
Qed.

Section Shape.
Context (Compare : T -> T -> Z).

(** The run that [CountAndMakeRun] finds is rearranged within itself;
    what follows it is not touched. *)
Lemma CountAndMakeRun_parts a :
  a <> [] ->
  let result := CountAndMakeRun Compare a in
  upto result.1 result.2 ≡ₚ upto result.1 a
  /\ from result.1 result.2 = from result.1 a.
Proof.
  intros Hne result. pose proof (CountAndMakeRun_length Compare a Hne) as Hlen.
  fold result in Hlen. subst result.
  destruct a as [|x [|y rest]]; [done..|]. simpl in *.
  set (n := CountAndMakeRun_scan _ _ _ _ _) in *.
  set (a := x :: y :: rest) in *.
  destruct (Compare y x <? 0); [|done].
  rewrite ReverseRange_0.
  assert (len (reverse (upto n a)) = n) as Hl.
  { unfold len. rewrite length_reverse. apply len_upto. lia. }
  rewrite upto_app_len, from_app_len by done.
  split; [apply reverse_Permutation | done].
Qed.

Lemma slide_in_parts a left start pivot :
  at_index a start = Some pivot -> 0 <= left <= start ->
  upto (start + 1) (slide_in a left start pivot) ≡ₚ pivot :: upto start a
  /\ from (start + 1) (slide_in a left start pivot) = from (start + 1) a.
Proof.
  intros Hp Hleft. pose proof (at_index_range _ _ _ Hp).
  rewrite slide_in_split by done.
  set (pre := upto start a). set (post := from (start + 1) a).
  assert (len pre = start) by (apply len_upto; lia).
  replace (upto left pre ++ pivot :: from left pre ++ post)
    with ((upto left pre ++ pivot :: from left pre) ++ post)
    by (by rewrite <- app_assoc).
  assert (start + 1 = len (upto left pre ++ pivot :: from left pre)) as Hl.
  { rewrite len_app, len_cons, len_upto, len_from; lia. }
  rewrite upto_app_len, from_app_len by done. split; [|done].
  rewrite <- (upto_from left pre) at 3. solve_Permutation.
Qed.

Lemma next_run_parts minRunLength remaining :
  remaining <> [] ->
  let result := next_run Compare minRunLength remaining in
  upto result.1 result.2 ≡ₚ upto result.1 remaining
  /\ from result.1 result.2 = from result.1 remaining.
Proof.
  intros Hne result. subst result. unfold next_run.
  pose proof (CountAndMakeRun_length Compare remaining Hne) as Hlen.
  pose proof (CountAndMakeRun_Permutation Compare remaining) as Hperm.
  destruct (CountAndMakeRun_parts remaining Hne) as [Hrun Hrest].
  destruct (CountAndMakeRun _ _) as [currentRunLength a]. simpl in *.
  destruct (Z.ltb_spec currentRunLength minRunLength); simpl; [|done].
  set (forcedRunLength := Z.min minRunLength (len remaining)).
  assert (len a = len remaining) as Hla by (by apply len_Permutation).
  assert (currentRunLength <= forcedRunLength <= len a)
    by (unfold forcedRunLength; lia).
  pose proof (BinaryInsertionSort_Permutation Compare
    (upto forcedRunLength a) currentRunLength ltac:(lia)) as Hsorted.
  assert (forcedRunLength
          = len (BinaryInsertionSort Compare (upto forcedRunLength a) currentRunLength))
    as Hl by (rewrite (len_Permutation _ _ Hsorted), len_upto; lia).
  rewrite upto_app_len, from_app_len by done. rewrite Hsorted. split.
  - rewrite (upto_split a currentRunLength forcedRunLength) by lia.
    rewrite (upto_split remaining currentRunLength forcedRunLength) by lia.
    by rewrite Hrun, Hrest.
  - replace forcedRunLength
      with (currentRunLength + (forcedRunLength - currentRunLength)) by lia.
    rewrite <- !from_from by lia. by rewrite Hrest.
Qed.

(** Merging two runs of the stack keeps the runs in entry order. *)
Lemma MergeAt_in_entry_order i sortState :
  runs_in_entry_order (pendingRuns sortState) ->
  runs_in_entry_order (pendingRuns (MergeAt Compare i sortState)).
Proof.
  intros Hruns. unfold MergeAt.
  destruct (at_index _ i) as [A|] eqn:HA; [|done].
  destruct (at_index _ (i + 1)) as [B|] eqn:HB; [|done].
  pose proof (MergeAt_runs_Permutation Compare (minGallop sortState) A B) as Hperm.
  destruct (MergeAt_runs _ _ _ _) as [merged mg]. simpl in *.
  rewrite (at_index_split2 _ i A B HA HB) in Hruns.
  apply StronglySorted_app in Hruns as (Hcross & Hlow & Hhigh).
  apply StronglySorted_cons in Hhigh as (HA' & Hhigh).
  apply StronglySorted_cons in Hhigh as (HB' & Hhigh).
  apply Forall_cons in HA' as (_ & HA').
  rewrite Forall_forall in HA', HB'.
  apply StronglySorted_app. split; [|split; [done|]].
  - intros X Y HX HY x y Hx Hy.
    apply elem_of_cons in HY as [->|HY].
    + rewrite Hperm in Hx. apply elem_of_app in Hx as [Hx|Hx].
      * apply (Hcross X A); [done|set_solver|done|done].
      * apply (Hcross X B); [done|set_solver|done|done].
    + apply (Hcross X Y); [done|set_solver|done|done].
  - apply StronglySorted_cons. split; [|done].
    apply Forall_forall. intros Y HY y x Hy Hx.
    rewrite Hperm in Hx. apply elem_of_app in Hx as [Hx|Hx].
    + by apply (HA' Y HY).
    + by apply (HB' Y HY).
Qed.

Lemma MergeCollapse_loop_in_entry_order fuel sortState :
  runs_in_entry_order (pendingRuns sortState) ->
  runs_in_entry_order (pendingRuns (MergeCollapse_loop Compare fuel sortState)).
Proof.
  revert sortState. induction fuel as [|fuel IH]; intros; simpl; [done|].
  repeat case_match; auto using MergeAt_in_entry_order.
Qed.

End Shape.
(** Two comparators that answer alike whenever the first argument
    entered after the second. *)
Section Agreement.
Context (Compare1 Compare2 : T -> T -> Z).
Hypothesis agree :
  forall x y, later x y -> (Compare1 x y <? 0) = (Compare2 x y <? 0).

Lemma agree_ge x y : later x y -> (0 <=? Compare1 x y) = (0 <=? Compare2 x y).
Proof. intros. rewrite !Z.leb_antisym. by rewrite agree. Qed.

Lemma CountAndMakeRun_scan_agree isDescending previous rest runLength :
  in_entry_order (previous :: rest) ->
  CountAndMakeRun_scan Compare1 isDescending previous rest runLength
  = CountAndMakeRun_scan Compare2 isDescending previous rest runLength.
Proof.
  revert previous runLength.
  induction rest as [|current rest IH]; intros previous runLength Hs; [done|].
  apply StronglySorted_cons in Hs as [Hprev Hrest].
  apply Forall_cons in Hprev as [Hcurrent _]. simpl.
  rewrite (agree _ _ Hcurrent), (agree_ge _ _ Hcurrent). by rewrite IH.
Qed.

Lemma CountAndMakeRun_agree a :
  in_entry_order a -> CountAndMakeRun Compare1 a = CountAndMakeRun Compare2 a.
Proof.
  destruct a as [|x [|y rest]]; [done..|]. intros Hs. simpl.
  apply StronglySorted_cons in Hs as [Hx Hrest].
  apply Forall_cons in Hx as [Hy _].
  by rewrite (agree _ _ Hy), CountAndMakeRun_scan_agree.
Qed.

Lemma BinaryInsertionSort_search_agree fuel a start pivot left right :
  (forall e, e ∈ upto start a -> later pivot e) ->
  0 <= left -> right <= start ->
  BinaryInsertionSort_search Compare1 fuel a pivot left right
  = BinaryInsertionSort_search Compare2 fuel a pivot left right.
Proof.
  intros Hpivot. revert left right.
  induction fuel as [|fuel IH]; intros left right Hleft Hright; simpl; [done|].
  destruct (Z.ltb_spec left right) as [Hlt|]; [|done].
  pose proof (midpoint left right Hlt). set (mid := left + _) in *.
  destruct (at_index a mid) as [midElement|] eqn:Hmid; [|done].
  rewrite agree.
  - destruct (_ <? 0); apply IH; lia.
  - apply Hpivot. apply (at_index_elem_of _ mid).
    rewrite at_index_upto by lia. done.
Qed.

Lemma BinaryInsertionSort_loop_agree todo a start :
  0 <= start ->
  later_than (from start a) (upto start a) -> in_entry_order (from start a) ->
  BinaryInsertionSort_loop Compare1 todo a start
  = BinaryInsertionSort_loop Compare2 todo a start.
Proof.
  revert a start.
  induction todo as [|todo IH]; intros a start Hstart Hlater Hrest; simpl; [done|].
  destruct (at_index a start) as [pivot|] eqn:Hpivot; [|done].
  rewrite (from_at_index _ _ _ Hpivot) in Hlater, Hrest.
  rewrite (BinaryInsertionSort_search_agree _ a start) by
    (first [lia | intros e He; apply Hlater; [left|done]]).
  set (left := BinaryInsertionSort_search _ _ _ _ _ _).
  assert (0 <= left <= start) as Hleft.
  { apply BinaryInsertionSort_search_bounds. lia. }
  destruct (slide_in_parts a left start pivot Hpivot Hleft) as [Hrun Hafter].
  apply StronglySorted_cons in Hrest as [Hp Hrest]. rewrite Forall_forall in Hp.
  apply IH; [lia| |by rewrite Hafter].
  rewrite Hafter. intros x y Hx Hy. rewrite Hrun in Hy.
  apply elem_of_cons in Hy as [->|Hy].
  - by apply Hp.
  - apply Hlater; [by right | done].
Qed.

Lemma BinaryInsertionSort_agree a startArg :
  0 < startArg ->
  later_than (from startArg a) (upto startArg a) -> in_entry_order (from startArg a) ->
  BinaryInsertionSort Compare1 a startArg = BinaryInsertionSort Compare2 a startArg.
Proof.
  intros. unfold BinaryInsertionSort.
  destruct (Z.eqb_spec startArg 0); [lia|].
  apply BinaryInsertionSort_loop_agree; (done || lia).
Qed.

Lemma Gallop_extend_ext fuel (stop1 stop2 : Z -> bool) maxOfs lastOfs offset :
  (forall ofs, stop1 ofs = stop2 ofs) ->
  Gallop_extend fuel stop1 maxOfs lastOfs offset
  = Gallop_extend fuel stop2 maxOfs lastOfs offset.
Proof.
  intros Hstop. revert lastOfs offset.
  induction fuel as [|fuel IH]; intros; simpl; [done|].
  by rewrite Hstop, IH.
Qed.

Lemma Gallop_bisect_ext fuel (right1 right2 : Z -> bool) lastOfs offset :
  (forall m, right1 m = right2 m) ->
  Gallop_bisect fuel right1 lastOfs offset = Gallop_bisect fuel right2 lastOfs offset.
Proof.
  intros Hright. revert lastOfs offset.
  induction fuel as [|fuel IH]; intros; simpl; [done|].
  by rewrite Hright, !IH.
Qed.

Lemma GallopLeft_order_agree a key i :
  later_than a [key] ->
  (GallopLeft_order Compare1 a key i <? 0) = (GallopLeft_order Compare2 a key i <? 0).
Proof.
  intros Hlater. unfold GallopLeft_order.
  destruct (at_index a i) as [element|] eqn:He; [|done].
  apply agree, Hlater; [by eapply at_index_elem_of | by left].
Qed.

Lemma GallopRight_order_agree a key i :
  later_than [key] a ->
  (GallopRight_order Compare1 a key i <? 0) = (GallopRight_order Compare2 a key i <? 0).
Proof.
  intros Hlater. unfold GallopRight_order.
  destruct (at_index a i) as [element|] eqn:He; [|done].
  apply agree, Hlater; [by left | by eapply at_index_elem_of].
Qed.

Lemma GallopLeft_agree a key hint :
  later_than a [key] -> GallopLeft Compare1 a key hint = GallopLeft Compare2 a key hint.
Proof.
  intros Hlater. unfold GallopLeft. cbv zeta.
  rewrite (GallopLeft_order_agree a key hint Hlater).
  rewrite (Gallop_extend_ext _
    (fun ofs => 0 <=? GallopLeft_order Compare1 a key (hint + ofs))
    (fun ofs => 0 <=? GallopLeft_order Compare2 a key (hint + ofs)))
    by (intros; rewrite !Z.leb_antisym; by rewrite GallopLeft_order_agree).
  rewrite (Gallop_extend_ext _
    (fun ofs => GallopLeft_order Compare1 a key (hint - ofs) <? 0)
    (fun ofs => GallopLeft_order Compare2 a key (hint - ofs) <? 0))
    by (intros; by rewrite GallopLeft_order_agree).
  destruct (if _ <? 0 then _ else _) as [lastOfs offset].
  apply Gallop_bisect_ext. intros. by apply GallopLeft_order_agree.
Qed.

Lemma GallopRight_agree a key hint :
  later_than [key] a -> GallopRight Compare1 a key hint = GallopRight Compare2 a key hint.
Proof.
  intros Hlater. unfold GallopRight. cbv zeta.
  rewrite (GallopRight_order_agree a key hint Hlater).
  rewrite (Gallop_extend_ext _
    (fun ofs => 0 <=? GallopRight_order Compare1 a key (hint - ofs))
    (fun ofs => 0 <=? GallopRight_order Compare2 a key (hint - ofs)))
    by (intros; rewrite !Z.leb_antisym; by rewrite GallopRight_order_agree).
  rewrite (Gallop_extend_ext _
    (fun ofs => GallopRight_order Compare1 a key (hint + ofs) <? 0)
    (fun ofs => GallopRight_order Compare2 a key (hint + ofs) <? 0))
    by (intros; by rewrite GallopRight_order_agree).
  destruct (if _ <? 0 then _ else _) as [lastOfs offset].
  apply Gallop_bisect_ext. intros. rewrite !Z.leb_antisym.
  by rewrite GallopRight_order_agree.
Qed.

(** What a merge has left of its two runs is part of them. *)
Ltac part_of_runs :=
  match goal with
  | H : later_than ?B ?A |- later_than _ _ =>
      apply (later_than_subseteq B A); [exact H|..];
      repeat first [done | apply upto_subseteq | apply from_subseteq
                   | (etrans; [apply upto_subseteq|]) | (etrans; [apply from_subseteq|])
                   | set_solver]
  end.

Lemma MergeLow_loops_agree fuel :
  (forall minGallop nofWinsA nofWinsB dest A B,
     later_than B A ->
     MergeLow_linear Compare1 fuel minGallop nofWinsA nofWinsB dest A B
     = MergeLow_linear Compare2 fuel minGallop nofWinsA nofWinsB dest A B)
  /\ (forall minGallop dest A B,
     later_than B A ->
     MergeLow_gallop Compare1 fuel minGallop dest A B
     = MergeLow_gallop Compare2 fuel minGallop dest A B).
Proof.
  induction fuel as [|fuel [IHl IHg]]; split; intros; simpl; [done..| |].
  - destruct A as [|a A'], B as [|b B']; try done.
    rewrite (agree b a) by (apply H; by left).
    repeat case_match; try done; (apply IHl || apply IHg); part_of_runs.
  - destruct B as [|b B']; [done|].
    rewrite (GallopRight_agree A b 0) by part_of_runs.
    set (nofWinsA := GallopRight Compare2 A b 0).
    destruct (_ && _); [done|]. destruct (_ && _); [done|].
    destruct (len B' =? 0); [done|].
    destruct (from nofWinsA A) as [|a A'] eqn:EA; [done|].
    assert (a :: A' ⊆ A) as HA by (rewrite <- EA; apply from_subseteq).
    rewrite (GallopLeft_agree B' a 0)
      by (apply (later_than_subseteq (b :: B') A); [done|set_solver..]).
    repeat case_match; try done; (apply IHl || apply IHg);
      (apply (later_than_subseteq (b :: B') A); [done| |set_solver]);
      (etrans; [apply from_subseteq|set_solver]).
Qed.

Lemma MergeLow_agree minGallop A B :
  later_than B A ->
  MergeLow Compare1 minGallop A B = MergeLow Compare2 minGallop A B.
Proof.
  intros. unfold MergeLow. destruct B as [|b B']; [done|].
  repeat case_match; try done.
  apply MergeLow_loops_agree. part_of_runs.
Qed.

Lemma MergeHigh_loops_agree fuel :
  (forall minGallop nofWinsA nofWinsB A B dest,
     later_than B A ->
     MergeHigh_linear Compare1 fuel minGallop nofWinsA nofWinsB A B dest
     = MergeHigh_linear Compare2 fuel minGallop nofWinsA nofWinsB A B dest)
  /\ (forall minGallop A B dest,
     later_than B A ->
     MergeHigh_gallop Compare1 fuel minGallop A B dest
     = MergeHigh_gallop Compare2 fuel minGallop A B dest).
Proof.
  induction fuel as [|fuel [IHl IHg]]; split; intros; simpl; [done..| |].
  - destruct (last_split A) as [[A' a]|] eqn:EA; [|done].
    destruct (last_split B) as [[B' b]|] eqn:EB; [|done].
    apply last_split_Some in EA, EB. subst A B.
    rewrite (agree b a) by (apply H; set_solver).
    repeat case_match; try done; (apply IHl || apply IHg); part_of_runs.
  - destruct (last_split B) as [[B' b]|] eqn:EB; [|done].
    apply last_split_Some in EB. subst B.
    rewrite (GallopRight_agree A b (len A - 1)) by part_of_runs.
    set (k := GallopRight Compare2 A b (len A - 1)).
    destruct (_ && _); [done|]. destruct (len B' =? 1); [done|].
    destruct (last_split (upto k A)) as [[A' a]|] eqn:EA; [|done].
    apply last_split_Some in EA.
    assert (A' ++ [a] ⊆ A) as HA by (rewrite <- EA; apply upto_subseteq).
    rewrite (GallopLeft_agree B' a (len B' - 1))
      by (apply (later_than_subseteq (B' ++ [b]) A); [done|set_solver..]).
    repeat case_match; try done; (apply IHl || apply IHg);
      (apply (later_than_subseteq (B' ++ [b]) A); [done| |set_solver]);
      (etrans; [apply upto_subseteq|set_solver]).
Qed.

Lemma MergeHigh_agree minGallop A B :
  later_than B A ->
  MergeHigh Compare1 minGallop A B = MergeHigh Compare2 minGallop A B.
Proof.
  intros. unfold MergeHigh.
  destruct (last_split A) as [[A' a]|] eqn:EA; [|done].
  apply last_split_Some in EA. subst A.
  repeat case_match; try done.
  apply MergeHigh_loops_agree. part_of_runs.
Qed.

Lemma MergeAt_runs_agree minGallop A B :
  later_than B A ->
  MergeAt_runs Compare1 minGallop A B = MergeAt_runs Compare2 minGallop A B.
Proof.
  intros Hlater. unfold MergeAt_runs. destruct B as [|keyRight B']; [done|].
  cbv zeta.
  rewrite (GallopRight_agree A keyRight 0) by part_of_runs.
  set (k := GallopRight Compare2 A keyRight 0).
  destruct (len _ =? 0); [done|].
  destruct (last_split (from k A)) as [[Y keyLeft]|] eqn:EA; [|done].
  apply last_split_Some in EA.
  assert (Y ++ [keyLeft] ⊆ A) as HA by (rewrite <- EA; apply from_subseteq).
  set (B := keyRight :: B') in *.
  rewrite (GallopLeft_agree B keyLeft (len B - 1))
    by (apply (later_than_subseteq B A); [done|set_solver..]).
  set (lengthB := GallopLeft Compare2 B keyLeft (len B - 1)).
  destruct (_ =? 0); [done|].
  assert (later_than (upto lengthB B) (from k A)) by part_of_runs.
  destruct (_ <=? _); [by rewrite MergeLow_agree | by rewrite MergeHigh_agree].
Qed.

Lemma MergeAt_agree i sortState :
  runs_in_entry_order (pendingRuns sortState) ->
  MergeAt Compare1 i sortState = MergeAt Compare2 i sortState.
Proof.
  intros Hruns. unfold MergeAt.
  destruct (at_index _ i) as [A|] eqn:HA; [|done].
  destruct (at_index _ (i + 1)) as [B|] eqn:HB; [|done].
  rewrite MergeAt_runs_agree; [done|].
  rewrite (at_index_split2 _ i A B HA HB) in Hruns.
  apply StronglySorted_app_1_r, StronglySorted_cons in Hruns as [HA' _].
  by apply Forall_cons in HA' as [? _].
Qed.

Lemma MergeCollapse_loop_agree fuel sortState :
  runs_in_entry_order (pendingRuns sortState) ->
  MergeCollapse_loop Compare1 fuel sortState
  = MergeCollapse_loop Compare2 fuel sortState.
Proof.
  revert sortState. induction fuel as [|fuel IH]; intros sortState Hruns; simpl; [done|].
  repeat case_match; try done;
    (rewrite (MergeAt_agree _ sortState Hruns);
     apply IH, MergeAt_in_entry_order, Hruns).
Qed.

Lemma MergeForceCollapse_loop_agree fuel sortState :
  runs_in_entry_order (pendingRuns sortState) ->
  MergeForceCollapse_loop Compare1 fuel sortState
  = MergeForceCollapse_loop Compare2 fuel sortState.
Proof.
  revert sortState. induction fuel as [|fuel IH]; intros sortState Hruns; simpl; [done|].
  repeat case_match; try done;
    (rewrite (MergeAt_agree _ sortState Hruns);
     apply IH, MergeAt_in_entry_order, Hruns).
Qed.

Lemma next_run_agree minRunLength remaining :
  remaining <> [] -> in_entry_order remaining ->
  next_run Compare1 minRunLength remaining = next_run Compare2 minRunLength remaining.
Proof.
  intros Hne Hrem. unfold next_run. rewrite (CountAndMakeRun_agree remaining Hrem).
  pose proof (CountAndMakeRun_length Compare2 remaining Hne) as Hlen.
  pose proof (CountAndMakeRun_Permutation Compare2 remaining) as Hperm.
  destruct (CountAndMakeRun_parts Compare2 remaining Hne) as [Hrun Hrest].
  destruct (CountAndMakeRun _ _) as [currentRunLength a]. simpl in *.
  destruct (Z.ltb_spec currentRunLength minRunLength); [|done].
  set (forcedRunLength := Z.min minRunLength (len remaining)).
  assert (len a = len remaining) as Hla by (by apply len_Permutation).
  assert (currentRunLength <= forcedRunLength <= len a)
    by (unfold forcedRunLength; lia).
  rewrite BinaryInsertionSort_agree; [done|lia|..].
  - rewrite upto_upto, from_upto, Hrest by lia.
    intros x' y Hx Hy. rewrite Hrun in Hy.
    apply (in_entry_order_later_than currentRunLength remaining Hrem); [|done].
    revert Hx. apply upto_subseteq.
  - rewrite from_upto, Hrest by lia.
    by apply in_entry_order_upto, in_entry_order_from.
Qed.

Lemma ArrayTimSortImpl_loop_agree fuel minRunLength sortState remaining :
  runs_in_entry_order (pendingRuns sortState) ->
  in_entry_order remaining ->
  later_than remaining (concat (pendingRuns sortState)) ->
  ArrayTimSortImpl_loop Compare1 fuel minRunLength sortState remaining
  = ArrayTimSortImpl_loop Compare2 fuel minRunLength sortState remaining
  /\ runs_in_entry_order
       (pendingRuns
          (ArrayTimSortImpl_loop Compare2 fuel minRunLength sortState remaining).1).
Proof.
  revert sortState remaining.
  induction fuel as [|fuel IH]; intros sortState remaining Hruns Hrem Hlater; [done|].
  rewrite !ArrayTimSortImpl_loop_unfold.
  destruct (Z.eqb_spec (len remaining) 0) as [|Hne]; [done|].
  assert (remaining <> []) as Hne' by (by intros ->).
  rewrite (next_run_agree minRunLength remaining Hne' Hrem).
  destruct (next_run_parts Compare2 minRunLength remaining Hne') as [Hrun Hrest].
  pose proof (next_run_length Compare2 minRunLength remaining Hne') as Hlen.
  destruct (next_run _ _ _) as [currentRunLength a]. simpl in *.
  assert (runs_in_entry_order
            (pendingRuns (PushRun sortState (upto currentRunLength a)))) as Hpushed.
  { simpl. apply StronglySorted_app. split; [|split; [done|]].
    - intros X Y HX HY%list_elem_of_singleton y x Hy Hx. subst Y.
      rewrite Hrun in Hy. apply Hlater; [by apply (upto_subseteq currentRunLength)|].
      by apply (elem_of_concat_2 x X).
    - repeat constructor. }
  unfold MergeCollapse.
  rewrite (MergeCollapse_loop_agree _ _ Hpushed). apply IH.
  - by apply MergeCollapse_loop_in_entry_order.
  - rewrite Hrest. by apply in_entry_order_from.
  - rewrite Hrest. intros x y Hx Hy.
    rewrite MergeCollapse_loop_Permutation in Hy. simpl in Hy.
    rewrite concat_app in Hy. simpl in Hy. rewrite app_nil_r in Hy.
    apply elem_of_app in Hy as [Hy|Hy].
    + apply Hlater; [by apply (from_subseteq currentRunLength)|done].
    + rewrite Hrun in Hy.
      by apply (in_entry_order_later_than currentRunLength remaining Hrem).
Qed.

(** Sorting an array with either comparator gives the same array. *)
Theorem ArrayTimSortImpl_agree workArray :
  in_entry_order workArray ->
  ArrayTimSortImpl Compare1 workArray = ArrayTimSortImpl Compare2 workArray.
Proof.
  intros Hwork. unfold ArrayTimSortImpl. destruct (_ <? 2); [done|].
  destruct (ArrayTimSortImpl_loop_agree (length workArray)
    (ComputeMinRunLength (len workArray))
    {| pendingRuns := []; minGallop := kMinGallopWins |} workArray)
    as [-> Hruns]; [constructor | done | by intros x y _ ?%elem_of_nil |].
  destruct (ArrayTimSortImpl_loop _ _ _ _ _) as [sortState remaining].
  unfold MergeForceCollapse. simpl in Hruns.
  by rewrite (MergeForceCollapse_loop_agree _ _ Hruns).
Qed.

End Agreement.
End EntryOrder.

(** ** Arrays that are one run

    An array on which every comparison of an element with its
    predecessor gives the same kind of answer is one run for
    [CountAndMakeRun]; the sort reverses it when the answers are
    negative and leaves it as it is when none is. *)
Section OneRun.
Context {T : Type} (Compare : T -> T -> Z).
Implicit Types (a : list T).

Lemma ComputeMinRunLength_loop_le fuel n r :
  0 <= n -> 0 <= r <= 1 -> ComputeMinRunLength_loop fuel n r <= n + r.
Proof.
  revert n r. induction fuel as [|fuel IH]; intros n r Hn Hr; simpl; [lia|].
  destruct (Z.leb_spec 64 n); [|lia].
  rewrite shiftr_1.
  pose proof (Z.div_pos n 2). pose proof (Z.div_lt n 2).
  assert (n / 2 + 1 <= n) by (Z.div_mod_to_equations; lia).
  assert (0 <= Z.lor r (Z.land n 1) <= 1) as Hr'.
  { assert (Z.land n 1 = n mod 2) as ->
      by (change 1 with (Z.ones 1); by rewrite Z.land_ones by lia).
    pose proof (Z.mod_pos_bound n 2).
    assert (r = 0 \/ r = 1) as [->| ->] by lia;
      assert (n mod 2 = 0 \/ n mod 2 = 1) as [->| ->] by lia;
      rewrite ?Z.lor_0_l, ?Z.lor_0_r, ?Z.lor_diag; lia. }
  specialize (IH (n / 2) _ ltac:(lia) Hr'). lia.
Qed.

Lemma ComputeMinRunLength_le n : 0 <= n -> ComputeMinRunLength n <= n.
Proof.
  intros. unfold ComputeMinRunLength.
  pose proof (ComputeMinRunLength_loop_le (Z.to_nat n) n 0). lia.
Qed.

Lemma CountAndMakeRun_scan_descending_all previous rest runLength :
  Sorted (fun x y => Compare y x < 0) (previous :: rest) ->
  CountAndMakeRun_scan Compare true previous rest runLength = runLength + len rest.
Proof.
  revert previous runLength.
  induction rest as [|current rest IH]; intros previous runLength Hs; simpl.
  { rewrite len_nil. lia. }
  apply Sorted_inv in Hs as [Hrest Hprev]. apply HdRel_inv in Hprev.
  destruct (Z.leb_spec 0 (Compare current previous)); [lia|].
  rewrite IH by done. rewrite len_cons. lia.
Qed.

Lemma CountAndMakeRun_scan_ascending_all previous rest runLength :
  Sorted (fun x y => 0 <= Compare y x) (previous :: rest) ->
  CountAndMakeRun_scan Compare false previous rest runLength = runLength + len rest.
Proof.
  revert previous runLength.
  induction rest as [|current rest IH]; intros previous runLength Hs; simpl.
  { rewrite len_nil. lia. }
  apply Sorted_inv in Hs as [Hrest Hprev]. apply HdRel_inv in Hprev.
  destruct (Z.ltb_spec (Compare current previous) 0); [lia|].
  rewrite IH by done. rewrite len_cons. lia.
Qed.

Lemma ArrayTimSortImpl_loop_done fuel minRunLength sortState :
  ArrayTimSortImpl_loop Compare fuel minRunLength sortState []
  = (sortState, []).
Proof. by destruct fuel. Qed.

(** The sort of an array that [CountAndMakeRun] takes for one run. *)
Lemma ArrayTimSortImpl_one_run a sorted :
  2 <= len a -> CountAndMakeRun Compare a = (len a, sorted) -> len sorted = len a ->
  ArrayTimSortImpl Compare a = sorted.
Proof.
  intros Hlong Hrun Hlen. unfold ArrayTimSortImpl.
  destruct (Z.ltb_spec (len a) 2); [lia|].
  destruct (length a) as [|fuel] eqn:Hfuel; [unfold len in Hlong; lia|].
  rewrite ArrayTimSortImpl_loop_unfold.
  destruct (Z.eqb_spec (len a) 0); [lia|].
  unfold next_run. rewrite Hrun.
  pose proof (ComputeMinRunLength_le (len a) ltac:(lia)).
  destruct (Z.ltb_spec (len a) (ComputeMinRunLength (len a))); [lia|].
  rewrite from_all, upto_all by lia.
  rewrite ArrayTimSortImpl_loop_done. simpl. by rewrite !app_nil_r.
Qed.

Theorem ArrayTimSortImpl_descending a :
  Sorted (fun x y => Compare y x < 0) a -> ArrayTimSortImpl Compare a = reverse a.
Proof.
  intros Hs. destruct (Z.ltb_spec (len a) 2) as [Hshort|Hlong].
  { unfold ArrayTimSortImpl. destruct (Z.ltb_spec (len a) 2); [|lia].
    destruct a as [|x [|y rest]]; [done..|].
    rewrite !len_cons in Hshort. pose proof (len_nonneg rest). lia. }
  apply ArrayTimSortImpl_one_run; [done| |unfold len; by rewrite length_reverse].
  destruct a as [|x [|y rest]]; [rewrite ?len_cons, ?len_nil in Hlong; lia..|].
  set (a := x :: y :: rest) in *.
  unfold CountAndMakeRun. subst a.
  apply Sorted_inv in Hs as [Hs Hx]. apply HdRel_inv in Hx.
  destruct (Z.ltb_spec (Compare y x) 0); [|lia]. cbv zeta.
  rewrite CountAndMakeRun_scan_descending_all by done.
  replace (2 + len rest) with (len (x :: y :: rest)) by (rewrite !len_cons; lia).
  f_equal. rewrite ReverseRange_0, from_all, upto_all by lia.
  by rewrite app_nil_r.
Qed.

Theorem ArrayTimSortImpl_ascending a :
  Sorted (fun x y => 0 <= Compare y x) a -> ArrayTimSortImpl Compare a = a.
Proof.
  intros Hs. destruct (Z.ltb_spec (len a) 2) as [Hshort|Hlong].
  { unfold ArrayTimSortImpl. by destruct (Z.ltb_spec (len a) 2); [|lia]. }
  apply ArrayTimSortImpl_one_run; [done| |done].
  destruct a as [|x [|y rest]]; [rewrite ?len_cons, ?len_nil in Hlong; lia..|].
  unfold CountAndMakeRun.
  apply Sorted_inv in Hs as [Hs Hx]. apply HdRel_inv in Hx.
  destruct (Z.ltb_spec (Compare y x) 0); [lia|]. cbv zeta.
  rewrite CountAndMakeRun_scan_ascending_all by done.
  f_equal. rewrite !len_cons. lia.
Qed.

End OneRun.

End V8Facts.

(** * Facts about the sort with a comparator that may throw *)

Module AbruptFacts.
Import V8 V8Facts.

(** ** A comparator that does not throw

    When the comparator completes normally on the elements of the array,
    the sort completes normally, with the array that the sort of [V8]
    gives for the numbers the comparator returns. *)
Section Completes.
Context {T : Type} (CompareM : T -> T -> Completion Z) (Compare : T -> T -> Z).
Context (P : T -> Prop).
Hypothesis completes :
  forall x y, P x -> P y -> CompareM x y = Normal (Compare x y).
Implicit Types (a A B dest : list T).

Ltac all_P :=
  repeat match goal with
  | H : Forall P (_ :: _) |- _ => apply Forall_cons in H as [? ?]
  | H : Forall P (_ ++ _) |- _ => apply Forall_app in H as [? ?]
  | H : Forall P [] |- _ => clear H
  end;
  repeat first
    [ done
    | apply Forall_cons; split
    | apply Forall_app; split
    | apply Forall_nil
    | apply Forall_take
    | apply Forall_drop ].

Lemma at_index_P a i x : Forall P a -> at_index a i = Some x -> P x.
Proof.
  intros Ha Hx. rewrite Forall_forall in Ha. eapply Ha, at_index_elem_of, Hx.
Qed.

Lemma CountAndMakeRun_scan_completes isDescending previous rest runLength :
  Forall P (previous :: rest) ->
  Abrupt.CountAndMakeRun_scan CompareM isDescending previous rest runLength
  = Normal (CountAndMakeRun_scan Compare isDescending previous rest runLength).
Proof.
  revert previous runLength.
  induction rest as [|current rest IH]; intros previous runLength HP; [done|].
  simpl. rewrite completes by all_P. simpl.
  destruct (if isDescending then _ else _); [done|]. apply IH. all_P.
Qed.

Lemma CountAndMakeRun_completes a :
  Forall P a ->
  Abrupt.CountAndMakeRun CompareM a = Normal (CountAndMakeRun Compare a).
Proof.
  intros HP. destruct a as [|x [|y rest]]; [done..|]. simpl.
  rewrite completes by all_P. simpl.
  rewrite CountAndMakeRun_scan_completes by all_P. done.
Qed.

Lemma BinaryInsertionSort_search_completes fuel a pivot left right :
  Forall P a -> P pivot ->
  Abrupt.BinaryInsertionSort_search CompareM fuel a pivot left right
  = Normal (BinaryInsertionSort_search Compare fuel a pivot left right).
Proof.
  intros Ha Hp. revert left right.
  induction fuel as [|fuel IH]; intros left right; simpl; [done|].
  destruct (left <? right); [|done].
  destruct (at_index a _) as [midElement|] eqn:Hmid; [|done].
  rewrite completes by eauto using at_index_P. simpl.
  destruct (_ <? 0); apply IH.
Qed.

Lemma BinaryInsertionSort_loop_completes todo a start :
  0 <= start -> Forall P a ->
  Abrupt.BinaryInsertionSort_loop CompareM todo a start
  = Normal (BinaryInsertionSort_loop Compare todo a start).
Proof.
  revert a start. induction todo as [|todo IH]; intros a start Hs Ha; simpl; [done|].
  destruct (at_index a start) as [pivot|] eqn:Hpivot; [|done].
  rewrite BinaryInsertionSort_search_completes by eauto using at_index_P.
  simpl. apply IH; [lia|].
  rewrite slide_in_Permutation; [done|done|].
  apply BinaryInsertionSort_search_bounds. lia.
Qed.

Lemma BinaryInsertionSort_completes a startArg :
  0 <= startArg -> Forall P a ->
  Abrupt.BinaryInsertionSort CompareM a startArg
  = Normal (BinaryInsertionSort Compare a startArg).
Proof.
  intros. unfold Abrupt.BinaryInsertionSort, BinaryInsertionSort.
  apply BinaryInsertionSort_loop_completes; [destruct (_ =? 0); lia | done].
Qed.

Lemma Gallop_extend_completes fuel stopM (stop : Z -> bool) maxOfs lastOfs offset :
  (forall ofs, stopM ofs = Normal (stop ofs)) ->
  Abrupt.Gallop_extend fuel stopM maxOfs lastOfs offset
  = Normal (Gallop_extend fuel stop maxOfs lastOfs offset).
Proof.
  intros Hstop. revert lastOfs offset.
  induction fuel as [|fuel IH]; intros; simpl; [done|].
  destruct (_ <? _); [|done]. rewrite Hstop. simpl.
  destruct (stop offset); [done|apply IH].
Qed.

Lemma Gallop_bisect_completes fuel rightM (right : Z -> bool) lastOfs offset :
  (forall m, rightM m = Normal (right m)) ->
  Abrupt.Gallop_bisect fuel rightM lastOfs offset
  = Normal (Gallop_bisect fuel right lastOfs offset).
Proof.
  intros Hright. revert lastOfs offset.
  induction fuel as [|fuel IH]; intros; simpl; [done|].
  destruct (_ <? _); [|done]. rewrite Hright. simpl.
  destruct (right _); apply IH.
Qed.

Lemma GallopLeft_order_completes a key i :
  Forall P a -> P key ->
  Abrupt.GallopLeft_order CompareM a key i = Normal (GallopLeft_order Compare a key i).
Proof.
  intros Ha Hk. unfold Abrupt.GallopLeft_order, GallopLeft_order.
  destruct (at_index a i) eqn:Hi; [|done]. eauto using at_index_P.
Qed.

Lemma GallopRight_order_completes a key i :
  Forall P a -> P key ->
  Abrupt.GallopRight_order CompareM a key i = Normal (GallopRight_order Compare a key i).
Proof.
  intros Ha Hk. unfold Abrupt.GallopRight_order, GallopRight_order.
  destruct (at_index a i) eqn:Hi; [|done]. eauto using at_index_P.
Qed.

Lemma GallopLeft_completes a key hint :
  Forall P a -> P key ->
  Abrupt.GallopLeft CompareM a key hint = Normal (GallopLeft Compare a key hint).
Proof.
  intros Ha Hk. unfold Abrupt.GallopLeft, GallopLeft. cbv zeta.
  rewrite GallopLeft_order_completes by done. simpl.
  destruct (_ <? 0).
  - rewrite (Gallop_extend_completes _ _
      (fun ofs => 0 <=? GallopLeft_order Compare a key (hint + ofs)))
      by (intros; by rewrite GallopLeft_order_completes).
    simpl. destruct (Gallop_extend _ _ _ _ _) as [lastOfs offset]. simpl.
    apply Gallop_bisect_completes. intros. by rewrite GallopLeft_order_completes.
  - rewrite (Gallop_extend_completes _ _
      (fun ofs => GallopLeft_order Compare a key (hint - ofs) <? 0))
      by (intros; by rewrite GallopLeft_order_completes).
    simpl. destruct (Gallop_extend _ _ _ _ _) as [lastOfs offset]. simpl.
    apply Gallop_bisect_completes. intros. by rewrite GallopLeft_order_completes.
Qed.

Lemma GallopRight_completes a key hint :
  Forall P a -> P key ->
  Abrupt.GallopRight CompareM a key hint = Normal (GallopRight Compare a key hint).
Proof.
  intros Ha Hk. unfold Abrupt.GallopRight, GallopRight. cbv zeta.
  rewrite GallopRight_order_completes by done. simpl.
  destruct (_ <? 0).
  - rewrite (Gallop_extend_completes _ _
      (fun ofs => 0 <=? GallopRight_order Compare a key (hint - ofs)))
      by (intros; by rewrite GallopRight_order_completes).
    simpl. destruct (Gallop_extend _ _ _ _ _) as [lastOfs offset]. simpl.
    apply Gallop_bisect_completes. intros. by rewrite GallopRight_order_completes.
  - rewrite (Gallop_extend_completes _ _
      (fun ofs => GallopRight_order Compare a key (hint + ofs) <? 0))
      by (intros; by rewrite GallopRight_order_completes).
    simpl. destruct (Gallop_extend _ _ _ _ _) as [lastOfs offset]. simpl.
    apply Gallop_bisect_completes. intros. by rewrite GallopRight_order_completes.
Qed.

Lemma Forall_upto n a : Forall P a -> Forall P (upto n a).
Proof. apply Forall_take. Qed.

Lemma Forall_from n a : Forall P a -> Forall P (from n a).
Proof. apply Forall_drop. Qed.

Ltac parts_P :=
  repeat match goal with
  | H : Forall P (_ :: _) |- _ => apply Forall_cons in H as [? ?]
  | H : Forall P (_ ++ _) |- _ => apply Forall_app in H as [? ?]
  | H : Forall P [_] |- _ => apply Forall_singleton in H
  end;
  repeat first
    [ done
    | apply Forall_cons; split
    | apply Forall_app; split
    | apply Forall_nil
    | apply Forall_upto
    | apply Forall_from ].

Lemma MergeLow_loops_completes fuel :
  (forall minGallop nofWinsA nofWinsB dest A B,
     Forall P A -> Forall P B ->
     Abrupt.MergeLow_linear CompareM fuel minGallop nofWinsA nofWinsB dest A B
     = Normal (MergeLow_linear Compare fuel minGallop nofWinsA nofWinsB dest A B))
  /\ (forall minGallop dest A B,
     Forall P A -> Forall P B ->
     Abrupt.MergeLow_gallop CompareM fuel minGallop dest A B
     = Normal (MergeLow_gallop Compare fuel minGallop dest A B)).
Proof.
  induction fuel as [|fuel [IHl IHg]]; split; intros; simpl; [done..| |].
  - destruct A as [|a A'], B as [|b B']; try done.
    rewrite completes by parts_P. simpl.
    repeat case_match; try done; (apply IHl || apply IHg); parts_P.
  - destruct B as [|b B']; [done|].
    rewrite GallopRight_completes by parts_P. simpl.
    set (nofWinsA := GallopRight Compare A b 0).
    assert (Forall P (from nofWinsA A)) as HA by parts_P.
    destruct (_ && _); [done|]. destruct (_ && _); [done|].
    destruct (len B' =? 0); [done|].
    destruct (from nofWinsA A) as [|a A']; [done|].
    rewrite GallopLeft_completes by parts_P. simpl.
    repeat case_match; try done; (apply IHl || apply IHg); parts_P.
Qed.

Lemma MergeLow_completes minGallop A B :
  Forall P A -> Forall P B ->
  Abrupt.MergeLow CompareM minGallop A B = Normal (MergeLow Compare minGallop A B).
Proof.
  intros. unfold Abrupt.MergeLow, MergeLow. destruct B as [|b B']; [done|].
  repeat case_match; try done. apply MergeLow_loops_completes; parts_P.
Qed.

Lemma MergeHigh_loops_completes fuel :
  (forall minGallop nofWinsA nofWinsB A B dest,
     Forall P A -> Forall P B ->
     Abrupt.MergeHigh_linear CompareM fuel minGallop nofWinsA nofWinsB A B dest
     = Normal (MergeHigh_linear Compare fuel minGallop nofWinsA nofWinsB A B dest))
  /\ (forall minGallop A B dest,
     Forall P A -> Forall P B ->
     Abrupt.MergeHigh_gallop CompareM fuel minGallop A B dest
     = Normal (MergeHigh_gallop Compare fuel minGallop A B dest)).
Proof.
  induction fuel as [|fuel [IHl IHg]]; split; intros; simpl; [done..| |].
  - destruct (last_split A) as [[A' a]|] eqn:EA; [|done].
    destruct (last_split B) as [[B' b]|] eqn:EB; [|done].
    apply last_split_Some in EA, EB. subst A B.
    rewrite completes by parts_P. simpl.
    repeat case_match; try done; (apply IHl || apply IHg); parts_P.
  - destruct (last_split B) as [[B' b]|] eqn:EB; [|done].
    apply last_split_Some in EB. subst B.
    rewrite GallopRight_completes by parts_P. simpl.
    set (k := GallopRight Compare A b (len A - 1)).
    assert (Forall P (upto k A)) as HA by parts_P.
    destruct (_ && _); [done|]. destruct (len B' =? 1); [done|].
    destruct (last_split (upto k A)) as [[A' a]|] eqn:EA; [|done].
    apply last_split_Some in EA. rewrite EA in HA.
    rewrite GallopLeft_completes by parts_P. simpl.
    repeat case_match; try done; (apply IHl || apply IHg); parts_P.
Qed.

Lemma MergeHigh_completes minGallop A B :
  Forall P A -> Forall P B ->
  Abrupt.MergeHigh CompareM minGallop A B = Normal (MergeHigh Compare minGallop A B).
Proof.
  intros. unfold Abrupt.MergeHigh, MergeHigh.
  destruct (last_split A) as [[A' a]|] eqn:EA; [|done].
  apply last_split_Some in EA. subst A.
  repeat case_match; try done. apply MergeHigh_loops_completes; parts_P.
Qed.

Lemma MergeAt_runs_completes minGallop A B :
  Forall P A -> Forall P B ->
  Abrupt.MergeAt_runs CompareM minGallop A B
  = Normal (MergeAt_runs Compare minGallop A B).
Proof.
  intros HA HB. unfold Abrupt.MergeAt_runs, MergeAt_runs.
  destruct B as [|keyRight B']; [done|]. cbv zeta.
  rewrite GallopRight_completes by parts_P. simpl.
  set (k := GallopRight Compare A keyRight 0).
  assert (Forall P (from k A)) as HA' by parts_P.
  destruct (len _ =? 0); [done|].
  destruct (last_split (from k A)) as [[Y keyLeft]|] eqn:EA; [|done].
  apply last_split_Some in EA. rewrite EA in HA'.
  set (B := keyRight :: B') in *.
  rewrite GallopLeft_completes by parts_P. simpl.
  set (lengthB := GallopLeft Compare B keyLeft (len B - 1)).
  destruct (_ =? 0); [done|].
  assert (Forall P (upto lengthB B)) by parts_P.
  assert (Forall P (from k A)) by parts_P.
  destruct (_ <=? _).
  - rewrite MergeLow_completes by done. simpl. by destruct (MergeLow _ _ _ _).
  - rewrite MergeHigh_completes by done. simpl. by destruct (MergeHigh _ _ _ _).
Qed.

Local Abbreviation runs_P runs := (Forall (Forall P) runs).

Lemma MergeAt_completes i sortState :
  runs_P (pendingRuns sortState) ->
  Abrupt.MergeAt CompareM i sortState = Normal (MergeAt Compare i sortState).
Proof.
  intros Hruns. unfold Abrupt.MergeAt, MergeAt.
  destruct (at_index _ i) as [A|] eqn:HA; [|done].
  destruct (at_index _ (i + 1)) as [B|] eqn:HB; [|done].
  rewrite Forall_forall in Hruns.
  rewrite MergeAt_runs_completes
    by (eapply Hruns, at_index_elem_of; eassumption).
  simpl. by destruct (MergeAt_runs _ _ _ _).
Qed.

Lemma MergeAt_runs_P i sortState :
  runs_P (pendingRuns sortState) ->
  runs_P (pendingRuns (MergeAt Compare i sortState)).
Proof.
  intros Hruns. unfold MergeAt.
  destruct (at_index _ i) as [A|] eqn:HA; [|done].
  destruct (at_index _ (i + 1)) as [B|] eqn:HB; [|done].
  pose proof (MergeAt_runs_Permutation Compare (minGallop sortState) A B) as Hperm.
  destruct (MergeAt_runs _ _ _ _) as [merged mg]. simpl in *.
  pose proof Hruns as Hin. rewrite Forall_forall in Hin.
  apply Forall_app. split; [by apply Forall_take|].
  constructor; [|by apply Forall_drop].
  rewrite Hperm. apply Forall_app.
  split; eapply Hin, at_index_elem_of; eassumption.
Qed.

Lemma MergeCollapse_loop_runs_P fuel sortState :
  runs_P (pendingRuns sortState) ->
  runs_P (pendingRuns (MergeCollapse_loop Compare fuel sortState)).
Proof.
  revert sortState. induction fuel as [|fuel IH]; intros; simpl; [done|].
  repeat case_match; auto using MergeAt_runs_P.
Qed.

Lemma MergeCollapse_loop_completes fuel sortState :
  runs_P (pendingRuns sortState) ->
  Abrupt.MergeCollapse_loop CompareM fuel sortState
  = Normal (MergeCollapse_loop Compare fuel sortState).
Proof.
  revert sortState. induction fuel as [|fuel IH]; intros sortState Hruns; simpl; [done|].
  repeat case_match; try done;
    (rewrite MergeAt_completes by done; simpl; apply IH, MergeAt_runs_P, Hruns).
Qed.

Lemma MergeForceCollapse_loop_completes fuel sortState :
  runs_P (pendingRuns sortState) ->
  Abrupt.MergeForceCollapse_loop CompareM fuel sortState
  = Normal (MergeForceCollapse_loop Compare fuel sortState).
Proof.
  revert sortState. induction fuel as [|fuel IH]; intros sortState Hruns; simpl; [done|].
  repeat case_match; try done;
    (rewrite MergeAt_completes by done; simpl; apply IH, MergeAt_runs_P, Hruns).
Qed.

Lemma next_run_completes minRunLength remaining :
  remaining <> [] -> Forall P remaining ->
  Abrupt.next_run CompareM minRunLength remaining
  = Normal (next_run Compare minRunLength remaining).
Proof.
  intros Hne HP. unfold Abrupt.next_run, next_run.
  rewrite CountAndMakeRun_completes by done. simpl.
  pose proof (CountAndMakeRun_length Compare remaining Hne) as Hlen.
  pose proof (CountAndMakeRun_Permutation Compare remaining) as Hperm.
  destruct (CountAndMakeRun _ _) as [currentRunLength a]. simpl in *.
  destruct (_ <? _); [|done].
  rewrite BinaryInsertionSort_completes; [done|lia|].
  apply Forall_upto. by rewrite Hperm.
Qed.

Lemma ArrayTimSortImpl_loop_completes fuel minRunLength sortState remaining :
  runs_P (pendingRuns sortState) -> Forall P remaining ->
  Abrupt.ArrayTimSortImpl_loop CompareM fuel minRunLength sortState remaining
  = Normal (ArrayTimSortImpl_loop Compare fuel minRunLength sortState remaining)
  /\ runs_P (pendingRuns
       (ArrayTimSortImpl_loop Compare fuel minRunLength sortState remaining).1).
Proof.
  revert sortState remaining.
  induction fuel as [|fuel IH]; intros sortState remaining Hruns HP; [done|].
  rewrite ArrayTimSortImpl_loop_unfold.
  cbn [Abrupt.ArrayTimSortImpl_loop].
  destruct (Z.eqb_spec (len remaining) 0) as [|Hne]; [done|].
  assert (remaining <> []) as Hne' by (by intros ->).
  rewrite next_run_completes by done. simpl.
  pose proof (next_run_Permutation Compare minRunLength remaining Hne') as Hperm.
  destruct (next_run _ _ _) as [currentRunLength a]. simpl in *.
  assert (Forall P a) as Ha by (by rewrite Hperm).
  assert (runs_P (pendingRuns (PushRun sortState (upto currentRunLength a))))
    as Hpushed.
  { simpl. apply Forall_app. split; [done|]. apply Forall_singleton.
    by apply Forall_upto. }
  unfold Abrupt.MergeCollapse, MergeCollapse.
  rewrite MergeCollapse_loop_completes by done. simpl.
  apply IH; [by apply MergeCollapse_loop_runs_P | by apply Forall_from].
Qed.

(** The sort with a comparator that completes normally on the elements
    of the array completes normally, with the array of the sort of [V8]. *)
Theorem ArrayTimSortImpl_completes workArray :
  Forall P workArray ->
  Abrupt.ArrayTimSortImpl CompareM workArray
  = Normal (ArrayTimSortImpl Compare workArray).
Proof.
  intros HP. unfold Abrupt.ArrayTimSortImpl, ArrayTimSortImpl.
  destruct (_ <? 2); [done|].
  destruct (ArrayTimSortImpl_loop_completes (length workArray)
    (ComputeMinRunLength (len workArray))
    {| pendingRuns := []; minGallop := kMinGallopWins |} workArray)
    as [-> Hruns]; [constructor | done |].
  simpl. destruct (ArrayTimSortImpl_loop _ _ _ _ _) as [sortState remaining].
  unfold Abrupt.MergeForceCollapse, MergeForceCollapse. simpl in *.
  by rewrite MergeForceCollapse_loop_completes.
Qed.

End Completes.
End AbruptFacts.

(** * Facts about the post selector *)

Section Selector.
Implicit Types (env : Env) (post : CollectionEntry) (posts allPosts : list CollectionEntry).

Lemma number_lt_spec (x y : TimeValue) :
  number_lt x y = true <-> exists t1 t2, x = ms t1 /\ y = ms t2 /\ t1 < t2.
Proof.
  destruct x as [|t1], y as [|t2]; simpl;
    try (split; [done | by intros (? & ? & ? & ? & ?)]).
  rewrite Z.ltb_lt. split; [by eauto|].
  by intros (? & ? & [= <-] & [= <-] & ?).
Qed.

Lemma sort_callback_values post1 post2 :
  sort_callback post1 post2 = 1 \/ sort_callback post1 post2 = -1.
Proof. unfold sort_callback. destruct (isDateBefore _ _); auto. Qed.

Lemma sort_callback_negative post1 post2 :
  sort_callback post1 post2 < 0
  <-> isDateBefore (pubDate (data post1)) (pubDate (data post2)) = false.
Proof. unfold sort_callback. destruct (isDateBefore _ _); split; (done || lia). Qed.

Lemma valid_post_ms post :
  valid_post post -> exists t, getTime (pubDate (data post)) = ms t.
Proof.
  unfold valid_post, valid_date. destruct (getTime _); [done | eauto].
Qed.

Lemma sort_callback_not_earlier post1 post2 :
  valid_post post1 -> valid_post post2 ->
  sort_callback post1 post2 < 0 <-> not_earlier post1 post2.
Proof.
  intros [t1 H1]%valid_post_ms [t2 H2]%valid_post_ms.
  rewrite sort_callback_negative. unfold isDateBefore, not_earlier.
  rewrite H1, H2. simpl. rewrite Z.ltb_ge. split.
  - intros. by exists t1, t2.
  - by intros (? & ? & [= <-] & [= <-] & ?).
Qed.

Lemma sort_callback_total post1 post2 :
  valid_post post1 -> valid_post post2 ->
  sort_callback post1 post2 < 0 \/ sort_callback post2 post1 < 0.
Proof.
  intros [t1 H1]%valid_post_ms [t2 H2]%valid_post_ms.
  rewrite !sort_callback_negative. unfold isDateBefore.
  rewrite H1, H2. simpl. rewrite !Z.ltb_ge. lia.
Qed.

Lemma sort_callback_transitive post1 post2 post3 :
  valid_post post1 -> valid_post post2 -> valid_post post3 ->
  sort_callback post1 post2 < 0 -> sort_callback post2 post3 < 0 ->
  sort_callback post1 post3 < 0.
Proof.
  intros [t1 H1]%valid_post_ms [t2 H2]%valid_post_ms [t3 H3]%valid_post_ms.
  rewrite !sort_callback_negative. unfold isDateBefore.
  rewrite H1, H2, H3. simpl. rewrite !Z.ltb_ge. lia.
Qed.

Lemma StronglySorted_weaken {X : Type} (R R' : relation X) (l : list X) :
  (forall x y, R x y -> R' x y) -> StronglySorted R l -> StronglySorted R' l.
Proof.
  intros HR. induction 1 as [|x l ? IH Hx]; constructor; [done|].
  eapply Forall_impl; [exact Hx | auto].
Qed.

Lemma sorted_posts_not_earlier posts :
  Forall valid_post posts ->
  StronglySorted not_earlier (V8.ArrayPrototypeSort sort_callback posts).
Proof.
  intros Hvalid.
  destruct (V8Facts.ArrayTimSortImpl_run sort_callback valid_post
    sort_callback_total sort_callback_transitive posts Hvalid) as [_ Hsorted].
  eapply StronglySorted_weaken; [|exact Hsorted].
  intros x y (? & ? & ?). by apply sort_callback_not_earlier.
Qed.

Lemma sorted_posts_Permutation posts :
  V8.ArrayPrototypeSort sort_callback posts ≡ₚ posts.
Proof. apply V8Facts.ArrayTimSortImpl_Permutation. Qed.

Lemma selected_Permutation env allPosts :
  getPublishedAndSortedPosts env allPosts ≡ₚ passing env allPosts.
Proof. apply sorted_posts_Permutation. Qed.

Lemma passing_elem_of env allPosts post :
  post ∈ passing env allPosts <-> filter_callback env post = true /\ post ∈ allPosts.
Proof. unfold passing. by rewrite list_elem_of_filter. Qed.

Lemma passing_all env posts :
  Forall (fun post => filter_callback env post = true) posts ->
  passing env posts = posts.
Proof.
  unfold passing. induction 1 as [|post posts Hpost _ IH]; [done|].
  rewrite filter_cons_True by done. by rewrite IH.
Qed.

Lemma passing_passing env allPosts :
  Forall (fun post => filter_callback env post = true) (passing env allPosts).
Proof. apply Forall_forall. intros post. rewrite passing_elem_of. tauto. Qed.

Lemma occurrences_Permutation post posts1 posts2 :
  posts1 ≡ₚ posts2 -> occurrences post posts1 = occurrences post posts2.
Proof. unfold occurrences. by intros ->. Qed.

Lemma occurrences_passing env post allPosts :
  filter_callback env post = true ->
  occurrences post (passing env allPosts) = occurrences post allPosts.
Proof.
  intros Hpost. unfold occurrences, passing.
  induction allPosts as [|p allPosts IH]; [done|].
  rewrite (filter_cons (fun post0 => filter_callback env post0 = true)).
  rewrite (filter_cons (fun p0 => p0 = post) p allPosts).
  destruct (decide (filter_callback env p = true)) as [Hp|Hp].
  - rewrite (filter_cons (fun p0 => p0 = post)).
    destruct (decide (p = post)); simpl; by rewrite IH.
  - destruct (decide (p = post)) as [->|]; [done | by rewrite IH].
Qed.

Lemma StronglySorted_lookup {X : Type} (R : relation X) (l : list X) i j x y :
  StronglySorted R l -> (i < j)%nat -> l !! i = Some x -> l !! j = Some y -> R x y.
Proof.
  intros Hsorted Hij Hx Hy.
  rewrite <- (take_drop_middle l j y Hy) in Hsorted.
  eapply StronglySorted_app_1_elem_of; [exact Hsorted| |left].
  apply elem_of_take. eauto.
Qed.

Lemma valid_passing env allPosts :
  Forall valid_post allPosts -> Forall valid_post (passing env allPosts).
Proof.
  rewrite !Forall_forall. intros Hvalid post [_ ?]%passing_elem_of. auto.
Qed.

Lemma selected_sorted env allPosts :
  Forall valid_post (passing env allPosts) ->
  StronglySorted not_earlier (getPublishedAndSortedPosts env allPosts).
Proof. apply sorted_posts_not_earlier. Qed.

Lemma passing_selected env allPosts :
  passing env (getPublishedAndSortedPosts env allPosts)
  = getPublishedAndSortedPosts env allPosts.
Proof.
  apply passing_all. rewrite selected_Permutation. apply passing_passing.
Qed.

Lemma not_earlier_antisymmetric posts post1 post2 :
  NoDup (timestamps posts) -> post1 ∈ posts -> post2 ∈ posts ->
  not_earlier post1 post2 -> not_earlier post2 post1 -> post1 = post2.
Proof.
  intros Hnodup H1 H2 (t1 & t2 & E1 & E2 & ?) (t2' & t1' & E2' & E1' & ?).
  rewrite E1 in E1'. rewrite E2 in E2'.
  injection E1' as <-. injection E2' as <-.
  assert (t1 = t2) as -> by lia. clear -Hnodup H1 H2 E1 E2.
  unfold timestamps in Hnodup.
  induction posts as [|p posts IH]; [by apply elem_of_nil in H1|].
  rewrite fmap_cons in Hnodup. apply NoDup_cons in Hnodup as [Hp Hnodup].
  assert (forall q, q ∈ posts -> getTime (pubDate (data q)) = ms t2 ->
            getTime (pubDate (data p)) = ms t2 -> False) as Hclash.
  { intros q Hq Eq Ep. apply Hp. rewrite Ep, <- Eq.
    by apply (list_elem_of_fmap_2 (fun post => getTime (pubDate (data post)))). }
  apply elem_of_cons in H1 as [->|H1]; apply elem_of_cons in H2 as [->|H2];
    [done | by destruct (Hclash post2) | by destruct (Hclash post1) | auto].
Qed.

Lemma filter_callback_without_drafts post (showDraftPagesInProduction : bool) :
  filter_callback {| PROD := false; showDraftPages := false |} post
  = filter_callback
      {| PROD := true; showDraftPages := showDraftPagesInProduction |} post.
Proof. reflexivity. Qed.

(** The call leaves the store with one more array, the one it returns. *)
Lemma call_result env (store : Store) (allPosts : nat) posts :
  store !! allPosts = Some posts ->
  call_getPublishedAndSortedPosts env store allPosts
  = Normal (store ++ [getPublishedAndSortedPosts env posts], length store).
Proof.
  intros Hposts. unfold call_getPublishedAndSortedPosts, filter_method.
  rewrite Hposts. unfold allocate, sort_method.
  rewrite list_lookup_middle by done. do 2 f_equal.
  rewrite insert_app_r_alt by done. by rewrite Nat.sub_diag.
Qed.

Lemma isDateBefore_is_tie_free (date1 date2 : Date) :
  getTime date1 = getTime date2 ->
  isDateBefore date1 date2 = false /\ isDateBefore date2 date1 = false.
Proof.
  unfold isDateBefore. intros ->.
  destruct (getTime date2); simpl; [done|]. by rewrite Z.ltb_irrefl.
Qed.
End Selector.

(** * The filter and the comparator against their descriptions *)

Section Policy.
Lemma filter_callback_policy (env : Env) (post : CollectionEntry) :
  filter_callback env post = true <-> kept_by_policy env post.
Proof.
  unfold filter_callback, kept_by_policy, is_draft.
  destruct (PROD env), (showDraftPages env), (draft (data post)) as [[|]|];
    simpl; split; (done || tauto || (intros [?|?]; done) || auto).
Qed.

Lemma passing_policy (env : Env) (posts : list CollectionEntry) :
  passing env posts = filter (kept_by_policy env) posts.
Proof. apply list_filter_iff. intros post. apply filter_callback_policy. Qed.

Lemma sort_callback_completes (post1 post2 : Runtime.CollectionEntry) :
  Runtime.dated post1 -> Runtime.dated post2 ->
  Runtime.sort_callback post1 post2 = Normal (Runtime.order_of post1 post2).
Proof.
  unfold Runtime.dated, Runtime.sort_callback, Runtime.order_of.
  intros [date1 ->] [date2 ->]. simpl. by destruct (number_lt _ _).
Qed.

Lemma at_run_time_sort_callback (post1 post2 : CollectionEntry) :
  Runtime.sort_callback (at_run_time post1) (at_run_time post2)
  = Normal (sort_callback post1 post2).
Proof.
  unfold Runtime.sort_callback, sort_callback, isDateBefore. simpl.
  by destruct (number_lt _ _).
Qed.

Lemma at_run_time_filter_callback (env : Env) (post : CollectionEntry) :
  Runtime.filter_callback env (at_run_time post) = filter_callback env post.
Proof. reflexivity. Qed.

(** On posts of the declared type the sort cannot throw: run with the
    comparator as it is at run time, it completes normally with the array
    that the sort with [sort_callback] gives. *)
Lemma sort_of_declared_posts_completes (posts : list CollectionEntry) :
  Abrupt.ArrayPrototypeSort
    (fun post1 post2 =>
       Runtime.sort_callback (at_run_time post1) (at_run_time post2)) posts
  = Normal (V8.ArrayPrototypeSort sort_callback posts).
Proof.
  apply (AbruptFacts.ArrayTimSortImpl_completes _ _ (fun _ => True)).
  - intros post1 post2 _ _. apply at_run_time_sort_callback.
  - by apply Forall_forall.
Qed.
End Policy.

(** The example of the specification: production mode drops the draft of
    June, preview mode with [showDraftPages] keeps it; both list the most
    recent post first. *)
Example three_posts_in_production :
  getPublishedAndSortedPosts production three_posts = [december; january].
Proof. reflexivity. Qed.

Example three_posts_in_preview :
  getPublishedAndSortedPosts preview three_posts = [december; june; january].
Proof. reflexivity. Qed.

(** Two posts with the same time value leave the sort in the reverse of
    the order they entered it: the comparator makes the pair look like a
    strictly descending run, which the sort reverses. *)
Lemma tied_pair_is_reversed (postA postB : CollectionEntry) :
  getTime (pubDate (data postA)) = getTime (pubDate (data postB)) ->
  V8.ArrayPrototypeSort sort_callback [postA; postB] = [postB; postA].
Proof.
  intros Htie.
  destruct (isDateBefore_is_tie_free _ _ Htie) as [_ HBA].
  unfold V8.ArrayPrototypeSort, V8.ArrayTimSortImpl. simpl.
  unfold sort_callback. rewrite HBA. reflexivity.
Qed.

(** * Posts with the same time value

    The comparator answers -1 on a tie whichever way round it is asked,
    and the sort always asks about a later and an earlier element, so it
    treats a tie as "the later one first". *)

Section Ties.
Implicit Types (env : Env) (post : CollectionEntry) (posts allPosts : list CollectionEntry).

Ltac times t1 t2 := exists t1, t2; split; [done|split; [done|lia]].

Lemma position_lookup post posts :
  post ∈ posts -> posts !! position post posts = Some post.
Proof.
  induction posts as [|p posts IH]; [by intros ?%elem_of_nil|].
  intros Hin. simpl. destruct (decide (p = post)) as [->|Hne]; [done|].
  apply elem_of_cons in Hin as [->|Hin]; [done|]. simpl. auto.
Qed.

Lemma lookup_position post posts (i : nat) :
  NoDup posts -> posts !! i = Some post -> position post posts = i.
Proof.
  intros Hnodup. revert i. induction posts as [|p posts IH]; intros i Hi; [done|].
  apply NoDup_cons in Hnodup as [Hp Hnodup]. simpl.
  destruct (decide (p = post)) as [->|Hne].
  - destruct i as [|i]; [done|]. simpl in Hi.
    destruct Hp. by eapply list_elem_of_lookup_2.
  - destruct i as [|i]; simpl in Hi; [congruence|]. f_equal. auto.
Qed.

Lemma listed_before_position posts post1 post2 :
  post1 ∈ posts -> post2 ∈ posts ->
  (position post1 posts < position post2 posts)%nat ->
  listed_before posts post1 post2.
Proof.
  intros H1 H2 Hlt. exists (position post1 posts), (position post2 posts).
  auto using position_lookup.
Qed.

Lemma listed_before_asymmetric posts post1 post2 :
  NoDup posts -> listed_before posts post1 post2 -> listed_before posts post2 post1 ->
  False.
Proof.
  intros Hnodup (i & j & Hij & Hi & Hj) (j' & i' & Hji & Hj' & Hi').
  rewrite <- (lookup_position _ _ _ Hnodup Hi) in Hij.
  rewrite <- (lookup_position _ _ _ Hnodup Hj) in Hij.
  rewrite <- (lookup_position _ _ _ Hnodup Hi') in Hji.
  rewrite <- (lookup_position _ _ _ Hnodup Hj') in Hji. lia.
Qed.

Lemma listed_before_sublist posts1 posts2 post1 post2 :
  sublist posts1 posts2 ->
  listed_before posts1 post1 post2 -> listed_before posts2 post1 post2.
Proof.
  induction 1 as [|p l1 l2 Hsub IH|p l1 l2 Hsub IH];
    intros (i & j & Hij & Hi & Hj).
  - done.
  - destruct j as [|j]; [lia|]. simpl in Hj. destruct i as [|i]; simpl in Hi.
    + assert (post2 ∈ l2) as [j' Hj']%list_elem_of_lookup_1.
      { eapply sublist_subseteq; [done|]. by eapply list_elem_of_lookup_2. }
      exists 0%nat, (S j'). split; [lia|done].
    + destruct IH as (i' & j' & ? & ? & ?); [exists i, j; split; [lia|done]|].
      exists (S i'), (S j'). split; [lia|done].
  - destruct IH as (i' & j' & ? & ? & ?); [by exists i, j|].
    exists (S i'), (S j'). split; [lia|done].
Qed.

Lemma listed_before_passing env allPosts post1 post2 :
  listed_before (passing env allPosts) post1 post2 ->
  listed_before allPosts post1 post2.
Proof. apply listed_before_sublist, sublist_filter. Qed.

Lemma listed_before_sorted (R : relation CollectionEntry) posts post1 post2 :
  StronglySorted R posts -> listed_before posts post1 post2 -> R post1 post2.
Proof. intros Hsorted (i & j & ? & ? & ?). by eapply StronglySorted_lookup. Qed.

Lemma StronglySorted_lookup_2 {X : Type} (R : relation X) (l : list X) :
  (forall i j x y, (i < j)%nat -> l !! i = Some x -> l !! j = Some y -> R x y) ->
  StronglySorted R l.
Proof.
  induction l as [|x l IH]; intros HR; constructor.
  - apply IH. intros i j y z Hij Hy Hz. by apply (HR (S i) (S j)); [lia|..].
  - apply Forall_forall. intros y [j Hj]%list_elem_of_lookup_1.
    by apply (HR 0%nat (S j)); [lia|..].
Qed.

Lemma sort_callback_by_position_negative posts post1 post2 :
  sort_callback_by_position posts post1 post2 < 0
  <-> sort_callback post1 post2 < 0
      /\ ~ (getTime (pubDate (data post1)) = getTime (pubDate (data post2))
            /\ (position post1 posts < position post2 posts)%nat).
Proof.
  unfold sort_callback_by_position, sort_callback.
  destruct (isDateBefore _ _); [split; [lia | intros [? _]; lia]|].
  destruct (decide _); split; (lia || tauto).
Qed.

(** On a post and one that stands before it, the two comparators agree. *)
Lemma sort_callback_agree posts post1 post2 :
  (position post2 posts < position post1 posts)%nat ->
  (sort_callback post1 post2 <? 0) = (sort_callback_by_position posts post1 post2 <? 0).
Proof.
  intros Hlater.
  pose proof (sort_callback_by_position_negative posts post1 post2) as H.
  destruct (Z.ltb_spec (sort_callback post1 post2) 0);
    destruct (Z.ltb_spec (sort_callback_by_position posts post1 post2) 0);
    try done; exfalso.
  - assert (~ sort_callback_by_position posts post1 post2 < 0) as Hno by lia.
    apply Hno, H. split; [done|]. intros [_ ?]. lia.
  - assert (sort_callback post1 post2 < 0) by tauto. lia.
Qed.

Lemma sort_callback_by_position_total posts post1 post2 :
  valid_post post1 -> valid_post post2 ->
  sort_callback_by_position posts post1 post2 < 0
  \/ sort_callback_by_position posts post2 post1 < 0.
Proof.
  intros H1 H2. rewrite !sort_callback_by_position_negative.
  rewrite !sort_callback_not_earlier by done.
  destruct (valid_post_ms _ H1) as [t1 E1], (valid_post_ms _ H2) as [t2 E2].
  unfold not_earlier. rewrite E1, E2.
  destruct (Z.lt_trichotomy t1 t2) as [?|[->|?]].
  - right. split; [times t2 t1|]. intros [[= ?] _]. lia.
  - destruct (decide (position post1 posts < position post2 posts)%nat).
    + right. split; [times t2 t2|]. intros [_ ?]. lia.
    + left. split; [times t2 t2|]. intros [_ ?]. lia.
  - left. split; [times t1 t2|]. intros [[= ?] _]. lia.
Qed.

Lemma sort_callback_by_position_transitive posts post1 post2 post3 :
  valid_post post1 -> valid_post post2 -> valid_post post3 ->
  sort_callback_by_position posts post1 post2 < 0 ->
  sort_callback_by_position posts post2 post3 < 0 ->
  sort_callback_by_position posts post1 post3 < 0.
Proof.
  intros H1 H2 H3. rewrite !sort_callback_by_position_negative.
  rewrite !sort_callback_not_earlier by done.
  destruct (valid_post_ms _ H1) as [t1 E1], (valid_post_ms _ H2) as [t2 E2],
    (valid_post_ms _ H3) as [t3 E3].
  unfold not_earlier. rewrite E1, E2, E3.
  intros [(? & ? & [= <-] & [= <-] & ?) Hn12] [(? & ? & [= <-] & [= <-] & ?) Hn23].
  split; [times t1 t3|].
  intros [[= ->] Hlt].
  assert (t2 = t3) as -> by lia.
  destruct (decide (position post1 posts < position post2 posts)%nat);
    [by apply Hn12|].
  apply Hn23. split; [done|lia].
Qed.

Lemma NoDup_in_entry_order posts :
  NoDup posts ->
  V8.in_entry_order
    (fun post1 post2 => (position post2 posts < position post1 posts)%nat) posts.
Proof.
  intros Hnodup. apply StronglySorted_lookup_2. intros i j x y Hij Hi Hj.
  unfold flip.
  by rewrite (lookup_position _ _ _ Hnodup Hi), (lookup_position _ _ _ Hnodup Hj).
Qed.

(** The sort with [sort_callback] does what a sort would do whose
    comparator decided ties by the positions in the input. *)
Lemma sorted_posts_by_position posts :
  NoDup posts ->
  V8.ArrayPrototypeSort sort_callback posts
  = V8.ArrayPrototypeSort (sort_callback_by_position posts) posts.
Proof.
  intros Hnodup.
  apply (V8Facts.ArrayTimSortImpl_agree
    (fun post1 post2 => (position post2 posts < position post1 posts)%nat)).
  - intros post1 post2. apply sort_callback_agree.
  - by apply NoDup_in_entry_order.
Qed.

Lemma sorted_posts_newest_first posts :
  Forall valid_post posts -> NoDup posts ->
  StronglySorted (newest_first posts) (V8.ArrayPrototypeSort sort_callback posts).
Proof.
  intros Hvalid Hnodup.
  pose proof (sorted_posts_Permutation posts) as Hperm.
  assert (NoDup (V8.ArrayPrototypeSort sort_callback posts)) as Hnodup'
    by (by rewrite Hperm).
  destruct (V8Facts.ArrayTimSortImpl_run (sort_callback_by_position posts) valid_post
    (sort_callback_by_position_total posts)
    (sort_callback_by_position_transitive posts) posts Hvalid) as [_ Hsorted].
  fold (V8.ArrayPrototypeSort (sort_callback_by_position posts) posts) in Hsorted.
  rewrite <- sorted_posts_by_position in Hsorted by done.
  apply StronglySorted_lookup_2. intros i j post1 post2 Hij Hi Hj.
  pose proof (StronglySorted_lookup _ _ _ _ _ _ Hsorted Hij Hi Hj)
    as (H1 & H2 & [Hdate Htie]%sort_callback_by_position_negative).
  split; [by apply sort_callback_not_earlier|].
  intros Hsame. apply listed_before_position.
  - rewrite <- Hperm. by eapply list_elem_of_lookup_2.
  - rewrite <- Hperm. by eapply list_elem_of_lookup_2.
  - assert (~ (position post1 posts < position post2 posts)%nat) by tauto.
    assert (position post1 posts <> position post2 posts); [|lia].
    intros Hpos.
    assert (post1 ∈ posts) as Hin1%position_lookup
      by (rewrite <- Hperm; by eapply list_elem_of_lookup_2).
    assert (post2 ∈ posts) as Hin2%position_lookup
      by (rewrite <- Hperm; by eapply list_elem_of_lookup_2).
    rewrite Hpos, Hin2 in Hin1. injection Hin1 as ->.
    pose proof (NoDup_lookup _ _ _ _ Hnodup' Hi Hj). lia.
Qed.

Lemma newest_first_unique posts posts1 posts2 :
  NoDup posts ->
  StronglySorted (newest_first posts) posts1 ->
  StronglySorted (newest_first posts) posts2 ->
  posts1 ≡ₚ posts2 -> posts1 = posts2.
Proof.
  intros Hnodup. apply StronglySorted_unique_strong.
  intros post1 post2 _ _ [(t1 & t2 & E1 & E2 & ?) H12] [(t2' & t1' & E2' & E1' & ?) H21].
  rewrite E1 in E1'. rewrite E2 in E2'. injection E1' as <-. injection E2' as <-.
  assert (t1 = t2) as -> by lia.
  destruct (listed_before_asymmetric posts post1 post2 Hnodup).
  - apply H21. by rewrite E1, E2.
  - apply H12. by rewrite E1, E2.
Qed.

Lemma selected_newest_first env allPosts :
  Forall valid_post allPosts -> NoDup allPosts ->
  StronglySorted (newest_first (passing env allPosts))
    (getPublishedAndSortedPosts env allPosts).
Proof.
  intros Hvalid Hnodup. apply sorted_posts_newest_first.
  - by apply valid_passing.
  - by apply NoDup_filter.
Qed.

Lemma newest_first_passing env allPosts post1 post2 :
  newest_first (passing env allPosts) post1 post2 -> newest_first allPosts post1 post2.
Proof. intros [? Htie]. split; [done|]. intros. by apply (listed_before_passing env), Htie. Qed.

Lemma StronglySorted_filter {X : Type} (R : relation X) (P : X -> Prop)
    `{forall x, Decision (P x)} (l : list X) :
  StronglySorted R l -> StronglySorted R (filter P l).
Proof.
  induction 1 as [|x l Hl IH Hx]; [constructor|].
  rewrite filter_cons. destruct (decide (P x)); [|done].
  constructor; [done|]. rewrite Forall_forall in *.
  intros y [_ Hy]%list_elem_of_filter. auto.
Qed.

Lemma passing_Permutation env posts1 posts2 :
  posts1 ≡ₚ posts2 -> passing env posts1 ≡ₚ passing env posts2.
Proof. unfold passing. by intros ->. Qed.

Lemma not_earlier_refl post : valid_post post -> not_earlier post post.
Proof. intros [t Ht]%valid_post_ms. exists t, t. auto with lia. Qed.

Lemma Sorted_lookup_2 {X : Type} (R : relation X) (l : list X) :
  (forall i x y, l !! i = Some x -> l !! S i = Some y -> R x y) -> Sorted R l.
Proof.
  induction l as [|x l IH]; intros HR; constructor.
  - apply IH. intros i y z Hy Hz. by apply (HR (S i)).
  - destruct l as [|y l]; constructor. by apply (HR 0%nat).
Qed.

Lemma selected_valid env allPosts :
  Forall valid_post allPosts ->
  Forall valid_post (getPublishedAndSortedPosts env allPosts).
Proof. intros. rewrite selected_Permutation. by apply valid_passing. Qed.

Lemma selected_NoDup env allPosts :
  NoDup allPosts -> NoDup (getPublishedAndSortedPosts env allPosts).
Proof. intros. rewrite selected_Permutation. by apply NoDup_filter. Qed.

(** The output of the selector on its own output is in the order
    [newest_first] of that output. *)
Lemma selected_again_newest_first env allPosts :
  Forall valid_post allPosts -> NoDup allPosts ->
  StronglySorted (newest_first (getPublishedAndSortedPosts env allPosts))
    (getPublishedAndSortedPosts env (getPublishedAndSortedPosts env allPosts)).
Proof.
  intros Hvalid Hnodup.
  pose proof (selected_newest_first env (getPublishedAndSortedPosts env allPosts)
    (selected_valid env allPosts Hvalid) (selected_NoDup env allPosts Hnodup))
    as Hsorted.
  by rewrite passing_selected in Hsorted.
Qed.

(** Reversing the order of ties twice gives the order of ties back. *)
Lemma newest_first_twice posts posts1 posts2 post1 post2 :
  StronglySorted (newest_first posts) posts1 ->
  StronglySorted (newest_first posts1) posts2 ->
  newest_first posts2 post1 post2 -> newest_first posts post1 post2.
Proof.
  intros Hsorted1 Hsorted2 [Hdate Htie]. split; [done|]. intros Hsame.
  pose proof (listed_before_sorted _ _ _ _ Hsorted2 (Htie Hsame)) as [_ Htie2].
  pose proof (listed_before_sorted _ _ _ _ Hsorted1 (Htie2 (eq_sym Hsame)))
    as [_ Htie1].
  by apply Htie1.
Qed.

End Ties.

(** * The properties of the specification *)

(** C1: for every environment and every input, the output of
    [getPublishedAndSortedPosts] is a permutation of exactly the input
    posts that the draft policy of the specification keeps: every post of
    the output is an input post that the policy keeps, a post that the
    policy keeps occurs in the output exactly as often as in the input,
    and a post that it does not keep does not occur in the output. *)
Theorem output_is_permutation_of_passing_posts (env : Env)
    (allPosts : list CollectionEntry) :
  getPublishedAndSortedPosts env allPosts ≡ₚ filter (kept_by_policy env) allPosts
  /\ (forall post, post ∈ getPublishedAndSortedPosts env allPosts ->
        post ∈ allPosts /\ kept_by_policy env post)
  /\ (forall post, kept_by_policy env post ->
        occurrences post (getPublishedAndSortedPosts env allPosts)
        = occurrences post allPosts)
  /\ (forall post, ~ kept_by_policy env post ->
        post ∉ getPublishedAndSortedPosts env allPosts).
Proof.
  pose proof (selected_Permutation env allPosts) as Hperm.
  split; [by rewrite <- passing_policy|]. split; [|split].
  - intros post. rewrite Hperm, passing_elem_of, filter_callback_policy. tauto.
  - intros post Hpost%filter_callback_policy.
    rewrite (occurrences_Permutation _ _ _ Hperm). by apply occurrences_passing.
  - intros post Hpost. rewrite Hperm, passing_elem_of, filter_callback_policy. tauto.
Qed.

(** C2: in production mode every post of the output has a falsy [draft]
    field; no post with [draft = true] is in the output. *)
Theorem production_output_has_no_draft (env : Env)
    (allPosts : list CollectionEntry) :
  PROD env = true ->
  Forall (fun post => ToBoolean (draft (data post)) = false
                      /\ draft (data post) <> Some true)
    (getPublishedAndSortedPosts env allPosts).
Proof.
  intros Hprod. rewrite selected_Permutation. apply Forall_forall.
  intros post [Hpass _]%passing_elem_of.
  unfold filter_callback in Hpass. rewrite Hprod in Hpass.
  apply negb_true_iff in Hpass. split; [done|].
  intros Hdraft. by rewrite Hdraft in Hpass.
Qed.

Lemma production_output_has_no_draft_witness :
  PROD production = true
  /\ Forall (fun post => ToBoolean (draft (data post)) = false
                         /\ draft (data post) <> Some true)
       (getPublishedAndSortedPosts production three_posts).
Proof.
  split; [reflexivity|].
  apply (production_output_has_no_draft production three_posts). reflexivity.
Defined.

(** C3, as the code has it: when every post has a time value (the
    invariant of the data model), the output is ordered by [pubDate], most
    recent first: for all positions i < j, the post at i is not earlier
    than the post at j. *)
Theorem output_is_sorted_by_pubDate_descending (env : Env)
    (allPosts : list CollectionEntry) (i j : nat) (post_i post_j : CollectionEntry) :
  Forall valid_post allPosts ->
  (i < j)%nat ->
  getPublishedAndSortedPosts env allPosts !! i = Some post_i ->
  getPublishedAndSortedPosts env allPosts !! j = Some post_j ->
  not_earlier post_i post_j.
Proof.
  intros Hvalid. apply StronglySorted_lookup, selected_sorted.
  by apply valid_passing.
Qed.

Lemma output_is_sorted_by_pubDate_descending_witness :
  Forall valid_post three_posts
  /\ (0 < 1)%nat
  /\ getPublishedAndSortedPosts preview three_posts !! 0%nat = Some december
  /\ getPublishedAndSortedPosts preview three_posts !! 1%nat = Some june
  /\ not_earlier december june.
Proof.
  assert (Forall valid_post three_posts) as Hvalid by (by repeat constructor).
  split; [exact Hvalid|]. split; [lia|]. split; [reflexivity|].
  split; [reflexivity|].
  apply (output_is_sorted_by_pubDate_descending preview three_posts 0 1);
    [exact Hvalid | lia | reflexivity | reflexivity].
Defined.

(** C3, as stated, fails: with a post whose date did not parse among
    the posts, the output has January 2021 at position 0 and December
    2021 at position 2, although January is before December. *)
Lemma invalid_date_breaks_the_order :
  getPublishedAndSortedPosts production [december; undated; january] !! 0%nat
  = Some january
  /\ getPublishedAndSortedPosts production [december; undated; january] !! 2%nat
     = Some december
  /\ (0 < 2)%nat
  /\ isDateBefore (pubDate (data january)) (pubDate (data december)) = true
  /\ ~ not_earlier january december.
Proof.
  split; [reflexivity|]. split; [reflexivity|]. split; [lia|].
  split; [reflexivity|].
  intros (t1 & t2 & [= <-] & [= <-] & ?). lia.
Qed.

(** C4: outside production with [showDraftPages = false], the output is
    the one of production mode on the same input. *)
Theorem development_without_drafts_is_production
    (allPosts : list CollectionEntry) (showDraftPagesInProduction : bool) :
  getPublishedAndSortedPosts {| PROD := false; showDraftPages := false |} allPosts
  = getPublishedAndSortedPosts
      {| PROD := true; showDraftPages := showDraftPagesInProduction |} allPosts.
Proof.
  unfold getPublishedAndSortedPosts, ArrayPrototypeFilter.
  apply (f_equal (V8.ArrayPrototypeSort sort_callback)).
  apply list_filter_iff. intros post.
  by rewrite (filter_callback_without_drafts post showDraftPagesInProduction).
Qed.

(** C5: outside production with [showDraftPages = true] the filter keeps
    every post: the filtered posts are the input, and the output holds all
    input posts. *)
Theorem development_with_drafts_keeps_all (allPosts : list CollectionEntry) :
  ArrayPrototypeFilter
    (filter_callback {| PROD := false; showDraftPages := true |}) allPosts
  = allPosts
  /\ getPublishedAndSortedPosts {| PROD := false; showDraftPages := true |} allPosts
     ≡ₚ allPosts
  /\ (forall post, post ∈ allPosts ->
        post ∈ getPublishedAndSortedPosts
                 {| PROD := false; showDraftPages := true |} allPosts).
Proof.
  assert (passing {| PROD := false; showDraftPages := true |} allPosts = allPosts)
    as Hall by (apply passing_all, Forall_forall; done).
  split; [exact Hall|]. split.
  - by rewrite selected_Permutation, Hall.
  - intros post Hpost. by rewrite selected_Permutation, Hall.
Qed.

(** C7: [isDateBefore date1 date2] is true exactly when both dates have a
    time value and the first is strictly less than the second; it is false
    when the two time values are equal.  It is a function of its two
    arguments alone: it reads no store and leaves none behind. *)
Theorem isDateBefore_is_strict_comparison (date1 date2 : Date) :
  (isDateBefore date1 date2 = true
   <-> exists t1 t2, getTime date1 = ms t1 /\ getTime date2 = ms t2 /\ t1 < t2)
  /\ (getTime date1 = getTime date2 -> isDateBefore date1 date2 = false).
Proof.
  split; [apply number_lt_spec|].
  unfold isDateBefore. intros ->.
  destruct (getTime date2); simpl; [done | apply Z.ltb_irrefl].
Qed.

(** C6, as the code has it: applying the selector to its own output gives
    that output again when every post has a time value and no two posts
    that pass the filter share one.  (Posts that share a time value may
    change places.) *)
Theorem selector_idempotent_without_ties (env : Env)
    (allPosts : list CollectionEntry) :
  Forall valid_post allPosts ->
  NoDup (timestamps (passing env allPosts)) ->
  getPublishedAndSortedPosts env (getPublishedAndSortedPosts env allPosts)
  = getPublishedAndSortedPosts env allPosts.
Proof.
  intros Hvalid Hnodup.
  pose proof (selected_Permutation env allPosts) as Hperm.
  pose proof (valid_passing env allPosts Hvalid) as Hvalid'.
  set (output := getPublishedAndSortedPosts env allPosts) in *.
  unfold getPublishedAndSortedPosts at 1.
  change (ArrayPrototypeFilter (filter_callback env) output)
    with (passing env output).
  unfold output at 1. rewrite passing_selected. fold output.
  assert (NoDup (timestamps output)) as Hnodup'.
  { unfold timestamps in *. by rewrite Hperm. }
  assert (Forall valid_post output) as Hvalid'' by (by rewrite Hperm).
  apply (StronglySorted_unique_strong not_earlier).
  - intros post1 post2 H1 H2.
    apply (not_earlier_antisymmetric output); [done| |done].
    by rewrite <- (sorted_posts_Permutation output).
  - by apply sorted_posts_not_earlier.
  - by apply selected_sorted.
  - apply sorted_posts_Permutation.
Qed.

Lemma selector_idempotent_without_ties_witness :
  Forall valid_post three_posts
  /\ NoDup (timestamps (passing production three_posts))
  /\ getPublishedAndSortedPosts production
       (getPublishedAndSortedPosts production three_posts)
     = getPublishedAndSortedPosts production three_posts.
Proof.
  assert (Forall valid_post three_posts) as Hvalid by (by repeat constructor).
  assert (NoDup (timestamps (passing production three_posts))) as Hnodup
    by (apply (bool_decide_unpack _); vm_compute; exact I).
  split; [exact Hvalid|]. split; [exact Hnodup|].
  exact (selector_idempotent_without_ties production three_posts Hvalid Hnodup).
Defined.

(** C6, as stated, fails: for two posts published at the same instant the
    comparator answers -1, [CountAndMakeRun] takes the pair for a strictly
    descending run and reverses it; a second application swaps the two
    back and so differs from the first. *)
Lemma selector_reorders_ties :
  getPublishedAndSortedPosts production [twin1; twin2] = [twin2; twin1]
  /\ getPublishedAndSortedPosts production
       (getPublishedAndSortedPosts production [twin1; twin2])
     = [twin1; twin2]
  /\ getPublishedAndSortedPosts production
       (getPublishedAndSortedPosts production [twin1; twin2])
     <> getPublishedAndSortedPosts production [twin1; twin2].
Proof. split; [reflexivity|]. split; [reflexivity|]. discriminate. Qed.

(** C8: the call returns a new array and leaves the input array as it
    was: after the call the input reference holds the same posts in the
    same order, the result is another reference, and every array that
    existed before the call is unchanged. *)
Theorem input_array_is_left_unmodified (env : Env) (store : Store)
    (allPosts : nat) (posts : list CollectionEntry) :
  store !! allPosts = Some posts ->
  exists store' result,
    call_getPublishedAndSortedPosts env store allPosts = Normal (store', result)
    /\ result <> allPosts
    /\ store' !! allPosts = Some posts
    /\ store' !! result = Some (getPublishedAndSortedPosts env posts)
    /\ (forall other, (other < length store)%nat -> store' !! other = store !! other).
Proof.
  intros Hposts. pose proof (lookup_lt_Some _ _ _ Hposts).
  eexists _, _. split; [by apply call_result|].
  split; [lia|]. split; [by rewrite lookup_app_l|].
  split; [by apply list_lookup_middle|].
  intros other ?. by rewrite lookup_app_l.
Qed.

Lemma input_array_is_left_unmodified_witness :
  [three_posts] !! 0%nat = Some three_posts
  /\ exists store' result,
       call_getPublishedAndSortedPosts production [three_posts] 0
       = Normal (store', result)
       /\ result <> 0%nat
       /\ store' !! 0%nat = Some three_posts
       /\ store' !! result = Some (getPublishedAndSortedPosts production three_posts)
       /\ (forall other, (other < length [three_posts])%nat ->
             store' !! other = [three_posts] !! other).
Proof.
  split; [reflexivity|].
  apply (input_array_is_left_unmodified production [three_posts] 0 three_posts).
  reflexivity.
Defined.

(** C9, as the code has it: when every post has a [pubDate], valid or
    not, the call raises no error: it completes normally with a
    permutation of the posts that pass the draft filter.  In particular
    no error is raised when every [pubDate] is valid. *)
Theorem selector_raises_no_error_on_dated_posts (env : Env)
    (allPosts : list Runtime.CollectionEntry) :
  Forall Runtime.dated allPosts ->
  exists output,
    Runtime.getPublishedAndSortedPosts env allPosts = Normal output
    /\ output ≡ₚ ArrayPrototypeFilter (Runtime.filter_callback env) allPosts.
Proof.
  intros Hdated.
  exists (V8.ArrayPrototypeSort Runtime.order_of
            (ArrayPrototypeFilter (Runtime.filter_callback env) allPosts)).
  split; [|apply V8Facts.ArrayTimSortImpl_Permutation].
  apply (AbruptFacts.ArrayTimSortImpl_completes _ _ Runtime.dated).
  - apply sort_callback_completes.
  - rewrite Forall_forall in *. unfold ArrayPrototypeFilter.
    intros post [_ ?]%list_elem_of_filter. auto.
Qed.

Lemma selector_raises_no_error_on_dated_posts_witness :
  Forall Runtime.dated (at_run_time <$> [december; undated; january])
  /\ exists output,
       Runtime.getPublishedAndSortedPosts production
         (at_run_time <$> [december; undated; january]) = Normal output
       /\ output ≡ₚ ArrayPrototypeFilter (Runtime.filter_callback production)
                      (at_run_time <$> [december; undated; january]).
Proof.
  assert (Forall Runtime.dated (at_run_time <$> [december; undated; january]))
    as Hdated by (repeat constructor; by eexists).
  split; [exact Hdated|].
  exact (selector_raises_no_error_on_dated_posts production _ Hdated).
Defined.

(** C9, as stated, fails: with a post whose date did not parse the call
    completes normally (no [InvalidRecord] is thrown) and returns January
    2021 before December 2021; and with a record that has no [pubDate]
    the error is the [TypeError] of the method call on [undefined], thrown
    by the first comparison, not an [InvalidRecord]. *)
Lemma invalid_date_is_not_reported :
  Runtime.pubDate (Runtime.data (at_run_time undated)) = Some {| getTime := NaN |}
  /\ Runtime.getPublishedAndSortedPosts production
       (at_run_time <$> [december; undated; january])
     = Normal (at_run_time <$> [january; undated; december])
  /\ isDateBefore (pubDate (data january)) (pubDate (data december)) = true
  /\ Runtime.pubDate (Runtime.data (without_pubDate "undated")) = None
  /\ Runtime.getPublishedAndSortedPosts production
       [at_run_time december; without_pubDate "undated"; at_run_time january]
     = Throw "TypeError"
  /\ "TypeError" <> "InvalidRecord".
Proof.
  split; [reflexivity|]. split; [reflexivity|]. split; [reflexivity|].
  split; [reflexivity|]. split; [reflexivity|]. discriminate.
Qed.

(** C10: for two posts with equal time values the comparator answers -1
    for both orders, and it never answers 0. *)
Theorem comparator_answers_minus_one_on_ties (postA postB : CollectionEntry) :
  getTime (pubDate (data postA)) = getTime (pubDate (data postB)) ->
  sort_callback postA postB = -1
  /\ sort_callback postB postA = -1
  /\ (forall post1 post2, sort_callback post1 post2 <> 0).
Proof.
  intros Htie.
  destruct (isDateBefore_is_tie_free (pubDate (data postA)) (pubDate (data postB)) Htie)
    as [HAB HBA].
  split; [by unfold sort_callback; rewrite HAB|].
  split; [by unfold sort_callback; rewrite HBA|].
  intros post1 post2. destruct (sort_callback_values post1 post2); lia.
Qed.

Lemma comparator_answers_minus_one_on_ties_witness :
  getTime (pubDate (data twin1)) = getTime (pubDate (data twin2))
  /\ sort_callback twin1 twin2 = -1
  /\ sort_callback twin2 twin1 = -1
  /\ (forall post1 post2, sort_callback post1 post2 <> 0).
Proof.
  split; [reflexivity|].
  apply (comparator_answers_minus_one_on_ties twin1 twin2). reflexivity.
Defined.

(** * Further properties of the two functions *)

(** X1: [isDateBefore] is a strict order on all dates, the invalid ones
    included: no date is before itself, two dates are never each before
    the other, and a date before a second one that is before a third is
    before the third. *)
Theorem isDateBefore_is_a_strict_order (date1 date2 date3 : Date) :
  isDateBefore date1 date1 = false
  /\ (isDateBefore date1 date2 = true -> isDateBefore date2 date1 = false)
  /\ (isDateBefore date1 date2 = true -> isDateBefore date2 date3 = true ->
      isDateBefore date1 date3 = true).
Proof.
  unfold isDateBefore.
  destruct (getTime date1) as [|t1], (getTime date2) as [|t2],
    (getTime date3) as [|t3]; simpl; repeat split; try done;
    rewrite ?Z.ltb_lt, ?Z.ltb_ge; lia.
Qed.

(** X2: two valid dates of which neither is before the other have the
    same time value.  (Of an invalid date and any other date neither is
    before the other either, so validity is needed.) *)
Theorem valid_dates_are_comparable (date1 date2 : Date) :
  valid_date date1 -> valid_date date2 ->
  isDateBefore date1 date2 = false -> isDateBefore date2 date1 = false ->
  getTime date1 = getTime date2.
Proof.
  unfold valid_date, isDateBefore.
  destruct (getTime date1) as [|t1], (getTime date2) as [|t2]; simpl; try done.
  rewrite !Z.ltb_ge. intros _ _ ? ?. f_equal. lia.
Qed.

Lemma valid_dates_are_comparable_witness :
  valid_date (pubDate (data twin1)) /\ valid_date (pubDate (data twin2))
  /\ isDateBefore (pubDate (data twin1)) (pubDate (data twin2)) = false
  /\ isDateBefore (pubDate (data twin2)) (pubDate (data twin1)) = false
  /\ getTime (pubDate (data twin1)) = getTime (pubDate (data twin2)).
Proof.
  split; [done|]. split; [done|]. split; [reflexivity|]. split; [reflexivity|].
  apply (valid_dates_are_comparable (pubDate (data twin1)) (pubDate (data twin2)));
    (done || reflexivity).
Defined.

(** X3: on two posts with valid and different dates the comparator is
    consistent: swapping its arguments changes the sign of its answer. *)
Theorem comparator_changes_sign_off_ties (post1 post2 : CollectionEntry) :
  valid_post post1 -> valid_post post2 ->
  getTime (pubDate (data post1)) <> getTime (pubDate (data post2)) ->
  sort_callback post1 post2 = - sort_callback post2 post1.
Proof.
  intros [t1 E1]%valid_post_ms [t2 E2]%valid_post_ms.
  unfold sort_callback, isDateBefore. rewrite E1, E2. simpl. intros Hne.
  destruct (Z.ltb_spec t1 t2), (Z.ltb_spec t2 t1); try done; try lia.
  destruct Hne. f_equal. lia.
Qed.

Lemma comparator_changes_sign_off_ties_witness :
  valid_post january /\ valid_post december
  /\ getTime (pubDate (data january)) <> getTime (pubDate (data december))
  /\ sort_callback january december = - sort_callback december january.
Proof.
  split; [done|]. split; [done|]. split; [done|].
  apply (comparator_changes_sign_off_ties january december); done.
Defined.

(** X4: when one of the two dates is invalid the comparator answers -1,
    whichever way round the posts are given: an invalid date is not
    reported, it counts as a tie with every other date. *)
Theorem comparator_answers_minus_one_on_invalid_date (post1 post2 : CollectionEntry) :
  getTime (pubDate (data post1)) = NaN \/ getTime (pubDate (data post2)) = NaN ->
  sort_callback post1 post2 = -1 /\ sort_callback post2 post1 = -1.
Proof.
  unfold sort_callback, isDateBefore.
  intros [E|E]; rewrite E; simpl.
  - by destruct (getTime (pubDate (data post2))).
  - by destruct (getTime (pubDate (data post1))).
Qed.

Lemma comparator_answers_minus_one_on_invalid_date_witness :
  (getTime (pubDate (data undated)) = NaN \/ getTime (pubDate (data january)) = NaN)
  /\ sort_callback undated january = -1 /\ sort_callback january undated = -1.
Proof.
  split; [left; reflexivity|].
  apply (comparator_answers_minus_one_on_invalid_date undated january).
  left. reflexivity.
Defined.

(** X5: the output has as many posts as pass the draft filter, never more
    than the input, and it is empty exactly when no input post passes; in
    particular an empty input gives an empty output. *)
Theorem output_length (env : Env) (allPosts : list CollectionEntry) :
  length (getPublishedAndSortedPosts env allPosts) = length (passing env allPosts)
  /\ (length (getPublishedAndSortedPosts env allPosts) <= length allPosts)%nat
  /\ (getPublishedAndSortedPosts env allPosts = []
      <-> Forall (fun post => filter_callback env post = false) allPosts).
Proof.
  pose proof (selected_Permutation env allPosts) as Hperm.
  split; [by rewrite Hperm|]. split.
  - rewrite Hperm. apply length_filter.
  - split.
    + intros Hempty. rewrite Hempty in Hperm. symmetry in Hperm.
      apply Permutation_nil_r in Hperm. apply Forall_forall. intros post Hpost.
      destruct (filter_callback env post) eqn:Hpass; [|done].
      assert (post ∈ passing env allPosts) as Hin by (by apply passing_elem_of).
      rewrite Hperm in Hin. by apply elem_of_nil in Hin.
    + intros Hnone. apply Permutation_nil_r. rewrite Hperm.
      destruct (passing env allPosts) as [|post rest] eqn:E; [done|].
      assert (post ∈ passing env allPosts) as [Hpass Hin]%passing_elem_of
        by (rewrite E; left).
      rewrite Forall_forall in Hnone. rewrite (Hnone post Hin) in Hpass. done.
Qed.

(** X6: a post that is listed in production is listed, as many times, in
    every environment: switching to a development build or showing the
    drafts never hides a post. *)
Theorem production_output_is_in_every_output (env : Env)
    (allPosts : list CollectionEntry) (showDraftPagesInProduction : bool) :
  getPublishedAndSortedPosts
    {| PROD := true; showDraftPages := showDraftPagesInProduction |} allPosts
  ⊆+ getPublishedAndSortedPosts env allPosts.
Proof.
  rewrite !selected_Permutation. apply sublist_submseteq. unfold passing.
  induction allPosts as [|post allPosts IH]; [done|].
  rewrite (filter_cons (fun post => filter_callback env post = true)).
  rewrite (filter_cons (fun post => filter_callback _ post = true)).
  destruct (decide
    (filter_callback {| PROD := true; showDraftPages := showDraftPagesInProduction |}
       post = true)) as [Hpass|Hfail].
  - assert (filter_callback env post = true) as Hpass'.
    { unfold filter_callback in *. simpl in Hpass. rewrite Hpass.
      by destruct (PROD env), (showDraftPages env). }
    rewrite decide_True by done. by apply sublist_skip.
  - destruct (decide (filter_callback env post = true)); [by apply sublist_cons|done].
Qed.

(** X7: when every post has a valid date, the first post of the output is
    a most recent one: it is not earlier than any input post that passes
    the draft filter. *)
Theorem first_post_is_most_recent (env : Env) (allPosts : list CollectionEntry)
    (first post : CollectionEntry) (rest : list CollectionEntry) :
  Forall valid_post allPosts ->
  getPublishedAndSortedPosts env allPosts = first :: rest ->
  post ∈ allPosts -> filter_callback env post = true ->
  not_earlier first post.
Proof.
  intros Hvalid Hout Hin Hpass.
  pose proof (selected_sorted env allPosts (valid_passing env allPosts Hvalid))
    as Hsorted.
  assert (post ∈ getPublishedAndSortedPosts env allPosts) as Hpost.
  { rewrite selected_Permutation. by apply passing_elem_of. }
  rewrite Hout in Hsorted, Hpost.
  apply StronglySorted_cons in Hsorted as [Hfirst _].
  rewrite Forall_forall in Hfirst, Hvalid.
  apply elem_of_cons in Hpost as [->|Hpost]; [|by apply Hfirst].
  by apply not_earlier_refl, Hvalid.
Qed.

Lemma first_post_is_most_recent_witness :
  Forall valid_post three_posts
  /\ getPublishedAndSortedPosts production three_posts = december :: [january]
  /\ january ∈ three_posts /\ filter_callback production january = true
  /\ not_earlier december january.
Proof.
  assert (Forall valid_post three_posts) as Hvalid by (by repeat constructor).
  assert (january ∈ three_posts) as Hin by (by left).
  split; [exact Hvalid|]. split; [reflexivity|]. split; [exact Hin|].
  split; [reflexivity|].
  apply (first_post_is_most_recent production three_posts december january [january]);
    [exact Hvalid | reflexivity | exact Hin | reflexivity].
Defined.

(** X8: with valid dates and no two passing posts of the same time
    value, the output does not depend on the order of the input: two
    inputs that hold the same posts give the same output. *)
Theorem output_does_not_depend_on_input_order (env : Env)
    (allPosts1 allPosts2 : list CollectionEntry) :
  allPosts1 ≡ₚ allPosts2 ->
  Forall valid_post allPosts1 ->
  NoDup (timestamps (passing env allPosts1)) ->
  getPublishedAndSortedPosts env allPosts1 = getPublishedAndSortedPosts env allPosts2.
Proof.
  intros Hperm Hvalid Hnodup.
  assert (Forall valid_post allPosts2) as Hvalid2 by (by rewrite <- Hperm).
  apply (StronglySorted_unique_strong not_earlier).
  - intros post1 post2 H1 H2.
    apply (not_earlier_antisymmetric (passing env allPosts1)); [done| |].
    + by rewrite <- selected_Permutation.
    + rewrite (passing_Permutation env _ _ Hperm). by rewrite <- selected_Permutation.
  - by apply selected_sorted, valid_passing.
  - by apply selected_sorted, valid_passing.
  - rewrite !selected_Permutation. by apply passing_Permutation.
Qed.

Lemma output_does_not_depend_on_input_order_witness :
  three_posts ≡ₚ [december; january; june]
  /\ Forall valid_post three_posts
  /\ NoDup (timestamps (passing production three_posts))
  /\ getPublishedAndSortedPosts production three_posts
     = getPublishedAndSortedPosts production [december; january; june].
Proof.
  assert (three_posts ≡ₚ [december; january; june]) as Hperm
    by (unfold three_posts; solve_Permutation).
  assert (Forall valid_post three_posts) as Hvalid by (by repeat constructor).
  assert (NoDup (timestamps (passing production three_posts))) as Hnodup
    by (apply (bool_decide_unpack _); vm_compute; exact I).
  split; [exact Hperm|]. split; [exact Hvalid|]. split; [exact Hnodup|].
  exact (output_does_not_depend_on_input_order production three_posts
           [december; january; june] Hperm Hvalid Hnodup).
Defined.

(** X9: posts of the same time value leave in the reverse of the order
    in which they were given: when the posts are valid and pairwise
    different, and two posts of the same time value stand at positions
    i < j of the output, the one at j stands before the one at i in the
    input. *)
Theorem ties_leave_in_reverse_input_order (env : Env)
    (allPosts : list CollectionEntry) (i j : nat) (post_i post_j : CollectionEntry) :
  Forall valid_post allPosts -> NoDup allPosts ->
  (i < j)%nat ->
  getPublishedAndSortedPosts env allPosts !! i = Some post_i ->
  getPublishedAndSortedPosts env allPosts !! j = Some post_j ->
  getTime (pubDate (data post_i)) = getTime (pubDate (data post_j)) ->
  listed_before allPosts post_j post_i.
Proof.
  intros Hvalid Hnodup Hij Hi Hj Htie.
  pose proof (selected_newest_first env allPosts Hvalid Hnodup) as Hsorted.
  destruct (StronglySorted_lookup _ _ _ _ _ _ Hsorted Hij Hi Hj) as [_ Hbefore].
  by apply (listed_before_passing env), Hbefore.
Qed.

Lemma ties_leave_in_reverse_input_order_witness :
  Forall valid_post [twin1; twin2] /\ NoDup [twin1; twin2]
  /\ (0 < 1)%nat
  /\ getPublishedAndSortedPosts production [twin1; twin2] !! 0%nat = Some twin2
  /\ getPublishedAndSortedPosts production [twin1; twin2] !! 1%nat = Some twin1
  /\ getTime (pubDate (data twin2)) = getTime (pubDate (data twin1))
  /\ listed_before [twin1; twin2] twin1 twin2.
Proof.
  assert (Forall valid_post [twin1; twin2]) as Hvalid by (by repeat constructor).
  assert (NoDup [twin1; twin2]) as Hnodup
    by (apply (bool_decide_unpack _); vm_compute; exact I).
  split; [exact Hvalid|]. split; [exact Hnodup|]. split; [lia|].
  split; [reflexivity|]. split; [reflexivity|]. split; [reflexivity|].
  apply (ties_leave_in_reverse_input_order production [twin1; twin2] 0 1 twin2 twin1);
    [exact Hvalid | exact Hnodup | lia | reflexivity | reflexivity | reflexivity].
Defined.

(** X10: hiding the drafts does not change the order of the other posts:
    for valid, pairwise different posts the output is the output with all
    drafts shown, filtered.  Filtering before the sort, as the code does,
    gives what filtering after it would. *)
Theorem hiding_drafts_keeps_the_order (env : Env) (allPosts : list CollectionEntry) :
  Forall valid_post allPosts -> NoDup allPosts ->
  getPublishedAndSortedPosts env allPosts
  = ArrayPrototypeFilter (filter_callback env)
      (getPublishedAndSortedPosts {| PROD := false; showDraftPages := true |} allPosts).
Proof.
  intros Hvalid Hnodup.
  set (all := {| PROD := false; showDraftPages := true |}).
  assert (passing all allPosts = allPosts) as Hall
    by (apply passing_all, Forall_forall; done).
  apply (newest_first_unique allPosts); [done|..].
  - eapply StronglySorted_weaken; [apply (newest_first_passing env)|].
    by apply selected_newest_first.
  - apply StronglySorted_filter.
    pose proof (selected_newest_first all allPosts Hvalid Hnodup) as Hsorted.
    by rewrite Hall in Hsorted.
  - rewrite selected_Permutation.
    change (ArrayPrototypeFilter (filter_callback env)
              (getPublishedAndSortedPosts all allPosts))
      with (passing env (getPublishedAndSortedPosts all allPosts)).
    apply passing_Permutation. by rewrite selected_Permutation, Hall.
Qed.

Lemma hiding_drafts_keeps_the_order_witness :
  Forall valid_post [twin1; june; twin2] /\ NoDup [twin1; june; twin2]
  /\ getPublishedAndSortedPosts production [twin1; june; twin2]
     = ArrayPrototypeFilter (filter_callback production)
         (getPublishedAndSortedPosts {| PROD := false; showDraftPages := true |}
            [twin1; june; twin2]).
Proof.
  assert (Forall valid_post [twin1; june; twin2]) as Hvalid by (by repeat constructor).
  assert (NoDup [twin1; june; twin2]) as Hnodup
    by (apply (bool_decide_unpack _); vm_compute; exact I).
  split; [exact Hvalid|]. split; [exact Hnodup|].
  exact (hiding_drafts_keeps_the_order production [twin1; june; twin2] Hvalid Hnodup).
Defined.

(** X11: a second application of the selector puts the posts of the same
    time value back in the order of the input: for valid, pairwise
    different posts, of two posts of the same time value at positions
    i < j of the output of the output, the one at i stands before the one
    at j in the input. *)
Theorem second_application_restores_input_order_of_ties (env : Env)
    (allPosts : list CollectionEntry) (i j : nat) (post_i post_j : CollectionEntry) :
  Forall valid_post allPosts -> NoDup allPosts ->
  (i < j)%nat ->
  getPublishedAndSortedPosts env (getPublishedAndSortedPosts env allPosts) !! i
  = Some post_i ->
  getPublishedAndSortedPosts env (getPublishedAndSortedPosts env allPosts) !! j
  = Some post_j ->
  getTime (pubDate (data post_i)) = getTime (pubDate (data post_j)) ->
  listed_before allPosts post_i post_j.
Proof.
  intros Hvalid Hnodup Hij Hi Hj Htie.
  pose proof (selected_newest_first env allPosts Hvalid Hnodup) as Hsorted1.
  pose proof (selected_again_newest_first env allPosts Hvalid Hnodup) as Hsorted2.
  destruct (StronglySorted_lookup _ _ _ _ _ _ Hsorted2 Hij Hi Hj) as [_ Hbefore2].
  destruct (listed_before_sorted _ _ _ _ Hsorted1 (Hbefore2 Htie)) as [_ Hbefore1].
  by apply (listed_before_passing env), Hbefore1.
Qed.

Lemma second_application_restores_input_order_of_ties_witness :
  Forall valid_post [twin1; twin2] /\ NoDup [twin1; twin2]
  /\ (0 < 1)%nat
  /\ getPublishedAndSortedPosts production
       (getPublishedAndSortedPosts production [twin1; twin2]) !! 0%nat = Some twin1
  /\ getPublishedAndSortedPosts production
       (getPublishedAndSortedPosts production [twin1; twin2]) !! 1%nat = Some twin2
  /\ getTime (pubDate (data twin1)) = getTime (pubDate (data twin2))
  /\ listed_before [twin1; twin2] twin1 twin2.
Proof.
  assert (Forall valid_post [twin1; twin2]) as Hvalid by (by repeat constructor).
  assert (NoDup [twin1; twin2]) as Hnodup
    by (apply (bool_decide_unpack _); vm_compute; exact I).
  split; [exact Hvalid|]. split; [exact Hnodup|]. split; [lia|].
  split; [reflexivity|]. split; [reflexivity|]. split; [reflexivity|].
  apply (second_application_restores_input_order_of_ties production [twin1; twin2]
           0 1 twin1 twin2);
    [exact Hvalid | exact Hnodup | lia | reflexivity | reflexivity | reflexivity].
Defined.

(** X12: for valid, pairwise different posts, applying the selector three
    times gives what applying it once gives, also when posts share a time
    value: from the first output on, the outputs alternate between two
    orders. *)
Theorem third_application_is_the_first (env : Env) (allPosts : list CollectionEntry) :
  Forall valid_post allPosts -> NoDup allPosts ->
  getPublishedAndSortedPosts env
    (getPublishedAndSortedPosts env (getPublishedAndSortedPosts env allPosts))
  = getPublishedAndSortedPosts env allPosts.
Proof.
  intros Hvalid Hnodup.
  set (output1 := getPublishedAndSortedPosts env allPosts).
  set (output2 := getPublishedAndSortedPosts env output1).
  pose proof (selected_newest_first env allPosts Hvalid Hnodup) as Hsorted1.
  pose proof (selected_again_newest_first env allPosts Hvalid Hnodup) as Hsorted2.
  pose proof (selected_again_newest_first env output1
    (selected_valid env allPosts Hvalid) (selected_NoDup env allPosts Hnodup))
    as Hsorted3.
  fold output1 in Hsorted1, Hsorted2. fold output2 in Hsorted2, Hsorted3.
  apply (newest_first_unique (passing env allPosts));
    [by apply NoDup_filter | | done |].
  - eapply StronglySorted_weaken; [|exact Hsorted3].
    intros post1 post2.
    by apply (newest_first_twice (passing env allPosts) output1 output2).
  - rewrite selected_Permutation. unfold output2.
    rewrite passing_selected. rewrite selected_Permutation. unfold output1.
    by rewrite passing_selected.
Qed.

Lemma third_application_is_the_first_witness :
  Forall valid_post [twin1; june; twin2] /\ NoDup [twin1; june; twin2]
  /\ getPublishedAndSortedPosts preview
       (getPublishedAndSortedPosts preview
          (getPublishedAndSortedPosts preview [twin1; june; twin2]))
     = getPublishedAndSortedPosts preview [twin1; june; twin2].
Proof.
  assert (Forall valid_post [twin1; june; twin2]) as Hvalid by (by repeat constructor).
  assert (NoDup [twin1; june; twin2]) as Hnodup
    by (apply (bool_decide_unpack _); vm_compute; exact I).
  split; [exact Hvalid|]. split; [exact Hnodup|].
  exact (third_application_is_the_first preview [twin1; june; twin2] Hvalid Hnodup).
Defined.

(** X13: when no passing post is before the passing post that precedes
    it in the input, the output is the passing posts in the reverse of
    their input order.  For valid dates this is an input that stands
    oldest first, posts of the same date side by side; it is also the
    case of an invalid date between any two dates. *)
Theorem input_without_descent_is_reversed (env : Env)
    (allPosts : list CollectionEntry) :
  (forall (i : nat) post1 post2,
     passing env allPosts !! i = Some post1 ->
     passing env allPosts !! S i = Some post2 ->
     isDateBefore (pubDate (data post2)) (pubDate (data post1)) = false) ->
  getPublishedAndSortedPosts env allPosts = reverse (passing env allPosts).
Proof.
  intros Hpairs. apply V8Facts.ArrayTimSortImpl_descending, Sorted_lookup_2.
  intros i post1 post2 H1 H2. apply sort_callback_negative. by apply (Hpairs i).
Qed.

Lemma input_without_descent_is_reversed_witness :
  (forall (i : nat) post1 post2,
     passing production [twin1; twin2; undated; january] !! i = Some post1 ->
     passing production [twin1; twin2; undated; january] !! S i = Some post2 ->
     isDateBefore (pubDate (data post2)) (pubDate (data post1)) = false)
  /\ getPublishedAndSortedPosts production [twin1; twin2; undated; january]
     = reverse (passing production [twin1; twin2; undated; january]).
Proof.
  assert (forall (i : nat) post1 post2,
     passing production [twin1; twin2; undated; january] !! i = Some post1 ->
     passing production [twin1; twin2; undated; january] !! S i = Some post2 ->
     isDateBefore (pubDate (data post2)) (pubDate (data post1)) = false) as Hpairs.
  { change (passing production [twin1; twin2; undated; january])
      with [twin1; twin2; undated; january].
    intros i post1 post2 H1 H2.
    do 4 (destruct i as [|i]; [simpl in H1, H2; simplify_eq; reflexivity|]).
    done. }
  split; [exact Hpairs|].
  exact (input_without_descent_is_reversed production
           [twin1; twin2; undated; january] Hpairs).
Defined.

(** X14: when every passing post is before the passing post that
    precedes it in the input (the input stands strictly newest first),
    the output is the passing posts in their input order: such inputs
    are returned as they are, without their drafts. *)
Theorem newest_first_input_is_kept (env : Env) (allPosts : list CollectionEntry) :
  (forall (i : nat) post1 post2,
     passing env allPosts !! i = Some post1 ->
     passing env allPosts !! S i = Some post2 ->
     isDateBefore (pubDate (data post2)) (pubDate (data post1)) = true) ->
  getPublishedAndSortedPosts env allPosts = passing env allPosts.
Proof.
  intros Hpairs. apply V8Facts.ArrayTimSortImpl_ascending, Sorted_lookup_2.
  intros i post1 post2 H1 H2. unfold sort_callback.
  by rewrite (Hpairs i post1 post2 H1 H2).
Qed.

Lemma newest_first_input_is_kept_witness :
  (forall (i : nat) post1 post2,
     passing production [december; june; january] !! i = Some post1 ->
     passing production [december; june; january] !! S i = Some post2 ->
     isDateBefore (pubDate (data post2)) (pubDate (data post1)) = true)
  /\ getPublishedAndSortedPosts production [december; june; january]
     = passing production [december; june; january].
Proof.
  assert (forall (i : nat) post1 post2,
     passing production [december; june; january] !! i = Some post1 ->
     passing production [december; june; january] !! S i = Some post2 ->
     isDateBefore (pubDate (data post2)) (pubDate (data post1)) = true) as Hpairs.
  { change (passing production [december; june; january])
      with [december; january].
    intros i post1 post2 H1 H2.
    do 2 (destruct i as [|i]; [simpl in H1, H2; simplify_eq; reflexivity|]).
    done. }
  split; [exact Hpairs|].
  exact (newest_first_input_is_kept production [december; june; january] Hpairs).
Defined.

(** X15: two calls on the same input array return two different arrays
    that hold the same posts in the same order; the second call leaves
    the array of the first and the input array as they were. *)
Theorem repeated_calls_return_separate_arrays (env : Env) (store : Store)
    (allPosts : nat) (posts : list CollectionEntry) :
  store !! allPosts = Some posts ->
  exists store1 result1 store2 result2,
    call_getPublishedAndSortedPosts env store allPosts = Normal (store1, result1)
    /\ call_getPublishedAndSortedPosts env store1 allPosts = Normal (store2, result2)
    /\ result1 <> result2
    /\ store2 !! result1 = Some (getPublishedAndSortedPosts env posts)
    /\ store2 !! result2 = Some (getPublishedAndSortedPosts env posts)
    /\ store2 !! allPosts = Some posts.
Proof.
  intros Hposts. pose proof (lookup_lt_Some _ _ _ Hposts) as Hlt.
  set (output := getPublishedAndSortedPosts env posts).
  assert ((store ++ [output]) !! allPosts = Some posts) as Hposts1
    by (by rewrite lookup_app_l).
  eexists _, _, _, _. split; [by apply call_result|].
  split; [by apply call_result|].
  rewrite length_app. simpl. split; [lia|]. split.
  - rewrite lookup_app_l by (rewrite length_app; simpl; lia).
    by apply list_lookup_middle.
  - split.
    + apply list_lookup_middle. rewrite length_app. simpl. lia.
    + by rewrite lookup_app_l by (rewrite length_app; simpl; lia).
Qed.

Lemma repeated_calls_return_separate_arrays_witness :
  [three_posts] !! 0%nat = Some three_posts
  /\ exists store1 result1 store2 result2,
       call_getPublishedAndSortedPosts production [three_posts] 0
       = Normal (store1, result1)
       /\ call_getPublishedAndSortedPosts production store1 0
          = Normal (store2, result2)
       /\ result1 <> result2
       /\ store2 !! result1 = Some (getPublishedAndSortedPosts production three_posts)
       /\ store2 !! result2 = Some (getPublishedAndSortedPosts production three_posts)
       /\ store2 !! 0%nat = Some three_posts.
Proof.
  split; [reflexivity|].
  apply (repeated_calls_return_separate_arrays production [three_posts] 0 three_posts).
  reflexivity.
Defined.
